(** * Hybrid retrieval and hierarchical highlighting: a shallow embedding

    The development follows the Python sources of the retrieval engine:

    - [ragnarok/utils/highlight.py]: the two-level chunker
      ([split_text_simple], [create_chunks_from_text],
      [create_hierarchical_chunks]);
    - [ragnarok/rag.py]: [reciprocal_rank_fusion];
    - [ragnarok/utils/query_rewrite.py]: [rewrite_query];
    - [ragnarok/vector_db.py]: index names, the two searches and the
      selection of L1 children in [fetch_highlight_spans].

    Python values are modelled as the code has them: [int] as [Z], [str] as
    the list of its code points, [None]-able values as [option], a [dict]
    whose iteration order matters as an association list, exceptions and
    loops that may run forever through the [outcome] monad. *)

From Stdlib Require Import List ZArith NArith QArith Qminmax Lia Bool.
From Stdlib Require Import String Ascii DecimalString Permutation Sorted.
From Stdlib Require Import Floats Uint63.
Import ListNotations.

Local Open Scope Z_scope.

(* ================================================================= *)
(** * Python strings *)

Module PyStr.

(** A Python [str] is a sequence of Unicode code points. *)
Definition char := N.
Definition pystr := list char.

(** A literal, written as a Rocq string of one-byte characters. *)
Definition str (s : string) : pystr :=
  map N_of_ascii (list_ascii_of_string s).

Definition len (s : pystr) : Z := Z.of_nat (List.length s).

Definition eqb_str (a b : pystr) : bool :=
  if list_eq_dec N.eq_dec a b then true else false.

(** The characters [str.strip()] removes: the code points for which
    [str.isspace()] holds. *)
Definition is_space (c : char) : bool :=
  ((9 <=? c) && (c <=? 13) || (28 <=? c) && (c <=? 32)
   || (c =? 133) || (c =? 160) || (c =? 5760)
   || (8192 <=? c) && (c <=? 8202)
   || (c =? 8232) || (c =? 8233) || (c =? 8239) || (c =? 8287)
   || (c =? 12288))%N.

Fixpoint lstrip (s : pystr) : pystr :=
  match s with
  | [] => []
  | c :: t => if is_space c then lstrip t else s
  end.

Definition rstrip (s : pystr) : pystr := rev (lstrip (rev s)).

Definition strip (s : pystr) : pystr := rstrip (lstrip s).

(** Truthiness of a string: [bool(s)]. *)
Definition truthy (s : pystr) : bool :=
  match s with [] => false | _ => true end.

(** Index normalisation of a slice bound, as [PySlice_AdjustIndices] does
    for step 1: a negative bound counts from the end, and every bound is
    clipped to [0 .. n]. *)
Definition adjust (i n : Z) : Z :=
  if i <? 0 then Z.max 0 (i + n) else Z.min i n.

(** [s[a:b]] *)
Definition slice (s : pystr) (a b : Z) : pystr :=
  let a' := adjust a (len s) in
  let b' := adjust b (len s) in
  firstn (Z.to_nat (b' - a')) (skipn (Z.to_nat a') s).

(** [s.startswith(p)] *)
Fixpoint startswith (p s : pystr) : bool :=
  match p, s with
  | [], _ => true
  | _ :: _, [] => false
  | a :: p', b :: s' => (a =? b)%N && startswith p' s'
  end.

(** [p in s] *)
Fixpoint contains (p s : pystr) : bool :=
  startswith p s ||
  match s with
  | [] => false
  | _ :: t => contains p t
  end.

(** The scan of [s.find(p, start)]: [i] is the index of the head of [s]
    in the full string. *)
Fixpoint find_at (p s : pystr) (i : Z) : Z :=
  if startswith p s then i
  else match s with
       | [] => -1
       | _ :: t => find_at p t (i + 1)
       end.

(** [s.find(p, start)] *)
Definition find (s p : pystr) (start : Z) : Z :=
  if len s <? start then -1
  else let st := adjust start (len s) in
       find_at p (skipn (Z.to_nat st) s) st.

(** [s.split(sep)] for a non-empty [sep]: a left-to-right scan for
    non-overlapping occurrences.  [skip] counts the characters of an
    occurrence still to be passed over, [acc] holds the current part in
    reverse. *)
Fixpoint split_go (sep : pystr) (skip : nat) (acc s : pystr)
  : list pystr :=
  match s with
  | [] => [rev acc]
  | c :: t =>
      match skip with
      | S k => split_go sep k acc t
      | O =>
          if startswith sep s
          then rev acc :: split_go sep (List.length sep - 1) [] t
          else split_go sep 0 (c :: acc) t
      end
  end.

Definition split_nonempty (sep s : pystr) : list pystr :=
  split_go sep 0 [] s.

(** [sep.join(parts)] *)
Fixpoint join (sep : pystr) (parts : list pystr) : pystr :=
  match parts with
  | [] => []
  | [p] => p
  | p :: more => p ++ sep ++ join sep more
  end.

(** [str(n)] for an [int]. *)
Definition of_int (n : Z) : pystr :=
  str (NilZero.string_of_int (Z.to_int n)).

End PyStr.

Import PyStr.

(* ================================================================= *)
(** * Outcomes of a call *)

(** The exceptions the modelled code raises. *)
Inductive exn : Type :=
| ValueError
| ZeroDivisionError
| KeyError
| ValidationError
| InvalidModelProvider
| DBRecordNotFound (ids : option (list pystr)).

(** A call returns, raises, or is still running when the fuel given to
    its [while] loops is used up. *)
Inductive outcome (A : Type) : Type :=
| Ret (a : A)
| Raise (e : exn)
| Diverge.

Arguments Ret {A} a.
Arguments Raise {A} e.
Arguments Diverge {A}.

Definition bind {A B} (m : outcome A) (k : A -> outcome B) : outcome B :=
  match m with
  | Ret a => k a
  | Raise e => Raise e
  | Diverge => Diverge
  end.

Declare Scope outcome_scope.
Delimit Scope outcome_scope with outcome.
Notation "x <- m ;; k" := (bind m (fun x => k))
  (at level 61, m at next level, right associativity) : outcome_scope.
Local Open Scope outcome_scope.

(** [s.split(sep)]: an empty separator is refused. *)
Definition split (s sep : pystr) : outcome (list pystr) :=
  match sep with
  | [] => Raise ValueError
  | _ :: _ => Ret (split_nonempty sep s)
  end.

(** [len(l)] for a list. *)
Definition list_len {A} (l : list A) : Z := Z.of_nat (List.length l).

(* ================================================================= *)
(** * The chunker: [ragnarok/utils/highlight.py] *)

Module Highlight.

Definition newline : pystr := [10%N].

Section SplitTextSimple.

Variables (chunk_size overlap : Z).

(** The [while start < n] loop of the fixed-width fallback; [fuel]
    bounds the number of iterations that are run. *)
Fixpoint sliding_window (fuel : nat) (text : pystr) (start : Z)
         (chunks : list pystr) : outcome (list pystr) :=
  match fuel with
  | O => Diverge
  | S fuel' =>
      let n := len text in
      if start <? n then
        let end_ := Z.min (start + chunk_size) n in
        let chunk := strip (slice text start end_) in
        let chunks' := if truthy chunk then chunks ++ [chunk] else chunks in
        let start' := if 0 <? overlap then end_ - overlap else end_ in
        if n <=? start' then Ret chunks'
        else sliding_window fuel' text start' chunks'
      else Ret chunks
  end.

(** [if cur.strip(): out.append(cur.strip())] *)
Definition flush (out : list pystr) (cur : pystr) : list pystr :=
  if truthy (strip cur) then out ++ [strip cur] else out.

(** The [for i, part in enumerate(parts)] loop for one separator;
    [n] is [len(parts)] and [rec] the recursive call on an oversized
    part. *)
Fixpoint accumulate (rec : pystr -> outcome (list pystr)) (sep : pystr)
         (n i : Z) (parts : list pystr) (out : list pystr) (cur : pystr)
  : outcome (list pystr) :=
  match parts with
  | [] => Ret (flush out cur)
  | part :: more =>
      let full := part ++ (if i <? n - 1 then sep else []) in
      if len (cur ++ full) <=? chunk_size then
        accumulate rec sep n (i + 1) more out (cur ++ full)
      else
        let out1 := flush out cur in
        if chunk_size <? len full then
          sub <- rec full ;;
          accumulate rec sep n (i + 1) more (out1 ++ sub) []
        else
          accumulate rec sep n (i + 1) more out1 full
  end.

(** The [for sep in separators] loop, followed by the fallback when no
    separator applies. *)
Fixpoint try_separators (rec : pystr -> outcome (list pystr))
         (fuel : nat) (text : pystr) (seps : list pystr)
  : outcome (list pystr) :=
  match seps with
  | [] => sliding_window fuel text 0 []
  | sep :: more =>
      if negb (contains sep text) then try_separators rec fuel text more
      else
        parts <- split text sep ;;
        if list_len parts <? 2 then try_separators rec fuel text more
        else accumulate rec sep (list_len parts) 0 parts [] []
  end.

(** [split_text_simple(text, chunk_size, overlap, separators)].  The
    recursive call passes [separators[1:]], whatever separator is being
    tried, so the recursion is on the list of separators; with no
    separator the loop over them is empty and only the fallback runs. *)
Fixpoint split_text_simple (fuel : nat) (text : pystr)
         (separators : list pystr) {struct separators}
  : outcome (list pystr) :=
  if len text <=? chunk_size then
    Ret (if truthy (strip text) then [text] else [])
  else
    match separators with
    | [] => try_separators (fun _ => Ret []) fuel text []
    | sep :: rest =>
        try_separators (fun full => split_text_simple fuel full rest)
                       fuel text (sep :: rest)
    end.

End SplitTextSimple.

(** [make_chunk_id]: the f-string [{source_document_id}_{level}_{start}_{end}]. *)
Definition make_chunk_id (source_document_id level : pystr) (start end_ : Z)
  : pystr :=
  source_document_id ++ str "_" ++ level ++ str "_" ++ of_int start
    ++ str "_" ++ of_int end_.

(** The [while result.startswith("\n\n\n")] loop. *)
Fixpoint drop_leading_newlines (result : pystr) : pystr :=
  match result with
  | [] => []
  | _ :: t =>
      if startswith (newline ++ newline ++ newline) result
      then drop_leading_newlines t
      else result
  end.

Definition preprocess_text_for_chunking (text : option pystr) : pystr :=
  let lines := split_nonempty newline (match text with Some t => t | None => [] end) in
  let filtered :=
    filter (fun ln => negb (startswith (str "SOURCE FILE:") (strip ln))) lines in
  let result := join newline filtered in
  strip (drop_leading_newlines result).

(** The dictionaries [create_chunks_from_text] returns; the synthetic L1
    of [create_hierarchical_chunks] has no [chunk_index] key. *)
Record raw_chunk : Type := mk_raw {
  r_text : pystr;
  r_chunk_index : option Z;
  r_char_start : Z;
  r_char_end : Z
}.

(** The [for i, t in enumerate(texts)] loop recovering the offsets. *)
Fixpoint locate (text : pystr) (overlap : Z) (i : Z) (texts : list pystr)
         (current_pos : Z) (chunks : list raw_chunk) : list raw_chunk :=
  match texts with
  | [] => chunks
  | t :: more =>
      let tc := strip t in
      if negb (truthy tc) then locate text overlap (i + 1) more current_pos chunks
      else
        let found := find text tc current_pos in
        let start_pos := if found =? -1 then current_pos else found in
        let end_pos :=
          if found =? -1 then Z.min (current_pos + len tc) (len text)
          else start_pos + len tc in
        locate text overlap (i + 1) more (Z.max 0 (end_pos - overlap))
               (chunks ++ [mk_raw tc (Some i) start_pos end_pos])
  end.

Definition create_chunks_from_text (fuel : nat) (text : pystr)
           (chunk_size overlap : Z) (separators : list pystr)
  : outcome (list raw_chunk) :=
  if negb (truthy (strip text)) then Ret []
  else
    texts <- split_text_simple chunk_size overlap fuel text separators ;;
    Ret (locate text overlap 0 texts 0 []).

(** Values of the free-form metadata dictionary. *)
Inductive pyval : Type :=
| VNone
| VInt (n : Z)
| VStr (s : pystr).

Definition metadata := list (pystr * pyval).

(** One element of [documents]: the keys [id], [text] and [metadata]. *)
Record document : Type := mk_document {
  doc_id : pystr;
  doc_text : option pystr;
  doc_metadata : metadata
}.

Inductive level : Type := L0 | L1.

Definition level_name (l : level) : pystr :=
  match l with L0 => str "L0" | L1 => str "L1" end.

(** An output dictionary: [text] and the keys written over
    [**doc["metadata"]], which is kept in [base_metadata]. *)
Record chunk : Type := mk_chunk {
  text : pystr;
  base_metadata : metadata;
  source_document_id : pystr;
  parent_chunk_id : option pystr;
  chunk_level : level;
  chunk_index : Z;
  char_start : Z;
  char_end : Z;
  chunk_id : pystr
}.

Section CreateHierarchicalChunks.

Variables (l0_size l0_overlap l1_size l1_overlap : Z).
Variable separators : list pystr.

Definition l0_chunk (doc : document) (l0_idx : Z) (l0 : raw_chunk) : chunk :=
  mk_chunk (r_text l0) (doc_metadata doc) (doc_id doc) None L0 l0_idx
           (r_char_start l0) (r_char_end l0)
           (make_chunk_id (doc_id doc) (level_name L0)
                          (r_char_start l0) (r_char_end l0)).

Definition l1_chunk (doc : document) (l0 : raw_chunk) (l0_id : pystr)
           (l1_idx : Z) (l1 : raw_chunk) : chunk :=
  let abs_start := r_char_start l0 + r_char_start l1 in
  let abs_end := r_char_start l0 + r_char_end l1 in
  mk_chunk (r_text l1) (doc_metadata doc) (doc_id doc) (Some l0_id) L1 l1_idx
           abs_start abs_end
           (make_chunk_id (doc_id doc) (level_name L1) abs_start abs_end).

(** [for l1_idx, l1 in enumerate(l1s)] *)
Fixpoint emit_l1s (doc : document) (l0 : raw_chunk) (l0_id : pystr)
         (l1_idx : Z) (l1s : list raw_chunk) (out : list chunk)
  : list chunk :=
  match l1s with
  | [] => out
  | l1 :: more =>
      emit_l1s doc l0 l0_id (l1_idx + 1) more
               (out ++ [l1_chunk doc l0 l0_id l1_idx l1])
  end.

(** The single L1 that stands in for an empty split. *)
Definition synthetic_l1 (l0 : raw_chunk) : raw_chunk :=
  mk_raw (r_text l0) None 0 (len (r_text l0)).

(** [for l0_idx, l0 in enumerate(l0s)] *)
Fixpoint emit_l0s (fuel : nat) (doc : document) (l0_idx : Z)
         (l0s : list raw_chunk) (out : list chunk)
  : outcome (list chunk) :=
  match l0s with
  | [] => Ret out
  | l0 :: more =>
      let l0_id := make_chunk_id (doc_id doc) (level_name L0)
                                 (r_char_start l0) (r_char_end l0) in
      let out1 := out ++ [l0_chunk doc l0_idx l0] in
      split <- create_chunks_from_text fuel (r_text l0) l1_size l1_overlap
                                       separators ;;
      let l1s := match split with [] => [synthetic_l1 l0] | _ :: _ => split end in
      emit_l0s fuel doc (l0_idx + 1) more (emit_l1s doc l0 l0_id 0 l1s out1)
  end.

(** [for doc in documents] *)
Fixpoint emit_documents (fuel : nat) (documents : list document)
         (out : list chunk) : outcome (list chunk) :=
  match documents with
  | [] => Ret out
  | doc :: more =>
      let text := preprocess_text_for_chunking (doc_text doc) in
      l0s <- create_chunks_from_text fuel text l0_size l0_overlap separators ;;
      match l0s with
      | [] => emit_documents fuel more out
      | _ :: _ =>
          out' <- emit_l0s fuel doc 0 l0s out ;;
          emit_documents fuel more out'
      end
  end.

Definition create_hierarchical_chunks (fuel : nat)
           (documents : list document) : outcome (list chunk) :=
  emit_documents fuel documents [].

End CreateHierarchicalChunks.

End Highlight.

(** ** Vocabulary for the claims on the chunker *)

Module HighlightSpec.

Import Highlight.

(** [tc] stands in [text] at offset [p]. *)
Definition occurs (text tc : pystr) (p : nat) : Prop :=
  exists pre post, text = pre ++ tc ++ post /\ List.length pre = p.

(** The chunks of a split can be found one after the other: each
    non-blank chunk, stripped, stands in [text] between [lo] and [hi], no
    earlier than [o] characters before the end of the chunk in front of
    it. *)
Fixpoint spans (text : pystr) (o lo hi : nat) (chunks : list pystr) : Prop :=
  match chunks with
  | [] => True
  | c :: rest =>
      (strip c = [] /\ spans text o lo hi rest)
      \/ (strip c <> []
          /\ exists p, (lo <= p)%nat
                       /\ (p + List.length (strip c) <= hi)%nat
                       /\ occurs text (strip c) p
                       /\ spans text o (p + List.length (strip c) - o) hi rest)
  end.

(** The text the loop over the parts has still to read: the parts from
    index [i] on, each but the last followed by the separator. *)
Fixpoint rest_text (sep : pystr) (n i : Z) (parts : list pystr) : pystr :=
  match parts with
  | [] => []
  | part :: more =>
      (part ++ (if i <? n - 1 then sep else [])) ++ rest_text sep n (i + 1) more
  end.

(** A list of chunks holds one that is not blank. *)
Definition has_nonblank (chunks : list pystr) : Prop :=
  exists c, In c chunks /\ strip c <> [].

(** A located chunk is in its place: its text is not empty and stands in
    [text] from [char_start] to [char_end]. *)
Definition placed (text : pystr) (r : raw_chunk) : Prop :=
  exists p, r_char_start r = Z.of_nat p
            /\ r_char_end r = Z.of_nat p + len (r_text r)
            /\ r_text r <> []
            /\ occurs text (r_text r) p.

(** The L1 dictionaries of one L0, without the accumulator. *)
Fixpoint l1_chunks (doc : document) (l0 : raw_chunk) (l0_id : pystr)
         (l1_idx : Z) (l1s : list raw_chunk) : list chunk :=
  match l1s with
  | [] => []
  | l1 :: more =>
      l1_chunk doc l0 l0_id l1_idx l1 :: l1_chunks doc l0 l0_id (l1_idx + 1) more
  end.

(** [split or [synthetic]] *)
Definition or_synthetic (l0 : raw_chunk) (split : list raw_chunk) : list raw_chunk :=
  match split with [] => [synthetic_l1 l0] | _ :: _ => split end.

(** The chunks one L0 gives: the L0 and its L1s. *)
Definition family (doc : document) (l0_idx : Z) (l0 : raw_chunk)
           (split : list raw_chunk) : list chunk :=
  l0_chunk doc l0_idx l0
  :: l1_chunks doc l0 (make_chunk_id (doc_id doc) (level_name L0)
                                     (r_char_start l0) (r_char_end l0))
               0 (or_synthetic l0 split).

(** The families of the output of a call: one per L0 of a document of
    the call. *)
Definition family_of (l0_size l0_overlap l1_size l1_overlap : Z)
           (separators : list pystr) (fuel : nat) (documents : list document)
           (b : list chunk) : Prop :=
  exists doc l0s l0 l0_idx split,
    In doc documents
    /\ create_chunks_from_text fuel (preprocess_text_for_chunking (doc_text doc))
                               l0_size l0_overlap separators = Ret l0s
    /\ In l0 l0s
    /\ create_chunks_from_text fuel (r_text l0) l1_size l1_overlap separators
       = Ret split
    /\ b = family doc l0_idx l0 split.

(** An L0 lies in its page. *)
Definition in_page (page : pystr) (l0 : chunk) : Prop :=
  0 <= char_start l0 < char_end l0 /\ char_end l0 <= len page.

(** The range of an L1 is a sub-range of the range of its L0. *)
Definition contained (l0 l1 : chunk) : Prop :=
  char_start l0 <= char_start l1 /\ char_end l1 <= char_end l0.

(** [l1] is a child of [l0]. *)
Definition child_of (l0 l1 : chunk) : Prop :=
  chunk_level l1 = L1 /\ parent_chunk_id l1 = Some (chunk_id l0).

(** A document and a chunk without the free-form metadata. *)
Definition erase_doc (d : document) : document :=
  mk_document (doc_id d) (doc_text d) [].

Definition erase (c : chunk) : chunk :=
  mk_chunk (text c) [] (source_document_id c) (parent_chunk_id c)
           (chunk_level c) (chunk_index c) (char_start c) (char_end c)
           (chunk_id c).

(** A page of the examples, with the header the ingestion prepends, and
    two documents that hold it and differ in their metadata only. *)
Definition example_page : pystr :=
  str "SOURCE FILE: a.pdf" ++ newline ++ newline
    ++ str "hello world. foo, bar baz".

Definition example_doc : document :=
  mk_document (str "d1") (Some example_page) [(str "page", VInt 1)].

Definition example_doc_later : document :=
  mk_document (str "d1") (Some example_page)
              [(str "page", VInt 1); (str "created_at", VStr (str "later"))].

(** A page of 1201 letters, without a blank or a punctuation mark. *)
Definition unbroken_page : pystr := repeat 97%N 1201.

Definition unbroken_doc : document :=
  mk_document (str "d2") (Some unbroken_page) [].

(** The separators of the production call. *)
Definition production_separators : list pystr :=
  [newline ++ newline; newline; str ". "; str ", "; str " "].

End HighlightSpec.

(* ================================================================= *)
(** * Lists: [sorted] and [list.sort] *)

Module PyList.

Section Sort.

Context {A K : Type}.
Variable key : A -> K.
Variable ltb : K -> K -> bool.

(** One step of a stable ascending sort: [x], which stood before every
    element of [l], goes in front of the first element that is not
    smaller than it.  Only [<] on the keys is used, as in CPython. *)
Fixpoint insert (x : A) (l : list A) : list A :=
  match l with
  | [] => [x]
  | y :: l' => if ltb (key y) (key x) then y :: insert x l' else x :: l
  end.

(** [sorted(l, key=key)] *)
Definition sorted (l : list A) : list A := fold_right insert [] l.

(** [sorted(l, key=key, reverse=True)]: CPython reverses the list, sorts
    it with the stable ascending sort and reverses the result. *)
Definition sorted_reverse (l : list A) : list A := rev (sorted (rev l)).

End Sort.

(** Vocabulary for the order of a sorted list. *)
Section Order.

Context {A K : Type}.
Variable key : A -> K.
Variable ltb : K -> K -> bool.

(** Two keys tie when neither is smaller. *)
Definition tie (k : K) (x : A) : bool :=
negb (ltb k (key x)) && negb (ltb (key x) k).

(** [descending l]: no element is smaller than a later one. *)
Definition descending (l : list A) : Prop :=
StronglySorted (fun a b => ltb (key a) (key b) = false) l.

Definition ascending (l : list A) : Prop :=
StronglySorted (fun a b => ltb (key b) (key a) = false) l.

End Order.

End PyList.

(** What the sort needs of [<] to give a sorted list: a strict weak
    order, as [<] is on numbers. *)
Class StrictWeakOrder {K : Type} (ltb : K -> K -> bool) : Prop := {
  ltb_irrefl : forall a, ltb a a = false;
  ltb_trans : forall a b c, ltb a b = true -> ltb b c = true -> ltb a c = true;
  ltb_negtrans :
    forall a b c, ltb a b = false -> ltb b c = false -> ltb a c = false
}.

(* ================================================================= *)
(** * Rank fusion: [ragnarok/rag.py] *)

Module Rag.

(** The arithmetic [reciprocal_rank_fusion] does on scores: the [int] 0
    the sum starts from, [+], the true division [1 / n] of two [int]s
    with [n] non-zero, and the [<] the sort compares with. *)
Class PyFloat (F : Type) : Type := {
  f_zero : F;
  f_add : F -> F -> F;
  f_inv : Z -> F;
  f_ltb : F -> F -> bool
}.

(** [KBSource], without its vector. *)
Record KBSource : Type := mk_source {
  source_text : pystr;
  source_metadata : Highlight.metadata
}.

(** [KBEntry]: one search hit. *)
Record KBEntry (F : Type) : Type := mk_entry {
  id : pystr;
  index : pystr;
  score : F;
  source : KBSource
}.

Arguments mk_entry {F} _ _ _ _.
Arguments id {F} _.
Arguments index {F} _.
Arguments score {F} _.
Arguments source {F} _.

(** [res.score = score] *)
Definition set_score {F} (res : KBEntry F) (s : F) : KBEntry F :=
  mk_entry (id res) (index res) s (source res).

(** A [dict] with [str] keys, in insertion order. *)
Definition dict (V : Type) := list (pystr * V).

Fixpoint dict_get {V} (d : dict V) (k : pystr) : option V :=
  match d with
  | [] => None
  | (k', v) :: more => if eqb_str k' k then Some v else dict_get more k
  end.

(** [d[k] = v]: an existing key keeps its place. *)
Fixpoint dict_set {V} (d : dict V) (k : pystr) (v : V) : dict V :=
  match d with
  | [] => [(k, v)]
  | (k', v') :: more =>
      if eqb_str k' k then (k', v) :: more else (k', v') :: dict_set more k v
  end.

(** [{doc_id: [cosine_rank, bm25_rank]}] *)
Definition rank_table := dict (option Z * option Z).

Inductive slot : Type := Cosine | Bm25.

(** [ranks[doc_id][slot] = r] on the [defaultdict]: a missing key is
    first inserted with [[None, None]]. *)
Definition set_rank (s : slot) (ranks : rank_table) (doc_id : pystr) (r : Z)
  : rank_table :=
  let '(c, b) := match dict_get ranks doc_id with
                 | Some cb => cb
                 | None => (None, None)
                 end in
  dict_set ranks doc_id (match s with Cosine => (Some r, b) | Bm25 => (c, Some r) end).

Section Fusion.

Context {F : Type} {arith : PyFloat F}.

(** [for rank, result in enumerate(results): ranks[result.id][slot] = rank + 1] *)
Fixpoint assign_ranks (s : slot) (rank : Z) (results : list (KBEntry F))
         (ranks : rank_table) : rank_table :=
  match results with
  | [] => ranks
  | result :: more =>
      assign_ranks s (rank + 1) more (set_rank s ranks (id result) (rank + 1))
  end.

(** [if rank is not None: score += 1 / (rank + c)] *)
Definition add_reciprocal (c : Z) (rank : option Z) (score : F) : outcome F :=
  match rank with
  | None => Ret score
  | Some r =>
      if r + c =? 0 then Raise ZeroDivisionError
      else Ret (f_add score (f_inv (r + c)))
  end.

(** The loop filling [rrf_scores]. *)
Fixpoint rrf_scores (c : Z) (ranks : rank_table) (scores : dict F)
  : outcome (dict F) :=
  match ranks with
  | [] => Ret scores
  | (doc_id, (cosine_rank, bm25_rank)) :: more =>
      s1 <- add_reciprocal c cosine_rank f_zero ;;
      s2 <- add_reciprocal c bm25_rank s1 ;;
      rrf_scores c more (dict_set scores doc_id s2)
  end.

(** [{r.id: r for r in results}] *)
Fixpoint by_id (results : list (KBEntry F)) (d : dict (KBEntry F))
  : dict (KBEntry F) :=
  match results with
  | [] => d
  | r :: more => by_id more (dict_set d (id r) r)
  end.

(** The final loop: look the hit up, overwrite its score, append it. *)
Fixpoint collect (results : dict (KBEntry F)) (reranked_docs : list (pystr * F))
         (out : list (KBEntry F)) : outcome (list (KBEntry F)) :=
  match reranked_docs with
  | [] => Ret out
  | (doc_id, s) :: more =>
      match dict_get results doc_id with
      | None => Raise KeyError
      | Some res => collect results more (out ++ [set_score res s])
      end
  end.

Definition reciprocal_rank_fusion (cosine_results bm25_results : list (KBEntry F))
           (c : Z) : outcome (list (KBEntry F)) :=
  let ranks := assign_ranks Cosine 0 cosine_results [] in
  let ranks := assign_ranks Bm25 0 bm25_results ranks in
  scores <- rrf_scores c ranks [] ;;
  let reranked_docs := PyList.sorted_reverse snd f_ltb scores in
  let results := by_id (cosine_results ++ bm25_results) [] in
  collect results reranked_docs [].

End Fusion.

(** Scores as exact rationals. *)
#[export] Instance rational : PyFloat Q := {
  f_zero := 0%Q;
  f_add := Qplus;
  f_inv := fun n => Qinv (inject_Z n);
  f_ltb := fun a b => negb (Qle_bool b a)
}.

(** The [float] of an [int] of moderate size. *)
Definition float_of_int (n : Z) : PrimFloat.float :=
  if n <? 0 then PrimFloat.opp (PrimFloat.of_uint63 (Uint63.of_Z (- n)))
  else PrimFloat.of_uint63 (Uint63.of_Z n).

(** Scores as IEEE 754 binary64 numbers, Python's [float]. *)
#[export] Instance binary64 : PyFloat PrimFloat.float := {
  f_zero := PrimFloat.of_uint63 0%uint63;
  f_add := PrimFloat.add;
  f_inv := fun n => PrimFloat.div (PrimFloat.of_uint63 1%uint63) (float_of_int n);
  f_ltb := PrimFloat.ltb
}.

End Rag.

(** ** What the fusion is to compute *)

Module RagSpec.

Import Rag.

Definition keys {V} (d : dict V) : list pystr := map fst d.

(** The keys after [d[k] = ...]: a new key goes last. *)
Definition add_key (ks : list pystr) (k : pystr) : list pystr :=
  if existsb (eqb_str k) ks then ks else ks ++ [k].

(** The distinct elements of [l], in the order of their first occurrence. *)
Definition first_seen (l : list pystr) : list pystr := fold_left add_key l [].

Section Fused.

Context {F : Type} {arith : PyFloat F}.

(** The rank [assign_ranks] leaves for an ID: the position, counted
  from [n + 1], of its occurrence in the list (of the last one, should
  the ID occur more than once). *)
Fixpoint rank_from (n : Z) (l : list (KBEntry F)) (i : pystr) : option Z :=
match l with
| [] => None
| e :: more =>
    match rank_from (n + 1) more i with
    | Some r => Some r
    | None => if eqb_str (id e) i then Some (n + 1) else None
    end
end.

(** The rank of an ID within a list, counted from 1. *)
Definition rank_in (l : list (KBEntry F)) (i : pystr) : option Z :=
rank_from 0 l i.

(** One list's contribution to the sum. *)
Definition reciprocal (c : Z) (rank : option Z) (acc : F) : F :=
match rank with
| Some r => f_add acc (f_inv (r + c))
| None => acc
end.

(** The sum of [1 / (rank + c)] over the lists the ID appears in. *)
Definition fused_score (c : Z) (cosine bm25 : list (KBEntry F)) (i : pystr) : F :=
reciprocal c (rank_in bm25 i) (reciprocal c (rank_in cosine i) f_zero).

(** The hit a dictionary comprehension keeps for an ID: the last. *)
Fixpoint last_hit (l : list (KBEntry F)) (i : pystr) : option (KBEntry F) :=
match l with
| [] => None
| h :: more =>
    match last_hit more i with
    | Some x => Some x
    | None => if eqb_str (id h) i then Some h else None
    end
end.

(** The hit the last loop appends for a pair of ID and score: the last
    hit of that ID, with the score of the pair. *)
Definition fused_from (l : list (KBEntry F)) (p : pystr * F) (e : KBEntry F) : Prop :=
  exists h, last_hit l (fst p) = Some h /\ e = set_score h (snd p).

(** The pairs of ID and score of a list of hits. *)
Definition ranking (l : list (KBEntry F)) : list (pystr * F) :=
map (fun e => (id e, score e)) l.

(** The rows to be sorted: the distinct IDs in the order they were first
    seen, each with its fused score. *)
Definition fused_rows (c : Z) (cosine bm25 : list (KBEntry F)) : list (pystr * F) :=
  map (fun i => (i, fused_score c cosine bm25 i))
      (first_seen (map id (cosine ++ bm25))).

(** A hit of the examples: only its ID and the score it carries matter. *)
Definition hit (i : string) (s : F) : KBEntry F :=
  mk_entry (str i) (str "kb") s (mk_source (str i) []).

(** The cosine-ranked list A, B, C and the BM25-ranked list B, A, D. *)
Definition cosine_ABC (sa sb sc : F) : list (KBEntry F) :=
  [hit "A" sa; hit "B" sb; hit "C" sc].

Definition bm25_BAD (sb sa sd : F) : list (KBEntry F) :=
  [hit "B" sb; hit "A" sa; hit "D" sd].

End Fused.

Definition put (s : slot) (r : Z) (cb : option Z * option Z)
  : option Z * option Z :=
  match s with Cosine => (Some r, snd cb) | Bm25 => (fst cb, Some r) end.

Definition or_empty (v : option (option Z * option Z)) : option Z * option Z :=
  match v with Some cb => cb | None => (None, None) end.

End RagSpec.

(* ================================================================= *)
(** * Query rewriting: [ragnarok/utils/query_rewrite.py] *)

Module QueryRewrite.

Import Highlight.

(** One chat message: the keys [role] and [content]. *)
Record message : Type := mk_message {
  role : pystr;
  content : pystr
}.

Inductive ModelProvider : Type := Cohere | JinaAI | OpenAI | Triton | vLLM.

Record GenerativeModelSettings : Type := mk_settings {
  provider : ModelProvider;
  name : pystr;
  base_url : option pystr
}.

(** [GenerativeModelSettings()] *)
Definition default_settings : GenerativeModelSettings :=
  mk_settings OpenAI (str "gpt-4o") None.

(** [df.LANG] *)
Definition LANG : pystr := str "cs-CZ".

(** [LANG_CODE_TO_NAME.get(lang)] *)
Definition lang_code_to_name (lang : pystr) : option pystr :=
  if eqb_str lang (str "cs") then Some (str "Czech")
  else if eqb_str lang (str "cs-CZ") then Some (str "Czech")
  else if eqb_str lang (str "en") then Some (str "English")
  else if eqb_str lang (str "en-US") then Some (str "English")
  else None.

(** [PROMPT_REWRITE.format(language=...)] *)
Definition PROMPT_REWRITE (language : pystr) : pystr :=
  str "You will receive a conversation history and the user's latest question."
  ++ newline
  ++ str "Rewrite ONLY the latest question into a single standalone query that is fully self-contained, "
  ++ str "resolving pronouns, ellipsis, and references using the conversation. "
  ++ str "Output ONLY the rewritten query text, nothing else. "
  ++ str "Write the query in " ++ language ++ str ".".

Definition build_prompt_rewrite (lang : pystr) : pystr :=
  PROMPT_REWRITE (match lang_code_to_name lang with
                  | Some n => n
                  | None => str "Czech"
                  end).

Definition build_messages (system_prompt query : pystr) (history : list message)
  : list message :=
  [mk_message (str "system") system_prompt] ++ history
    ++ [mk_message (str "user") query].

(** The model instance [LLMFactory.get_model] builds. *)
Record llm : Type := mk_llm {
  llm_provider : ModelProvider;
  model_name : pystr;
  llm_base_url : option pystr
}.

(** [LLMFactory.get_model]: only two providers have a generative class;
    the base URL is passed on for vLLM only.  Building the client is
    taken to succeed; a failure of the service shows in the call. *)
Definition get_model (p : ModelProvider) (n : pystr) (u : option pystr)
  : outcome llm :=
  match p with
  | OpenAI => Ret (mk_llm OpenAI n None)
  | vLLM => Ret (mk_llm vLLM n u)
  | _ => Raise InvalidModelProvider
  end.

(** One call of the generation capability, as the outside sees it. *)
Record completion_call : Type := mk_call {
  call_model : llm;
  call_messages : list message;
  call_temperature : Q
}.

Section Rewrite.

(** The generation capability: the text a call answers with, or [None]
    when the call raises. *)
Variable chat_completion : completion_call -> option pystr.

(** [rewrite_query], threading the list of calls made so far to the
    generation capability. *)
Definition rewrite_query (query : pystr) (history_messages : list message)
           (lang : pystr) (settings : option GenerativeModelSettings)
           (calls : list completion_call) : pystr * list completion_call :=
  match history_messages with
  | [] => (query, calls)
  | _ :: _ =>
      let settings := match settings with
                      | Some s => s
                      | None => default_settings
                      end in
      let system_prompt := build_prompt_rewrite lang in
      let messages := build_messages system_prompt query history_messages in
      match get_model (provider settings) (name settings) (base_url settings) with
      | Ret model =>
          let call := mk_call model messages 0 in
          match chat_completion call with
          | Some rewritten_query => (rewritten_query, calls ++ [call])
          | None => (query, calls ++ [call])
          end
      | _ => (query, calls)
      end
  end.

End Rewrite.

End QueryRewrite.

(* ================================================================= *)
(** * The vector store: [ragnarok/vector_db.py] *)

Module VectorDb.

(** [ES_INDEX_REPLACE_CHARS], by code point: the space, the double
    quote and the characters # * + , . / : < > ? \ _ | *)
Definition ES_INDEX_REPLACE_CHARS : pystr :=
  [32; 34; 35; 42; 43; 44; 46; 47; 58; 60; 62; 63; 92; 95; 124]%N.

Definition hyphen : char := 45%N.

(** [ES_INDEX_TRANSLATOR] applied to one character. *)
Definition translate_char (c : char) : char :=
  if existsb (N.eqb c) ES_INDEX_REPLACE_CHARS then hyphen else c.

(** [str.translate(ES_INDEX_TRANSLATOR)] *)
Definition translate (s : pystr) : pystr := map translate_char s.

(** [str.lower()] on the letters of ASCII and Latin-1; other code points
    are left as they are. *)
Definition lower_char (c : char) : char :=
  if ((65 <=? c) && (c <=? 90)
      || (192 <=? c) && (c <=? 222) && negb (c =? 215))%N
  then (c + 32)%N else c.

Definition lower (s : pystr) : pystr := map lower_char s.

Definition _normalize_model_name (model_name : pystr) : pystr :=
  if eqb_str model_name (str "text-embedding-3-large")
  then str "openai-3-large"
  else lower (translate model_name).

(** The two configured base names a [VectorStore] holds. *)
Record VectorStore : Type := mk_store {
  index_name : pystr;
  index_name_highlights : pystr
}.

Definition get_index_name (self : VectorStore) (model_name : pystr) : pystr :=
  index_name self ++ str "_" ++ _normalize_model_name model_name.

Definition get_index_name_highlights (self : VectorStore) (model_name : pystr)
  : pystr :=
  index_name_highlights self ++ str "_" ++ _normalize_model_name model_name.

(** ** The two searches *)

(** A filter clause of a search request. *)
#[warnings="-register-all"]
Inductive clause : Type :=
| Term (field value : pystr)
| BoolShould (should : list clause)
| Custom (body : pystr).

Record EmbeddingModelSettings : Type := mk_emb_settings {
  emb_name : pystr;
  emb_base_url : option pystr
}.

Record RetrievalSettings : Type := mk_retrieval {
  model : EmbeddingModelSettings;
  k_bm25 : Z;
  k_emb : Z;
  num_candidates : Z
}.

(** [RetrievalSettings()] *)
Definition default_retrieval : RetrievalSettings :=
  mk_retrieval (mk_emb_settings (str "text-embedding-3-large") None) 5 5 100.

(** The body of a search: approximate KNN on [vector], or a lexical match
    on [text]. *)
Inductive search_body (V : Type) : Type :=
| Knn (query_vector : V) (k num_cand : Z)
| Match (query : pystr).

Arguments Knn {V} _ _ _.
Arguments Match {V} _.

Record search_request (V : Type) : Type := mk_request {
  req_index : pystr;
  req_body : search_body V;
  req_filter : list clause;
  req_size : Z
}.

Arguments mk_request {V} _ _ _ _.

(** What the code reads of a response: [hits.total.value] and [hits.hits]. *)
Record search_response (H : Type) : Type := mk_response {
  total_value : Z;
  hits : list H
}.

Arguments mk_response {H} _ _.
Arguments total_value {H} _.
Arguments hits {H} _.

(** The filter both searches build. *)
Definition build_filter (project_id : pystr) (kb_ids : option (list pystr))
           (ftr_custom : option (list clause)) : list clause :=
  let ftr := [Term (str "metadata.project_id") project_id] in
  let ftr := match kb_ids with
             | Some (_ :: _ as ids) =>
                 ftr ++ [BoolShould (map (Term (str "metadata.kb_id")) ids)]
             | _ => ftr
             end in
  match ftr_custom with
  | Some (_ :: _ as custom) => ftr ++ custom
  | _ => ftr
  end.

Section Search.

(** Vectors, raw hits and validated hits. *)
Variables V H E : Type.

(** The collaborators: the embedding capability, the search engine and
    [KBEntry.model_validate]. *)
Variable embed_query : EmbeddingModelSettings -> pystr -> outcome V.
Variable es_search : search_request V -> outcome (search_response H).
Variable model_validate : H -> outcome E.

(** [[me.KBEntry.model_validate(x) for x in hits]] *)
Fixpoint validate_all (l : list H) : outcome (list E) :=
  match l with
  | [] => Ret []
  | x :: more =>
      e <- model_validate x ;;
      es <- validate_all more ;;
      Ret (e :: es)
  end.

Variable self : VectorStore.

Definition knn_search (query project_id : pystr) (kb_ids : option (list pystr))
           (settings : option RetrievalSettings)
           (ftr_custom : option (list clause)) : outcome (list E) :=
  let settings := match settings with Some s => s | None => default_retrieval end in
  let ftr := build_filter project_id kb_ids ftr_custom in
  v <- embed_query (model settings) query ;;
  res <- es_search (mk_request (get_index_name self (emb_name (model settings)))
                               (Knn v (k_emb settings) (num_candidates settings))
                               ftr (k_emb settings)) ;;
  if total_value res =? 0 then Raise (DBRecordNotFound kb_ids)
  else validate_all (hits res).

Definition bm25_search (query project_id : pystr) (kb_ids : option (list pystr))
           (settings : option RetrievalSettings)
           (ftr_custom : option (list clause)) : outcome (list E) :=
  let settings := match settings with Some s => s | None => default_retrieval end in
  let ftr := build_filter project_id kb_ids ftr_custom in
  res <- es_search (mk_request (get_index_name self (emb_name (model settings)))
                               (Match query) ftr (k_bm25 settings)) ;;
  validate_all (hits res).

End Search.

(** ** Selection of the L1 children in [fetch_highlight_spans] *)

(** A span dictionary as [_score_l1_for_parent] builds it.  Scores come
    from the search engine and are only compared, never computed with:
    they are rationals here, and [None] when the engine gave none. *)
Record span : Type := mk_span {
  span_start : option Z;
  span_end : option Z;
  span_text : option pystr;
  span_score : option Q;
  span_chunk_index : option Z
}.

(** [x["score"] or 0.0] *)
Definition score_or_zero (x : span) : Q :=
  match span_score x with
  | Some s => if Qeq_bool s 0 then 0%Q else s
  | None => 0%Q
  end.

Definition Qltb (a b : Q) : bool := negb (Qle_bool b a).

(** The noise floor. *)
Definition FLOOR : Q := 5 # 100.

(** Lines 947 to 955 of the source: sort by score, keep the top half,
    apply the floor. *)
Definition select_l1_top (l1_all : list span) : list span :=
  let l1_all := PyList.sorted_reverse score_or_zero Qltb l1_all in
  match l1_all with
  | [] => []
  | _ :: _ =>
      let half := Z.max 1 (list_len l1_all / 2) in
      let l1_top := firstn (Z.to_nat half) l1_all in
      filter (fun x => Qle_bool FLOOR (score_or_zero x)) l1_top
  end.

End VectorDb.

(** ** Vocabulary for the claims on the vector store *)

Module VectorDbSpec.

Import VectorDb.

(** The normalisation the specification words describe: every character
    that is not alphanumeric becomes the separator, and the result is
    lower-cased. *)
Definition is_alnum (c : char) : bool :=
  ((48 <=? c) && (c <=? 57) || (65 <=? c) && (c <=? 90)
   || (97 <=? c) && (c <=? 122))%N.

Definition fold_non_alnum (sep : char) (model_name : pystr) : pystr :=
  lower (map (fun c => if is_alnum c then c else sep) model_name).

(** The configured names of the development deployment. *)
Definition develop_store : VectorStore :=
  mk_store (str "ragnarok-develop-kb") (str "ragnarok-develop-highlight-chunks").

(** A response with no hit. *)
Definition zero_hits {H} (res : search_response H) : Prop :=
  total_value res = 0 /\ hits res = [].

(** The request each search sends. *)
Definition knn_request {V} (self : VectorStore) (v : V) (project_id : pystr)
           (kb_ids : option (list pystr)) (s : RetrievalSettings)
           (ftr_custom : option (list clause)) : search_request V :=
  mk_request (get_index_name self (emb_name (model s)))
             (Knn v (k_emb s) (num_candidates s))
             (build_filter project_id kb_ids ftr_custom) (k_emb s).

Definition bm25_request {V} (self : VectorStore) (query project_id : pystr)
           (kb_ids : option (list pystr)) (s : RetrievalSettings)
           (ftr_custom : option (list clause)) : search_request V :=
  mk_request (get_index_name self (emb_name (model s)))
             (Match query)
             (build_filter project_id kb_ids ftr_custom) (k_bm25 s).

(** An engine that holds nothing. *)
Definition empty_engine (r : search_request nat) : outcome (search_response nat) :=
  Ret (mk_response 0 []).

(** A span that carries only a score. *)
Definition scored (s : Q) : span := mk_span None None None (Some s) None.

End VectorDbSpec.


From Stdlib Require DecimalPos DecimalZ.

(* ================================================================= *)
(** * More vocabulary for the chunker: order, sizes, places, letters *)

Module HighlightOrder.

Import Highlight.

(** The chunks follow one another: each starts at or after [cur], the
    place the search started from, carries an index that is at least [i],
    and the search for the next one starts [overlap] characters before
    its end (and never before the start of the text). *)
Fixpoint chain (overlap : Z) (cur i : Z) (rs : list raw_chunk) : Prop :=
  match rs with
  | [] => True
  | r :: more =>
      cur <= r_char_start r
      /\ (exists k, r_chunk_index r = Some k /\ i <= k
                    /\ chain overlap (Z.max 0 (r_char_end r - overlap)) (k + 1) more)
  end.

(** A chunk of a split fits: it is not blank and no longer than the
    chunk size. *)
Definition fits (chunk_size : Z) (c : pystr) : Prop :=
  strip c <> [] /\ len c <= chunk_size.

(** The size that bounds a chunk of a level. *)
Definition size_of (l0_size l1_size : Z) (l : level) : Z :=
  match l with L0 => l0_size | L1 => l1_size end.

(** A chunk of the output stands in the preprocessed text of its
    document, between its offsets. *)
Definition stands_in (documents : list document) (c : chunk) : Prop :=
  exists doc p,
    In doc documents
    /\ source_document_id c = doc_id doc
    /\ char_start c = Z.of_nat p
    /\ char_end c = Z.of_nat p + len (text c)
    /\ HighlightSpec.occurs (preprocess_text_for_chunking (doc_text doc)) (text c) p.

(** The characters of a string that are not white space, in their
    order. *)
Definition letters (s : pystr) : pystr :=
  filter (fun c => negb (is_space c)) s.

(** The same for a list of strings, one after the other. *)
Definition letters_of (chunks : list pystr) : pystr :=
  List.concat (map letters chunks).

(** The chunk is of the level. *)
Definition is_level (l : level) (c : chunk) : bool :=
  match l, chunk_level c with
  | L0, L0 | L1, L1 => true
  | _, _ => false
  end.

(** The texts of the chunks of one level. *)
Definition texts_of_level (l : level) (out : list chunk) : list pystr :=
  map text (filter (is_level l) out).

End HighlightOrder.

(* ================================================================= *)
(** * Batches: [generate_chunk_batches] and [common/utils/misc.py] *)

Module Batches.

(** [MAX_TOKENS_PER_REQ] and [MAX_ITEMS_PER_REQ] *)
Definition MAX_TOKENS_PER_REQ : Z := 240000.
Definition MAX_ITEMS_PER_REQ : Z := 512.

(** [_estimate_tokens]: a quarter of the stripped length, at least 1,
    and 0 for the empty string. *)
Definition _estimate_tokens (s : pystr) : Z :=
  if truthy s then Z.max 1 (len (strip s) / 4) else 0.

Section ChunkBatches.

(** The chunks are dictionaries; [get_text] is [c.get("text")]. *)
Variable A : Type.
Variable get_text : A -> option pystr.

(** [c.get("text") or ""] *)
Definition text_or_empty (c : A) : pystr :=
  match get_text c with
  | Some s => s
  | None => []
  end.

(** The loop of [generate_chunk_batches]; [yielded] holds the batches
    given out so far. *)
Fixpoint batch_loop (max_tokens_per_req max_items_per_req : Z)
         (chunks : list A) (batch : list A) (token_sum : Z)
         (yielded : list (list A)) : list (list A) :=
  match chunks with
  | [] =>
      match batch with
      | [] => yielded
      | _ :: _ => yielded ++ [batch]
      end
  | c :: more =>
      let tok := _estimate_tokens (text_or_empty c) in
      let flush :=
        match batch with
        | [] => false
        | _ :: _ => (max_tokens_per_req <? token_sum + tok)
                    || (max_items_per_req <=? list_len batch)
        end in
      let yielded := if flush then yielded ++ [batch] else yielded in
      let batch := if flush then [] else batch in
      let token_sum := if flush then 0 else token_sum in
      batch_loop max_tokens_per_req max_items_per_req more
                 (batch ++ [c]) (token_sum + tok) yielded
  end.

(** [generate_chunk_batches]: the batches in the order they are yielded. *)
Definition generate_chunk_batches (chunks : list A)
           (max_tokens_per_req max_items_per_req : Z) : list (list A) :=
  batch_loop max_tokens_per_req max_items_per_req chunks [] 0 [].

(** The estimated tokens of a batch. *)
Definition batch_tokens (batch : list A) : Z :=
  fold_right (fun c acc => _estimate_tokens (text_or_empty c) + acc) 0 batch.

(** A batch was closed before [c] because [c] did not fit. *)
Definition forced (max_tokens_per_req max_items_per_req : Z)
           (batch : list A) (c : A) : Prop :=
  max_tokens_per_req < batch_tokens batch + _estimate_tokens (text_or_empty c)
  \/ max_items_per_req <= list_len batch.

(** Every batch but the first starts with a chunk that did not fit the
    batch before it. *)
Fixpoint forced_cuts (max_tokens_per_req max_items_per_req : Z)
         (batches : list (list A)) : Prop :=
  match batches with
  | b1 :: ((b2 :: _) as more) =>
      (exists c rest, b2 = c :: rest
                      /\ forced max_tokens_per_req max_items_per_req b1 c)
      /\ forced_cuts max_tokens_per_req max_items_per_req more
  | _ => True
  end.

End ChunkBatches.

(** [l[a:b]] for a list. *)
Definition list_slice {A} (l : list A) (a b : Z) : list A :=
  let a' := adjust a (list_len l) in
  let b' := adjust b (list_len l) in
  firstn (Z.to_nat (b' - a')) (skipn (Z.to_nat a') l).

(** [range(0, ln, n)] for a step that is not 0 and [ln] that is not
    negative: a negative step gives no index. *)
Definition range_from_zero (ln n : Z) : list Z :=
  if 0 <? n then map (fun i => Z.of_nat i * n) (seq 0 (Z.to_nat ((ln + n - 1) / n)))
  else [].

(** [generate_batches(iterable, n)]: a step of 0 is refused by [range]. *)
Definition generate_batches {A} (iterable : list A) (n : Z)
  : outcome (list (list A)) :=
  let ln := list_len iterable in
  if n =? 0 then Raise ValueError
  else Ret (map (fun ndx => list_slice iterable ndx (Z.min (ndx + n) ln))
                (range_from_zero ln n)).

End Batches.

(* ================================================================= *)
(** * The page header: [upload_file] and [_build_highlight_group_for_hit] *)

Module Header.

Import Highlight.

(** [f"SOURCE FILE: {source_file}\n\n"] *)
Definition source_header (source_file : pystr) : pystr :=
  str "SOURCE FILE: " ++ source_file ++ newline ++ newline.

(** The page content [upload_file] stores: the header, then the text of
    the page. *)
Definition with_source_header (source_file page_content : pystr) : pystr :=
  source_header source_file ++ page_content.

(** A span dictionary as [fetch_highlight_spans] returns it. *)
Record span_dict : Type := mk_span_dict {
  sd_kb_id : option pystr;
  sd_source_file : option pystr;
  sd_page : option Z;
  sd_start : option Z;
  sd_end : option Z;
  sd_text : option pystr;
  sd_score : option Q;
  sd_chunk_index : option Z;
  sd_chunk_level : option pystr
}.

(** [RAGHighlightSpan] *)
Record RAGHighlightSpan : Type := mk_hl_span {
  hl_kb_id : pystr;
  hl_source_file : pystr;
  hl_page : Z;
  hl_start : Z;
  hl_end : Z;
  hl_text : pystr;
  hl_score : option Q;
  hl_chunk_index : option Z;
  hl_chunk_level : option pystr
}.

(** [RAGHighlightGroup] *)
Record RAGHighlightGroup : Type := mk_group {
  l0_chunk : option RAGHighlightSpan;
  l1_chunks : list RAGHighlightSpan
}.

(** [x or 0] for an optional [int]. *)
Definition or_zero (x : option Z) : Z :=
  match x with Some z => z | None => 0 end.

(** The construction of one [RAGHighlightSpan] from a span moved by
    [header_len]; the required fields must be there. *)
Definition to_highlight_span (header_len : Z) (s : span_dict)
  : outcome RAGHighlightSpan :=
  match sd_kb_id s, sd_source_file s, sd_page s, sd_text s with
  | Some kb, Some file, Some page, Some text =>
      Ret (mk_hl_span kb file page
                      (or_zero (sd_start s) + header_len)
                      (or_zero (sd_end s) + header_len)
                      text (sd_score s) (sd_chunk_index s) (sd_chunk_level s))
  | _, _, _, _ => Raise ValidationError
  end.

(** [x.score or 0.0] *)
Definition hl_score_or_zero (x : RAGHighlightSpan) : Q :=
  match hl_score x with
  | Some s => if Qeq_bool s 0 then 0%Q else s
  | None => 0%Q
  end.

(** The loop over the spans: the first L0 is kept, every L1 is
    collected. *)
Fixpoint group_spans (header_len : Z) (spans : list span_dict)
         (l0_obj : option RAGHighlightSpan) (l1_list : list RAGHighlightSpan)
  : outcome (option RAGHighlightSpan * list RAGHighlightSpan) :=
  match spans with
  | [] => Ret (l0_obj, l1_list)
  | s :: more =>
      span <- to_highlight_span header_len s ;;
      let is_level (l : pystr) :=
        match hl_chunk_level span with
        | Some l' => eqb_str l' l
        | None => false
        end in
      if is_level (str "L0") && match l0_obj with None => true | Some _ => false end
      then group_spans header_len more (Some span) l1_list
      else if is_level (str "L1")
           then group_spans header_len more l0_obj (l1_list ++ [span])
           else group_spans header_len more l0_obj l1_list
  end.

(** The [try] around the call of the locator: whatever it raises is
    logged, and leaves [spans = None]. *)
Definition try_fetch (fetched : outcome (list span_dict))
  : outcome (option (list span_dict)) :=
  match fetched with
  | Ret spans => Ret (Some spans)
  | Raise _ => Ret None
  | Diverge => Diverge
  end.

(** [_build_highlight_group_for_hit], from the outcome of the call of
    [fetch_highlight_spans] and the source file of the hit. *)
Definition _build_highlight_group_for_hit (fetched : outcome (list span_dict))
           (source_file : pystr) : outcome RAGHighlightGroup :=
  spans <- try_fetch fetched ;;
  let header_len := len (source_header source_file) in
  r <- group_spans header_len (match spans with Some l => l | None => [] end)
                   None [] ;;
  Ret (mk_group (fst r)
                (PyList.sorted_reverse hl_score_or_zero VectorDb.Qltb (snd r))).

(** No line of [body] would be taken for a header by
    [preprocess_text_for_chunking]. *)
Definition no_header_line (body : pystr) : Prop :=
  Forall (fun ln => startswith (str "SOURCE FILE:") (strip ln) = false)
         (split_nonempty newline body).

(** A span dictionary read from the stored chunk [c]. *)
Definition span_of_chunk (c : chunk) (s : span_dict) : Prop :=
  sd_start s = Some (char_start c)
  /\ sd_end s = Some (char_end c)
  /\ sd_text s = Some (text c).

(** The spans of the second L0 of the page of the examples and of its
    L1, as the locator gives them, and the L0 of the answer. *)
Definition example_spans : list span_dict :=
  [ mk_span_dict (Some (str "kb")) (Some (str "a.pdf")) (Some 1)
                 (Some 6) (Some 12) (Some (str "world."))
                 (Some (8 # 10)) (Some 1) (Some (str "L0"));
    mk_span_dict (Some (str "kb")) (Some (str "a.pdf")) (Some 1)
                 (Some 6) (Some 12) (Some (str "world."))
                 (Some (5 # 10)) (Some 0) (Some (str "L1")) ].

Definition example_highlight : RAGHighlightSpan :=
  mk_hl_span (str "kb") (str "a.pdf") 1 26 32 (str "world.")
             (Some (8 # 10)) (Some 1) (Some (str "L0")).

End Header.

(* ================================================================= *)
(** * The conversation: [process_context] *)

Module Context.

Import QueryRewrite.

(** [ConversationTurn] *)
Record ConversationTurn : Type := mk_turn {
  user_query : pystr;
  system_response : pystr;
  created_at : Z
}.

(** [for turn in context], with the messages collected so far. *)
Fixpoint collect_messages (context : list ConversationTurn)
         (msgs : list message) : list message :=
  match context with
  | [] => msgs
  | turn :: more =>
      let uq := strip (user_query turn) in
      let msgs := if truthy uq then msgs ++ [mk_message (str "user") uq]
                  else msgs in
      let sr := strip (system_response turn) in
      let msgs := if truthy sr then msgs ++ [mk_message (str "assistant") sr]
                  else msgs in
      collect_messages more msgs
  end.

(** [process_context] *)
Definition process_context (context : list ConversationTurn) : list message :=
  collect_messages context [].

(** A turn without text: both sides are blank. *)
Definition blank_turn (turn : ConversationTurn) : Prop :=
  strip (user_query turn) = [] /\ strip (system_response turn) = [].

Section QueryRewriteStep.

Variable chat_completion : completion_call -> option pystr.

(** The first step of [rag]: the history is read from the context, and
    the query is rewritten for the searches. *)
Definition rag_rewritten_query (query : pystr)
           (context : option (list ConversationTurn)) (lang : pystr)
           (settings : option GenerativeModelSettings)
           (calls : list completion_call) : pystr * list completion_call :=
  let history_messages :=
    process_context (match context with Some c => c | None => [] end) in
  rewrite_query chat_completion query history_messages lang settings calls.

End QueryRewriteStep.

End Context.

(* ================================================================= *)
(** * An engine for the examples of the searches *)

Module SearchExamples.

Import VectorDb.

(** An engine that answers every request with the hits 7 and 5. *)
Definition two_hit_engine (r : search_request nat)
  : outcome (search_response nat) :=
  Ret (mk_response 2 [7%nat; 5%nat]).

End SearchExamples.

(* ================================================================= *)
(** * Uploading with retries: [VectorStore._embed_and_store] *)

Module Store.

Import Highlight Rag.

Definition MAX_RETRIES : Z := 3.
Definition RETRY_DELAY : Z := 10.

(** A LangChain [Document]. *)
Record Document : Type := mk_doc {
  page_content : pystr;
  doc_meta : metadata
}.

(** What the call does to the outside, in the order it does it. *)
Inductive event : Type :=
| Sleep (seconds : Z)
| Prepare
| Count (bid : pystr)
| Delete (bid : pystr)
| Upload (bid : pystr) (docs : list Document) (ok : bool)
| Refresh.

(** [doc.metadata["batch_id"] = batch_id; doc.metadata["retries"] = retries] *)
Definition tag (batch_id : pystr) (retries : Z) (doc : Document) : Document :=
  mk_doc (page_content doc)
         (dict_set (dict_set (doc_meta doc) (str "batch_id") (VStr batch_id))
                   (str "retries") (VInt retries)).

Section EmbedAndStore.

(** The state of the outside: the search engine, the embedding service,
    the clock. *)
Variable W : Type.

(** The collaborators.  Each one changes the state and either returns or
    raises. *)
Variable prepare_embedding_model : W -> W * option exn.
Variable count : pystr -> W -> W * (Z + exn).
Variable delete_by_query : pystr -> W -> W * option exn.
Variable from_documents : list Document -> W -> W * option exn.
Variable refresh : W -> W * option exn.
Variable sleep : Z -> W -> W.

(** The outcome of a part of the call, with the state it leaves and the
    events so far. *)
Inductive step (A : Type) : Type :=
| Ok (a : A) (w : W) (trace : list event)
| Err (e : exn) (w : W) (trace : list event).

Arguments Ok {A} a w trace.
Arguments Err {A} e w trace.

(** The checks of a retry for one batch: [true] when the batch is found
    in the index and skipped; otherwise what is there of it is
    deleted. *)
Definition recheck (batch_id : pystr) (doc_batch : list Document) (w : W)
           (trace : list event) : step bool :=
  match count batch_id w with
  | (w1, inr e) => Err e w1 (trace ++ [Count batch_id])
  | (w1, inl n) =>
      if n =? list_len doc_batch then Ok true w1 (trace ++ [Count batch_id])
      else
        match delete_by_query batch_id w1 with
        | (w2, Some e) => Err e w2 (trace ++ [Count batch_id; Delete batch_id])
        | (w2, None) => Ok false w2 (trace ++ [Count batch_id; Delete batch_id])
        end
  end.

(** The tagging and the guarded upload of one batch; a failed batch goes
    to [failed_batches]. *)
Definition attempt (retries : Z) (batch_id : pystr) (doc_batch : list Document)
           (failed_batches : dict (list Document)) (w : W) (trace : list event)
  : dict (list Document) * W * list event :=
  let docs := map (tag batch_id retries) doc_batch in
  match from_documents docs w with
  | (w1, None) => (failed_batches, w1, trace ++ [Upload batch_id docs true])
  | (w1, Some _) =>
      (dict_set failed_batches batch_id docs, w1,
       trace ++ [Upload batch_id docs false])
  end.

(** [for batch_id, doc_batch in batches.items()] *)
Fixpoint upload_batches (retries : Z) (batches : dict (list Document))
         (failed_batches : dict (list Document)) (w : W) (trace : list event)
  : step (dict (list Document)) :=
  match batches with
  | [] => Ok failed_batches w trace
  | (batch_id, doc_batch) :: more =>
      if 0 <? retries then
        match recheck batch_id doc_batch w trace with
        | Err e w1 trace1 => Err e w1 trace1
        | Ok true w1 trace1 =>
            upload_batches retries more failed_batches w1 trace1
        | Ok false w1 trace1 =>
            let '(failed1, w2, trace2) :=
              attempt retries batch_id doc_batch failed_batches w1 trace1 in
            upload_batches retries more failed1 w2 trace2
        end
      else
        let '(failed1, w2, trace2) :=
          attempt retries batch_id doc_batch failed_batches w trace in
        upload_batches retries more failed1 w2 trace2
  end.

(** How a call ends; [Unfinished] stands for a recursion that has not
    come to its end within the rounds it was given. *)
Inductive run : Type :=
| Done (w : W) (trace : list event)
| Failed (e : exn) (w : W) (trace : list event)
| Unfinished.

(** The recursion of [_embed_and_store]; [rounds] bounds its depth. *)
Fixpoint embed_and_store_rounds (rounds : nat) (batches : dict (list Document))
         (retries : Z) (w : W) (trace : list event) : run :=
  match batches with
  | [] => Done w trace
  | _ :: _ =>
      if MAX_RETRIES <? retries then Done w trace
      else
        match rounds with
        | O => Unfinished
        | S rounds' =>
            let w0 := if 0 <? retries then sleep RETRY_DELAY w else w in
            let trace0 :=
              if 0 <? retries then trace ++ [Sleep RETRY_DELAY] else trace in
            match prepare_embedding_model w0 with
            | (w1, Some e) => Failed e w1 (trace0 ++ [Prepare])
            | (w1, None) =>
                match upload_batches retries batches [] w1 (trace0 ++ [Prepare]) with
                | Err e w2 trace2 => Failed e w2 trace2
                | Ok failed_batches w2 trace2 =>
                    match refresh w2 with
                    | (w3, Some e) => Failed e w3 (trace2 ++ [Refresh])
                    | (w3, None) =>
                        embed_and_store_rounds rounds' failed_batches
                                               (retries + 1) w3
                                               (trace2 ++ [Refresh])
                    end
                end
            end
        end
  end.

(** [_embed_and_store(batches, emb_settings, retries)]: the recursion
    passes the test on [retries] at most [MAX_RETRIES + 1 - retries]
    times. *)
Definition _embed_and_store (batches : dict (list Document)) (retries : Z)
           (w : W) : run :=
  embed_and_store_rounds (Z.to_nat (MAX_RETRIES + 1 - retries)) batches retries
                         w [].

(** The events of a call that came to an end. *)
Definition trace_of (r : run) : list event :=
  match r with
  | Done _ trace => trace
  | Failed _ _ trace => trace
  | Unfinished => []
  end.

End EmbedAndStore.

Arguments Ok {W A} a w trace.
Arguments Err {W A} e w trace.

Definition step_trace {W A} (s : step W A) : list event :=
  match s with
  | Ok _ _ trace => trace
  | Err _ _ trace => trace
  end.

Arguments Done {W} w trace.
Arguments Failed {W} e w trace.
Arguments Unfinished {W}.
Arguments trace_of {W} r.

(** The uploads of one batch among the events. *)
Definition is_upload (bid : pystr) (ev : event) : bool :=
  match ev with
  | Upload b _ _ => eqb_str b bid
  | _ => false
  end.

Definition uploads (bid : pystr) (trace : list event) : nat :=
  List.length (filter (is_upload bid) trace).

Definition is_sleep (ev : event) : bool :=
  match ev with Sleep _ => true | _ => false end.

(** The events that touch the batch: its count, its deletion, an upload
    of it. *)
Definition touches (bid : pystr) (ev : event) : bool :=
  match ev with
  | Count b | Delete b | Upload b _ _ => eqb_str b bid
  | _ => false
  end.

(** Once a batch is uploaded, it is left alone. *)
Definition settled (bid : pystr) (trace : list event) : Prop :=
  forall pre docs post,
    trace = pre ++ Upload bid docs true :: post ->
    Forall (fun ev => touches bid ev = false) post.

(** The batch was uploaded. *)
Definition succeeded (bid : pystr) (trace : list event) : Prop :=
  exists docs, In (Upload bid docs true) trace.

(** The events of one turn of the loop over the batches, for the batch
    [bid]: a count alone, or an upload, after a count and a deletion when
    the call is a retry. *)
Definition turn_events (bid : pystr) (evs : list event) : Prop :=
  evs = [Count bid]
  \/ evs = [Count bid; Delete bid]
  \/ exists docs ok, evs = [Upload bid docs ok]
                     \/ evs = [Count bid; Delete bid; Upload bid docs ok].

(** A stretch of events is in order for the batches [batches]: it
    touches only them, tries no batch more than [n] times, and leaves a
    batch alone once it is uploaded. *)
Definition in_order (batches : dict (list Document)) (n : nat)
           (new : list event) : Prop :=
  (forall ev bid, In ev new -> touches bid ev = true ->
                  In bid (RagSpec.keys batches))
  /\ (forall bid, (uploads bid new <= n)%nat)
  /\ (forall bid, settled bid new).

(** A toy outside for the examples: the state counts the uploads tried,
    the first [n] of which fail; nothing is ever found in the index. *)
Definition flaky_upload (n : nat) (docs : list Document) (w : nat)
  : nat * option exn :=
  (S w, if (w <? n)%nat then Some ValueError else None).

Definition example_batches : dict (list Document) :=
  [(str "b1", [mk_doc (str "page one") []; mk_doc (str "page two") []])].

Definition example_store (n : nat) : run nat :=
  _embed_and_store nat (fun w => (w, None)) (fun _ w => (w, inl 0))
                   (fun _ w => (w, None)) (flaky_upload n)
                   (fun w => (w, None)) (fun _ w => w)
                   example_batches 0 0%nat.

(** An outside whose uploads never go through. *)
Definition broken_upload (docs : list Document) (w : nat) : nat * option exn :=
  (S w, Some ValueError).

Definition broken_store : run nat :=
  _embed_and_store nat (fun w => (w, None)) (fun _ w => (w, inl 0))
                   (fun _ w => (w, None)) broken_upload
                   (fun w => (w, None)) (fun _ w => w)
                   example_batches 0 0%nat.

(** The number of batches that carry the identifier. *)
Definition batches_of (bid : pystr) (batches : dict (list Document)) : nat :=
  List.length (filter (fun b => eqb_str b bid) (RagSpec.keys batches)).

End Store.

(* ================================================================= *)
(** * The locator of the highlights: [VectorStore.fetch_highlight_spans] *)

Module Locator.

Import VectorDb Header.

(** [_source.metadata] of an L0 hit, as far as it is read. *)
Record hit_metadata : Type := mk_hit_md {
  md_kb_id : option pystr;
  md_source_file : option pystr;
  md_page : option Z;
  md_char_start : option Z;
  md_char_end : option Z;
  md_chunk_index : option Z
}.

(** A hit of [_score_l0]: [_id], [_score], and the keys [text] and
    [metadata] of [_source], which may be missing. *)
Record l0_hit : Type := mk_l0_hit {
  hit_id : pystr;
  hit_score : option Q;
  hit_text : option pystr;
  hit_md : option hit_metadata
}.

(** An element of [candidates].  The scores are rationals: the
    arithmetic on them is exact. *)
Record candidate : Type := mk_candidate {
  l0_id : pystr;
  l0_text : pystr;
  l0_md : hit_metadata;
  l0_score : Q;
  l1_top : list span_dict;
  l1_votes : Z;
  l1_avg : Q;
  combined : Q
}.

(** [x["score"] or 0.0] *)
Definition sd_score_or_zero (x : span_dict) : Q :=
  match sd_score x with
  | Some s => if Qeq_bool s 0 then 0%Q else s
  | None => 0%Q
  end.

(** The sorting of the children and the choice of the top half above
    the floor. *)
Definition top_half (l1_all : list span_dict) : list span_dict :=
  let l1_all := PyList.sorted_reverse sd_score_or_zero Qltb l1_all in
  match l1_all with
  | [] => []
  | _ :: _ =>
      let half := Z.max 1 (list_len l1_all / 2) in
      let l1_top := firstn (Z.to_nat half) l1_all in
      filter (fun x => Qle_bool FLOOR (sd_score_or_zero x)) l1_top
  end.

(** [sum(x["score"] or 0.0 for x in l1_top)] *)
Definition sum_scores (l1_top : list span_dict) : Q :=
  fold_left (fun acc x => (acc + sd_score_or_zero x)%Q) l1_top 0%Q.

Definition l0_score_of (h : l0_hit) : Q :=
  match hit_score h with
  | Some s => (s - 1)%Q
  | None => 0%Q
  end.

Definition combined_of (l0_score l1_avg : Q) (l1_votes : Z) : Q :=
  ((5 # 10) * l0_score + (3 # 10) * l1_avg
   + (2 # 10) * Qmin (inject_Z l1_votes / 5) 1)%Q.

(** The body of the loop over the L0 hits, after the children have been
    scored: a missing [text] or [metadata] raises [KeyError]. *)
Definition make_candidate (h : l0_hit) (l1_all : list span_dict)
  : outcome candidate :=
  let l1_top := top_half l1_all in
  let l1_votes := list_len l1_top in
  let l1_avg := if 0 <? l1_votes
                then (sum_scores l1_top / inject_Z l1_votes)%Q else 0%Q in
  let l0_score := l0_score_of h in
  let combined := combined_of l0_score l1_avg l1_votes in
  match hit_text h, hit_md h with
  | Some text, Some md =>
      Ret (mk_candidate (hit_id h) text md l0_score l1_top l1_votes l1_avg
                        combined)
  | _, _ => Raise KeyError
  end.

(** The span of the winning L0: it carries the combined score. *)
Definition l0_span (best : candidate) : span_dict :=
  mk_span_dict (md_kb_id (l0_md best)) (md_source_file (l0_md best))
               (md_page (l0_md best)) (md_char_start (l0_md best))
               (md_char_end (l0_md best)) (Some (l0_text best))
               (Some (combined best)) (md_chunk_index (l0_md best))
               (Some (str "L0")).

Section Fetch.

(** The collaborators: the embedding of the query, [_score_l0] and
    [_score_l1_for_parent], each of which returns or raises. *)
Variable V : Type.
Variable embed_query : pystr -> outcome V.
Variable _score_l0 : pystr -> V -> outcome (list l0_hit).
Variable _score_l1_for_parent : pystr -> V -> outcome (list span_dict).

(** [for h in l0_hits] *)
Fixpoint score_candidates (query_vector : V) (l0_hits : list l0_hit)
         (candidates : list candidate) : outcome (list candidate) :=
  match l0_hits with
  | [] => Ret candidates
  | h :: more =>
      l1_all <- _score_l1_for_parent (hit_id h) query_vector ;;
      c <- make_candidate h l1_all ;;
      score_candidates query_vector more (candidates ++ [c])
  end.

Definition fetch_highlight_spans (query : pystr) : outcome (list span_dict) :=
  query_vector <- embed_query query ;;
  l0_hits <- _score_l0 query query_vector ;;
  candidates <- score_candidates query_vector l0_hits [] ;;
  match PyList.sorted_reverse combined Qltb candidates with
  | [] => Ret []
  | best :: _ => Ret (l0_span best :: l1_top best)
  end.

(** The candidate of a hit. *)
Definition candidate_of (query_vector : V) (h : l0_hit) (c : candidate) : Prop :=
  exists l1_all,
    _score_l1_for_parent (hit_id h) query_vector = Ret l1_all
    /\ make_candidate h l1_all = Ret c.

End Fetch.

(** The level of a span of the answer. *)
Definition has_level (l : pystr) (h : RAGHighlightSpan) : bool :=
  match hl_chunk_level h with
  | Some l' => eqb_str l' l
  | None => false
  end.

(** A span dictionary lacks a field that [RAGHighlightSpan] requires. *)
Definition lacks_required (s : span_dict) : Prop :=
  sd_kb_id s = None \/ sd_source_file s = None \/ sd_page s = None
  \/ sd_text s = None.

(** A page with two L0 chunks for the examples; the second one has the
    better children. *)
Definition example_hits : list l0_hit :=
  [ mk_l0_hit (str "p1") (Some (14 # 10)) (Some (str "hello"))
              (Some (mk_hit_md (Some (str "kb")) (Some (str "a.pdf")) (Some 1)
                               (Some 0) (Some 5) (Some 0)));
    mk_l0_hit (str "p2") (Some (14 # 10)) (Some (str "world."))
              (Some (mk_hit_md (Some (str "kb")) (Some (str "a.pdf")) (Some 1)
                               (Some 6) (Some 12) (Some 1))) ].

Definition example_children (parent_id : pystr) : list span_dict :=
  if eqb_str parent_id (str "p2")
  then [ mk_span_dict (Some (str "kb")) (Some (str "a.pdf")) (Some 1)
                      (Some 6) (Some 12) (Some (str "world."))
                      (Some (9 # 10)) (Some 0) (Some (str "L1")) ]
  else [ mk_span_dict (Some (str "kb")) (Some (str "a.pdf")) (Some 1)
                      (Some 0) (Some 5) (Some (str "hello"))
                      (Some (1 # 100)) (Some 0) (Some (str "L1")) ].

Definition example_fetch : outcome (list span_dict) :=
  fetch_highlight_spans unit (fun _ => Ret tt) (fun _ _ => Ret example_hits)
                        (fun parent_id _ => Ret (example_children parent_id))
                        (str "world").

End Locator.

(* ================================================================= *)
(** * Vocabulary for the order of the fused list *)

Module FusionOrder.

Import Rag RagSpec.

(** Wherever [b] is ranked in the list, [a] is ranked too, and no
    lower. *)
Definition ranked_no_lower (l : list (KBEntry Q)) (a b : pystr) : Prop :=
  forall rb, rank_in l b = Some rb ->
             exists ra, rank_in l a = Some ra /\ ra <= rb.

(** [x] stands in front of [y]. *)
Definition in_front_of {A} (l : list A) (x y : A) : Prop :=
  exists p m q, l = p ++ x :: m ++ y :: q.

End FusionOrder.
(* ================================================================= *)
(** * Facts about outcomes *)

Lemma bind_Ret_inv {A B} (m : outcome A) (k : A -> outcome B) (b : B) :
  bind m k = Ret b -> exists a, m = Ret a /\ k a = Ret b.
Proof.
  destruct m as [a| |]; simpl; intro Hb; try discriminate.
  exists a; split; [reflexivity | exact Hb].
Qed.


(* ================================================================= *)
(** * Facts about strings *)

Module PyStrFacts.

Lemma len_nonneg (s : pystr) : 0 <= len s.
Proof. unfold len. lia. Qed.

Lemma len_app (a b : pystr) : len (a ++ b) = len a + len b.
Proof. unfold len. rewrite length_app. lia. Qed.

Lemma truthy_false (s : pystr) : truthy s = false <-> s = [].
Proof. destruct s; simpl; split; congruence. Qed.

Lemma truthy_true (s : pystr) : truthy s = true <-> s <> [].
Proof. destruct s; simpl; split; congruence. Qed.

(** [strip] cuts a prefix and a suffix off. *)
Lemma lstrip_suffix (s : pystr) : exists pre, s = pre ++ lstrip s.
Proof.
  induction s as [|c s [pre IH]]; simpl.
  - now exists [].
  - destruct (is_space c).
    + exists (c :: pre). simpl. now f_equal.
    + now exists [].
Qed.

Lemma rstrip_prefix (s : pystr) : exists post, s = rstrip s ++ post.
Proof.
  unfold rstrip. destruct (lstrip_suffix (rev s)) as [pre Hpre].
  exists (rev pre).
  rewrite <- rev_app_distr, <- Hpre. symmetry. apply rev_involutive.
Qed.

Lemma strip_substring (s : pystr) :
  exists pre post, s = pre ++ strip s ++ post.
Proof.
  unfold strip.
  destruct (lstrip_suffix s) as [pre Hpre].
  destruct (rstrip_prefix (lstrip s)) as [post Hpost].
  exists pre, post. now rewrite <- Hpost.
Qed.

Lemma lstrip_head (s : pystr) (c : char) (t : pystr) :
  lstrip s = c :: t -> is_space c = false.
Proof.
  induction s as [|a s IH]; simpl; [discriminate|].
  destruct (is_space a) eqn:Ha; [exact IH|].
  intro Hs. injection Hs as -> _. exact Ha.
Qed.

Lemma lstrip_idem (s : pystr) : lstrip (lstrip s) = lstrip s.
Proof.
  destruct (lstrip s) as [|c t] eqn:Hs; [reflexivity|].
  simpl. now rewrite (lstrip_head s c t Hs).
Qed.

Lemma strip_idem (s : pystr) : strip (strip s) = strip s.
Proof.
  unfold strip. set (t := lstrip s).
  assert (Hl : lstrip (rstrip t) = rstrip t).
  { destruct (rstrip_prefix t) as [post Hpost].
    destruct (rstrip t) as [|c r]; [reflexivity|].
    simpl. subst t.
    now rewrite (lstrip_head s c (r ++ post) Hpost). }
  rewrite Hl. unfold rstrip.
  now rewrite rev_involutive, lstrip_idem.
Qed.

Lemma lstrip_nil (s : pystr) : lstrip s = [] <-> forallb is_space s = true.
Proof.
  induction s as [|c s IH]; simpl; [tauto|].
  destruct (is_space c); simpl; [exact IH|].
  split; discriminate.
Qed.

(** A string strips to nothing when all its characters are blanks. *)
Lemma strip_nil (s : pystr) : strip s = [] <-> forallb is_space s = true.
Proof.
  unfold strip, rstrip. rewrite <- lstrip_nil.
  split.
  - intro Hs. apply (f_equal (@rev char)) in Hs.
    rewrite rev_involutive in Hs. simpl in Hs.
    destruct (lstrip s) as [|c t] eqn:Hl; [reflexivity|].
    apply lstrip_nil in Hs. rewrite forallb_forall in Hs.
    pose proof (lstrip_head s c t Hl) as Hc.
    rewrite (Hs c) in Hc; [discriminate|].
    apply in_rev. rewrite rev_involutive. now left.
  - intros ->. reflexivity.
Qed.

Lemma strip_app_nil (a b : pystr) :
  strip (a ++ b) = [] <-> strip a = [] /\ strip b = [].
Proof. rewrite !strip_nil, forallb_app. apply andb_true_iff. Qed.

(** [startswith] is being a prefix. *)
Lemma startswith_app (p r : pystr) : startswith p (p ++ r) = true.
Proof.
  induction p as [|a p IH]; simpl; [reflexivity|].
  now rewrite N.eqb_refl.
Qed.

Lemma startswith_prefix (p s : pystr) :
  startswith p s = true -> s = p ++ skipn (List.length p) s.
Proof.
  revert s. induction p as [|a p IH]; intros s Hs; simpl.
  - reflexivity.
  - destruct s as [|b s]; simpl in Hs; [discriminate|].
    apply andb_true_iff in Hs. destruct Hs as [Hab Hs].
    apply N.eqb_eq in Hab. subst b. simpl. f_equal. apply IH, Hs.
Qed.

(** [split] and [join] are inverse to each other on the side that
    matters here. *)
Lemma split_go_nonempty (sep : pystr) (skip : nat) (acc s : pystr) :
  split_go sep skip acc s <> [].
Proof.
  revert skip acc. induction s as [|c s IH]; intros skip acc; simpl.
  - discriminate.
  - destruct skip; [|apply IH].
    destruct (startswith sep (c :: s)); [discriminate | apply IH].
Qed.

Lemma join_cons (sep p : pystr) (more : list pystr) :
  more <> [] -> join sep (p :: more) = p ++ sep ++ join sep more.
Proof. destruct more; [congruence | reflexivity]. Qed.

Lemma join_split_go (sep : pystr) (skip : nat) (acc s : pystr) :
  sep <> [] ->
  join sep (split_go sep skip acc s) = rev acc ++ skipn skip s.
Proof.
  intro Hsep. revert skip acc.
  induction s as [|c s IH]; intros skip acc.
  - simpl. rewrite skipn_nil. now rewrite app_nil_r.
  - destruct skip as [|k].
    + cbn [split_go skipn].
      destruct (startswith sep (c :: s)) eqn:Hst.
      * rewrite join_cons by apply split_go_nonempty.
        rewrite IH. simpl. f_equal.
        apply startswith_prefix in Hst.
        destruct sep as [|a sep]; [congruence|].
        simpl in Hst |- *. rewrite Nat.sub_0_r.
        symmetry. exact Hst.
      * rewrite IH. simpl. now rewrite <- app_assoc.
    + simpl. apply IH.
Qed.

Lemma join_split (sep s : pystr) :
  sep <> [] -> join sep (split_nonempty sep s) = s.
Proof. intro Hsep. unfold split_nonempty. now rewrite join_split_go. Qed.

End PyStrFacts.

(* ================================================================= *)
(** * The chunker *)

Module HighlightFacts.

Import Highlight HighlightSpec PyStrFacts.

(** ** Occurrences and [find] *)

Lemma occurs_bound (text tc : pystr) (p : nat) :
  occurs text tc p -> (p + List.length tc <= List.length text)%nat.
Proof.
  intros [pre [post [-> <-]]]. rewrite !length_app. lia.
Qed.

Lemma occurs_inside (a full b tc : pystr) (p : nat) :
  occurs full tc p -> occurs (a ++ full ++ b) tc (List.length a + p).
Proof.
  intros [pre [post [-> <-]]].
  exists (a ++ pre), (post ++ b). split.
  - now rewrite <- !app_assoc.
  - apply length_app.
Qed.

Lemma occurs_strip (s : pystr) : exists p, occurs s (strip s) p.
Proof.
  destruct (strip_substring s) as [pre [post Hs]].
  exists (List.length pre), pre, post. split; [exact Hs | reflexivity].
Qed.

Lemma occurs_startswith (text tc : pystr) (p : nat) :
  occurs text tc p <->
  (p <= List.length text)%nat /\ startswith tc (skipn p text) = true.
Proof.
  split.
  - intros [pre [post [-> <-]]]. split.
    + rewrite length_app. lia.
    + rewrite skipn_app, skipn_all, Nat.sub_diag. simpl.
      apply startswith_app.
  - intros [Hp Hs]. apply startswith_prefix in Hs.
    exists (firstn p text), (skipn (List.length tc) (skipn p text)). split.
    + rewrite <- Hs. symmetry. apply firstn_skipn.
    + apply firstn_length_le, Hp.
Qed.

Lemma find_at_first (tc s : pystr) (i : Z) (j : nat) :
  startswith tc (skipn j s) = true ->
  exists j', (j' <= j)%nat /\ find_at tc s i = i + Z.of_nat j'
             /\ startswith tc (skipn j' s) = true.
Proof.
  revert i j. induction s as [|c s IH]; intros i j Hj.
  - rewrite skipn_nil in Hj. exists 0%nat. simpl. rewrite Hj.
    repeat split; [lia | lia].
  - cbn [find_at]. destruct (startswith tc (c :: s)) eqn:Hs.
    + exists 0%nat. repeat split; [lia | lia | exact Hs].
    + destruct j as [|j]; [simpl in Hj; congruence|].
      simpl in Hj. destruct (IH (i + 1) j Hj) as [j' [Hle [Hf Hst]]].
      exists (S j'). repeat split; [lia | rewrite Hf; lia | exact Hst].
Qed.

(** [find] finds an occurrence that is there: the first one from
    [current_pos] on. *)
Lemma find_occurs (text tc : pystr) (p : nat) (cur : Z) :
  occurs text tc p -> 0 <= cur <= Z.of_nat p ->
  exists f, find text tc cur = Z.of_nat f
            /\ cur <= Z.of_nat f <= Z.of_nat p
            /\ occurs text tc f.
Proof.
  intros Hocc Hcur.
  pose proof (occurs_bound _ _ _ Hocc) as Hb.
  apply occurs_startswith in Hocc. destruct Hocc as [Hp Hst].
  unfold find, adjust, len.
  destruct (Z.ltb_spec (Z.of_nat (List.length text)) cur); [lia|].
  destruct (Z.ltb_spec cur 0); [lia|].
  rewrite Z.min_l by lia.
  assert (Hskip : skipn p text = skipn (p - Z.to_nat cur) (skipn (Z.to_nat cur) text)).
  { rewrite skipn_skipn. f_equal. lia. }
  rewrite Hskip in Hst.
  destruct (find_at_first tc _ cur _ Hst) as [j [Hj [Hf Hs]]].
  exists (Z.to_nat cur + j)%nat. split; [rewrite Hf; lia|].
  split; [lia|].
  apply occurs_startswith. split; [lia|].
  rewrite skipn_skipn in Hs. now rewrite Nat.add_comm.
Qed.

(** ** Chunks that can be found in order *)

Lemma spans_weaken (text : pystr) (o lo lo' hi hi' : nat) (chunks : list pystr) :
  (lo' <= lo)%nat -> (hi <= hi')%nat ->
  spans text o lo hi chunks -> spans text o lo' hi' chunks.
Proof.
  revert lo lo'. induction chunks as [|c rest IH]; simpl; intros lo lo' Hlo Hhi Hs.
  - exact I.
  - destruct Hs as [[Hb Hs]|[Hb [p [Hp [He [Ho Hs]]]]]].
    + left. split; [exact Hb|]. now apply (IH lo).
    + right. split; [exact Hb|]. exists p.
      repeat split; [lia | lia | exact Ho|].
      now apply (IH (p + List.length (strip c) - o)%nat).
Qed.

Lemma spans_app (text : pystr) (o lo mid hi : nat) (xs ys : list pystr) :
  (lo <= mid)%nat -> (mid <= hi)%nat ->
  spans text o lo mid xs -> spans text o mid hi ys ->
  spans text o lo hi (xs ++ ys).
Proof.
  revert lo. induction xs as [|c rest IH]; simpl; intros lo Hlo Hhi Hx Hy.
  - now apply (spans_weaken text o mid lo hi hi).
  - destruct Hx as [[Hb Hx]|[Hb [p [Hp [He [Ho Hx]]]]]].
    + left. split; [exact Hb|]. now apply IH.
    + right. split; [exact Hb|]. exists p.
      repeat split; [lia | lia | exact Ho|].
      apply IH; [lia | lia | exact Hx | exact Hy].
Qed.

Lemma spans_inside (a full b : pystr) (o lo hi : nat) (chunks : list pystr) :
  spans full o lo hi chunks ->
  spans (a ++ full ++ b) o (List.length a + lo) (List.length a + hi) chunks.
Proof.
  revert lo. induction chunks as [|c rest IH]; simpl; intros lo Hs.
  - exact I.
  - destruct Hs as [[Hb Hs]|[Hb [p [Hp [He [Ho Hs]]]]]].
    + left. split; [exact Hb|]. now apply IH.
    + right. split; [exact Hb|]. exists (List.length a + p)%nat.
      repeat split; [lia | lia | now apply occurs_inside|].
      apply IH in Hs.
      eapply spans_weaken; [| |exact Hs]; lia.
Qed.

(** A single string, stripped, is found inside itself. *)
Lemma spans_single (s : pystr) (o : nat) :
  spans s o 0 (List.length s) [s].
Proof.
  simpl. destruct (strip s) as [|c t] eqn:Hs.
  - left. split; [reflexivity | exact I].
  - right. split; [discriminate|].
    destruct (occurs_strip s) as [p Hp]. rewrite Hs in Hp.
    exists p. pose proof (occurs_bound _ _ _ Hp).
    repeat split; [lia | lia | exact Hp].
Qed.

Lemma spans_strip (s : pystr) (o : nat) :
  spans s o 0 (List.length s) [strip s].
Proof.
  pose proof (spans_single s o) as Hs. simpl in Hs |- *.
  now rewrite strip_idem.
Qed.

(** The chunk [flush] appends is found in the part of the text held in
    [cur]. *)
Lemma spans_flush (pre cur post : pystr) (o : nat) (out : list pystr) :
  spans (pre ++ cur ++ post) o 0 (List.length pre) out ->
  spans (pre ++ cur ++ post) o 0 (List.length pre + List.length cur)
        (flush out cur).
Proof.
  intro Hout. unfold flush.
  destruct (truthy (strip cur)).
  - apply spans_app with (mid := List.length pre); [lia | lia | exact Hout|].
    pose proof (spans_inside pre cur post o 0 (List.length cur) _
                             (spans_strip cur o)) as Hc.
    now rewrite Nat.add_0_r in Hc.
  - eapply spans_weaken; [| |exact Hout]; lia.
Qed.

(** ** The fixed-width fallback *)

Section Split.

Variables (chunk_size overlap : Z).

(** With a positive overlap, or a chunk size that is not positive, the
    loop never leaves a position in front of the end of the text: after
    each round [start] is again smaller than [n]. *)
Lemma sliding_window_diverges (fuel : nat) (text : pystr) (start : Z)
      (chunks : list pystr) :
  0 < overlap \/ chunk_size <= 0 ->
  start < len text ->
  sliding_window chunk_size overlap fuel text start chunks = Diverge.
Proof.
  intro Hbad. revert start chunks.
  induction fuel as [|fuel IH]; intros start chunks Hs; simpl.
  - reflexivity.
  - destruct (Z.ltb_spec start (len text)) as [_|]; [|lia].
    set (e := Z.min (start + chunk_size) (len text)).
    assert (He : e <= len text) by (subst e; lia).
    destruct (Z.ltb_spec 0 overlap) as [Ho|Ho].
    + destruct (Z.leb_spec (len text) (e - overlap)); [lia|].
      apply IH. lia.
    + assert (He' : e <= start) by (subst e; lia).
      destruct (Z.leb_spec (len text) e); [lia|].
      apply IH. lia.
Qed.

Lemma slice_inside (s : pystr) (a b : Z) :
  0 <= a <= b -> b <= len s ->
  exists pre post, s = pre ++ slice s a b ++ post
                   /\ List.length pre = Z.to_nat a
                   /\ List.length (slice s a b) = Z.to_nat (b - a).
Proof.
  intros Hab Hb. unfold slice, adjust, len in *.
  destruct (Z.ltb_spec a 0); [lia|].
  destruct (Z.ltb_spec b 0); [lia|].
  rewrite !Z.min_l by lia.
  exists (firstn (Z.to_nat a) s),
         (skipn (Z.to_nat (b - a)) (skipn (Z.to_nat a) s)).
  rewrite firstn_skipn, firstn_skipn.
  split; [reflexivity|]. split.
  - apply firstn_length_le. lia.
  - apply firstn_length_le. rewrite length_skipn. lia.
Qed.

(** When the loop returns, what it has appended can be found in order
    from [start] on. *)
Lemma sliding_window_spans (o : nat) (fuel : nat) (text : pystr) (start : Z)
      (chunks res : list pystr) :
  0 <= start ->
  sliding_window chunk_size overlap fuel text start chunks = Ret res ->
  exists new, res = chunks ++ new
              /\ spans text o (Z.to_nat start) (List.length text) new.
Proof.
  revert start chunks.
  induction fuel as [|fuel IH]; intros start chunks Hs Hret.
  - discriminate.
  - destruct (Z.ltb_spec start (len text)) as [Hlt|Hge].
    + assert (Hgood : 0 < chunk_size /\ overlap <= 0).
      { destruct (Z_lt_dec 0 overlap) as [Ho|Ho].
        - rewrite sliding_window_diverges in Hret; [discriminate | now left | exact Hlt].
        - destruct (Z_le_dec chunk_size 0) as [Hc|Hc].
          + rewrite sliding_window_diverges in Hret; [discriminate | now right | exact Hlt].
          + lia. }
      destruct Hgood as [Hcs Hov].
      simpl in Hret.
      destruct (Z.ltb_spec start (len text)) as [_|]; [|lia].
      destruct (Z.ltb_spec 0 overlap) as [|_]; [lia|].
      set (e := Z.min (start + chunk_size) (len text)) in *.
      assert (He : start < e <= len text) by (subst e; lia).
      destruct (slice_inside text start e) as [pre [post [Htext [Hpre Hw]]]];
        [lia | lia|].
      set (w := slice text start e) in *.
      set (chunks' := if truthy (strip w) then chunks ++ [strip w] else chunks) in *.
      assert (Hnew : exists new0, chunks' = chunks ++ new0
                                  /\ spans text o (Z.to_nat start) (Z.to_nat e) new0).
      { subst chunks'. destruct (truthy (strip w)).
        - exists [strip w]. split; [reflexivity|].
          pose proof (spans_inside pre w post o 0 (List.length w) _
                                   (spans_strip w o)) as Hsp.
          rewrite <- Htext, Hpre, Hw, Nat.add_0_r in Hsp.
          replace (Z.to_nat e) with (Z.to_nat start + Z.to_nat (e - start))%nat by lia.
          exact Hsp.
        - exists []. split; [now rewrite app_nil_r | exact I]. }
      destruct Hnew as [new0 [Hc0 Hs0]].
      unfold len in He.
      destruct (Z.leb_spec (len text) e) as [Hend|Hmore].
      * injection Hret as <-. exists new0. split; [exact Hc0|].
        eapply spans_weaken; [| |exact Hs0]; lia.
      * destruct (IH e chunks') as [new1 [Hr1 Hs1]]; [lia | exact Hret|].
        exists (new0 ++ new1). split.
        -- now rewrite Hr1, Hc0, app_assoc.
        -- apply spans_app with (mid := Z.to_nat e);
             [lia | unfold len in Hmore; lia | exact Hs0 | exact Hs1].
    + simpl in Hret.
      destruct (Z.ltb_spec start (len text)) as [|_]; [lia|].
      injection Hret as <-. exists []. split; [now rewrite app_nil_r | exact I].
Qed.

(** ** The loop over the parts *)

Lemma rest_text_join (sep : pystr) (n i : Z) (parts : list pystr) :
  n = i + list_len parts -> rest_text sep n i parts = join sep parts.
Proof.
  revert i. induction parts as [|p parts IH]; intros i Hn; simpl.
  - reflexivity.
  - unfold list_len in Hn. simpl in Hn.
    destruct parts as [|q parts].
    + simpl in *. destruct (Z.ltb_spec i (n - 1)); [lia|].
      now rewrite !app_nil_r.
    + destruct (Z.ltb_spec i (n - 1)).
      * rewrite IH; [now rewrite <- app_assoc|].
        unfold list_len. simpl. simpl in Hn. lia.
      * simpl in Hn. lia.
Qed.

Section Accumulate.

Variable o : nat.
Variable rec : pystr -> outcome (list pystr).
Hypothesis rec_spans :
  forall full res, rec full = Ret res -> spans full o 0 (List.length full) res.

Lemma accumulate_spans (sep : pystr) (n : Z) (parts : list pystr) :
  forall (i : Z) (out : list pystr) (cur pre text : pystr) (res : list pystr),
    accumulate chunk_size rec sep n i parts out cur = Ret res ->
    text = pre ++ cur ++ rest_text sep n i parts ->
    spans text o 0 (List.length pre) out ->
    spans text o 0 (List.length text) res.
Proof.
  induction parts as [|part more IH]; intros i out cur pre text res Hret Htext Hout.
  - simpl in Hret, Htext. injection Hret as <-. subst text.
    pose proof (spans_flush pre cur [] o out Hout) as Hf.
    now rewrite !length_app, Nat.add_0_r.
  - cbn [accumulate rest_text] in Hret, Htext.
    set (full := part ++ (if i <? n - 1 then sep else [])) in *.
    set (tail := rest_text sep n (i + 1) more) in *.
    destruct (len (cur ++ full) <=? chunk_size).
    + apply (IH _ _ _ pre text _ Hret); [|exact Hout].
      subst text. now rewrite <- !app_assoc.
    + assert (Hout1 : spans text o 0 (List.length pre + List.length cur)
                            (flush out cur)).
      { subst text. now apply spans_flush. }
      destruct (chunk_size <? len full).
      * apply bind_Ret_inv in Hret. destruct Hret as [sub [Hsub Hret]].
        apply (IH _ _ _ (pre ++ cur ++ full) text _ Hret).
        -- subst text. now rewrite <- !app_assoc.
        -- rewrite !length_app.
           apply spans_app with (mid := (List.length pre + List.length cur)%nat);
             [lia | lia | exact Hout1|].
           pose proof (spans_inside (pre ++ cur) full tail o 0 (List.length full)
                                    sub (rec_spans full sub Hsub)) as Hin.
           rewrite <- app_assoc, <- Htext, length_app, Nat.add_0_r in Hin.
           rewrite Nat.add_assoc. exact Hin.
      * apply (IH _ _ _ (pre ++ cur) text _ Hret).
        -- subst text. now rewrite <- app_assoc.
        -- now rewrite length_app.
Qed.

(** ** The loop over the separators *)

Lemma try_separators_spans (fuel : nat) (seps : list pystr) :
  forall (text : pystr) (res : list pystr),
    try_separators chunk_size overlap rec fuel text seps = Ret res ->
    spans text o 0 (List.length text) res.
Proof.
  induction seps as [|sep more IH]; intros text res Hret; simpl in Hret.
  - destruct (sliding_window_spans o fuel text 0 [] res) as [new [-> Hs]];
      [lia | exact Hret | exact Hs].
  - destruct (contains sep text); simpl in Hret; [|now apply IH].
    apply bind_Ret_inv in Hret. destruct Hret as [parts [Hsplit Hret]].
    destruct sep as [|c sep]; [discriminate|].
    simpl in Hsplit. injection Hsplit as <-.
    destruct (list_len (split_nonempty (c :: sep) text) <? 2); [now apply IH|].
    apply (accumulate_spans _ _ _ _ _ _ [] text _ Hret); [|exact I].
    simpl. rewrite rest_text_join by lia.
    symmetry. apply join_split. discriminate.
Qed.

End Accumulate.

(** ** [split_text_simple] *)

(** Whatever [split_text_simple] returns can be found in the text, chunk
    after chunk, without going back. *)
Lemma split_text_simple_spans (o : nat) (fuel : nat) (separators : list pystr) :
  forall (text : pystr) (res : list pystr),
    split_text_simple chunk_size overlap fuel text separators = Ret res ->
    spans text o 0 (List.length text) res.
Proof.
  induction separators as [|sep rest IH]; intros text res Hret;
    cbn [split_text_simple] in Hret;
    (destruct (len text <=? chunk_size);
     [ injection Hret as <-;
       destruct (truthy (strip text)); [apply spans_single | exact I] |]).
  - apply (try_separators_spans o (fun _ => Ret [])) in Hret; [exact Hret|].
    intros full r Hr. injection Hr as <-. exact I.
  - apply (try_separators_spans
             o (fun full => split_text_simple chunk_size overlap fuel full rest))
      in Hret; [exact Hret|].
    exact IH.
Qed.

End Split.

(** ** Recovering the offsets *)

Lemma placed_bounds (text : pystr) (r : raw_chunk) :
  placed text r ->
  0 <= r_char_start r < r_char_end r
  /\ r_char_end r <= len text
  /\ r_char_end r - r_char_start r = len (r_text r).
Proof.
  intros [p [Hs [He [Hne Hocc]]]].
  apply occurs_bound in Hocc.
  assert (0 < len (r_text r)).
  { unfold len. destruct (r_text r); [congruence | simpl; lia]. }
  unfold len in *. lia.
Qed.

(** With an overlap that is not negative, [find] never fails on the
    chunks of a split, and every located chunk is in its place. *)
Lemma locate_placed (text : pystr) (overlap : Z) (texts : list pystr) :
  0 <= overlap ->
  forall (i cur : Z) (chunks : list raw_chunk),
    0 <= cur ->
    spans text (Z.to_nat overlap) (Z.to_nat cur) (List.length text) texts ->
    exists new, locate text overlap i texts cur chunks = chunks ++ new
                /\ Forall (placed text) new.
Proof.
  intro Hov. induction texts as [|t more IH]; intros i cur chunks Hcur Hs.
  - exists []. split; [simpl; now rewrite app_nil_r | constructor].
  - cbn [locate]. simpl in Hs.
    destruct Hs as [[Hb Hs]|[Hb [p [Hp [He [Ho Hs]]]]]].
    + rewrite Hb. simpl. now apply IH.
    + apply truthy_true in Hb. rewrite Hb. simpl.
      destruct (find_occurs text (strip t) p cur Ho) as [f [Hf [Hfp Hfo]]];
        [lia|].
      rewrite Hf.
      destruct (Z.eqb_spec (Z.of_nat f) (-1)); [lia|].
      edestruct (IH (i + 1) (Z.max 0 (Z.of_nat f + len (strip t) - overlap)))
        as [new [Hl Hnew]]; [lia | | rewrite Hl].
      * eapply spans_weaken; [| |exact Hs]; unfold len; lia.
      * eexists. split; [now rewrite <- app_assoc|].
        constructor; [|exact Hnew].
        exists f. simpl. repeat split; try lia; try assumption.
        now apply truthy_true.
Qed.

Lemma create_chunks_from_text_placed (fuel : nat) (text : pystr)
      (chunk_size overlap : Z) (separators : list pystr) (rs : list raw_chunk) :
  0 <= overlap ->
  create_chunks_from_text fuel text chunk_size overlap separators = Ret rs ->
  Forall (placed text) rs.
Proof.
  intros Hov Hret. unfold create_chunks_from_text in Hret.
  destruct (truthy (strip text)); simpl in Hret.
  - apply bind_Ret_inv in Hret. destruct Hret as [texts [Hsplit Hret]].
    injection Hret as <-.
    apply (split_text_simple_spans _ _ (Z.to_nat overlap)) in Hsplit.
    destruct (locate_placed text overlap texts Hov 0 0 []) as [new [-> Hnew]];
      [lia | exact Hsplit | exact Hnew].
  - injection Hret as <-. constructor.
Qed.

(** ** The shape of the output *)

Section Hierarchy.

Variables (l0_size l0_overlap l1_size l1_overlap : Z).
Variable separators : list pystr.
Variable fuel : nat.

Lemma emit_l1s_app (doc : document) (l0 : raw_chunk) (l0_id : pystr)
      (l1s : list raw_chunk) :
  forall (l1_idx : Z) (out : list chunk),
    emit_l1s doc l0 l0_id l1_idx l1s out
    = out ++ l1_chunks doc l0 l0_id l1_idx l1s.
Proof.
  induction l1s as [|l1 more IH]; intros l1_idx out; simpl.
  - now rewrite app_nil_r.
  - rewrite IH. now rewrite <- app_assoc.
Qed.

Lemma emit_l0s_families (doc : document) (l0s : list raw_chunk) :
  forall (l0_idx : Z) (out res : list chunk),
    emit_l0s l1_size l1_overlap separators fuel doc l0_idx l0s out = Ret res ->
    exists blocks,
      res = out ++ List.concat blocks
      /\ Forall (fun b => exists l0 i split,
                     In l0 l0s
                     /\ create_chunks_from_text fuel (r_text l0) l1_size
                                                l1_overlap separators = Ret split
                     /\ b = family doc i l0 split) blocks.
Proof.
  induction l0s as [|l0 more IH]; intros l0_idx out res Hret; simpl in Hret.
  - injection Hret as <-. exists []. simpl. now rewrite app_nil_r.
  - apply bind_Ret_inv in Hret. destruct Hret as [split [Hsplit Hret]].
    apply IH in Hret. destruct Hret as [blocks [-> Hb]].
    exists (family doc l0_idx l0 split :: blocks). split.
    + rewrite emit_l1s_app. unfold family, or_synthetic. simpl.
      now rewrite <- !app_assoc.
    + constructor.
      * exists l0, l0_idx, split. repeat split; [now left | exact Hsplit].
      * eapply Forall_impl; [|exact Hb].
        intros b [l0' [i [s' [Hin [Hs' Hb']]]]].
        exists l0', i, s'. repeat split; [now right | exact Hs' | exact Hb'].
Qed.

Lemma emit_documents_families (documents : list document) :
  forall (out res : list chunk),
    emit_documents l0_size l0_overlap l1_size l1_overlap separators fuel
                   documents out = Ret res ->
    exists blocks,
      res = out ++ List.concat blocks
      /\ Forall (family_of l0_size l0_overlap l1_size l1_overlap separators
                           fuel documents) blocks.
Proof.
  induction documents as [|doc more IH]; intros out res Hret; simpl in Hret.
  - injection Hret as <-. exists []. simpl. now rewrite app_nil_r.
  - apply bind_Ret_inv in Hret. destruct Hret as [l0s [Hl0s Hret]].
    assert (Hweak : forall blocks,
               Forall (family_of l0_size l0_overlap l1_size l1_overlap separators
                                 fuel more) blocks ->
               Forall (family_of l0_size l0_overlap l1_size l1_overlap separators
                                 fuel (doc :: more)) blocks).
    { intros blocks Hb. eapply Forall_impl; [|exact Hb].
      intros b [d [ls [l0 [i [sp [Hd H]]]]]].
      exists d, ls, l0, i, sp. split; [now right | exact H]. }
    destruct l0s as [|l0 l0s].
    + apply IH in Hret. destruct Hret as [blocks [-> Hb]].
      exists blocks. split; [reflexivity | now apply Hweak].
    + apply bind_Ret_inv in Hret. destruct Hret as [out' [Hout' Hret]].
      apply emit_l0s_families in Hout'. destruct Hout' as [b1 [-> Hb1]].
      apply IH in Hret. destruct Hret as [b2 [-> Hb2]].
      exists (b1 ++ b2). split.
      * now rewrite concat_app, app_assoc.
      * apply Forall_app. split; [|now apply Hweak].
        eapply Forall_impl; [|exact Hb1].
        intros b [l0' [i [sp [Hin [Hsp Hb]]]]].
        exists doc, (l0 :: l0s), l0', i, sp.
        repeat split; [now left | exact Hl0s | exact Hin | exact Hsp | exact Hb].
Qed.

Lemma create_hierarchical_chunks_families (documents : list document)
      (out : list chunk) :
  create_hierarchical_chunks l0_size l0_overlap l1_size l1_overlap separators
                             fuel documents = Ret out ->
  exists blocks,
    out = List.concat blocks
    /\ Forall (family_of l0_size l0_overlap l1_size l1_overlap separators
                         fuel documents) blocks.
Proof.
  intro Hret. apply emit_documents_families in Hret.
  destruct Hret as [blocks [-> Hb]]. now exists blocks.
Qed.

Lemma Forall_l1_chunks (P : chunk -> Prop) (doc : document) (l0 : raw_chunk)
      (l0_id : pystr) (l1s : list raw_chunk) :
  Forall (fun l1 => forall i, P (l1_chunk doc l0 l0_id i l1)) l1s ->
  forall i, Forall P (l1_chunks doc l0 l0_id i l1s).
Proof.
  induction 1 as [|l1 more H1 _ IH]; intro i; simpl; constructor.
  - apply H1.
  - apply IH.
Qed.

End Hierarchy.

(** C2. When the overlaps are not negative, the output of
    [create_hierarchical_chunks] is a sequence of families, each an L0 of
    one of the documents followed by its L1s: the L0 has
    [0 <= char_start < char_end <= len(page)], where [page] is the
    preprocessed text of its document, and every L1 of the family names
    the L0 as its parent and has its range inside the range of the L0. *)
Theorem chunk_containment :
  forall (l0_size l0_overlap l1_size l1_overlap : Z) (separators : list pystr)
         (fuel : nat) (documents : list document) (out : list chunk),
    0 <= l0_overlap -> 0 <= l1_overlap ->
    create_hierarchical_chunks l0_size l0_overlap l1_size l1_overlap separators
                               fuel documents = Ret out ->
    exists blocks,
      out = List.concat blocks
      /\ Forall (fun b =>
                   exists doc l0 l1s,
                     b = l0 :: l1s
                     /\ In doc documents
                     /\ source_document_id l0 = doc_id doc
                     /\ chunk_level l0 = L0
                     /\ in_page (preprocess_text_for_chunking (doc_text doc)) l0
                     /\ Forall (fun l1 => child_of l0 l1 /\ contained l0 l1) l1s)
                blocks.
Proof.
  intros l0_size l0_overlap l1_size l1_overlap separators fuel documents out
         H0 H1 Hret.
  apply create_hierarchical_chunks_families in Hret.
  destruct Hret as [blocks [-> Hb]]. exists blocks. split; [reflexivity|].
  eapply Forall_impl; [|exact Hb].
  intros b [doc [l0s [l0 [i [split [Hdoc [Hl0s [Hin [Hsplit ->]]]]]]]]].
  apply (create_chunks_from_text_placed _ _ _ _ _ _ H0) in Hl0s.
  rewrite Forall_forall in Hl0s. specialize (Hl0s l0 Hin).
  apply placed_bounds in Hl0s. destruct Hl0s as [Hse [Hend Hlen]].
  apply (create_chunks_from_text_placed _ _ _ _ _ _ H1) in Hsplit.
  eexists doc, _, _. split; [reflexivity|].
  split; [exact Hdoc|]. split; [reflexivity|]. split; [reflexivity|].
  split; [split; simpl; lia|].
  apply Forall_l1_chunks.
  assert (Hl1 : Forall (fun l1 => 0 <= r_char_start l1
                                  /\ r_char_end l1 <= len (r_text l0))
                       (or_synthetic l0 split)).
  { destruct split as [|l1 more]; simpl.
    - constructor; [|constructor]. simpl. pose proof (len_nonneg (r_text l0)). lia.
    - eapply Forall_impl; [|exact Hsplit].
      intros r Hr. apply placed_bounds in Hr. lia. }
  eapply Forall_impl; [|exact Hl1].
  intros l1 [Hs He] idx. split; [split; reflexivity|].
  unfold contained. simpl. lia.
Qed.

(** The containment, on the page of the examples. *)
Lemma chunk_containment_witness :
  exists out,
    create_hierarchical_chunks 12 3 6 1 production_separators 10 [example_doc]
    = Ret out
    /\ List.length out = 8%nat
    /\ exists blocks,
        out = List.concat blocks
        /\ Forall (fun b =>
                     exists doc l0 l1s,
                       b = l0 :: l1s
                       /\ In doc [example_doc]
                       /\ source_document_id l0 = doc_id doc
                       /\ chunk_level l0 = L0
                       /\ in_page (preprocess_text_for_chunking (doc_text doc)) l0
                       /\ Forall (fun l1 => child_of l0 l1 /\ contained l0 l1) l1s)
                  blocks.
Proof.
  eexists. split; [vm_compute; reflexivity|]. split; [reflexivity|].
  apply (chunk_containment 12 3 6 1 production_separators 10 [example_doc]);
    [lia | lia | vm_compute; reflexivity].
Defined.

(** A negative overlap is outside the claim: the search for the second
    chunk starts behind the text, and the recovered range is not one. *)
Example negative_overlap_misplaces :
  create_chunks_from_text 10 (str "a b") 1 (-5) [str " "]
  = Ret [mk_raw (str "a") (Some 0) 0 1; mk_raw (str "b") (Some 1) 6 3].
Proof. reflexivity. Qed.



(** The stand-in is what an L0 without text would get. *)
Example synthetic_l1_of_an_empty_l0 :
  emit_l0s 6 1 production_separators 10 example_doc 0 [mk_raw [] (Some 0) 4 4] []
  = Ret (family example_doc 0 (mk_raw [] (Some 0) 4 4) [])
  /\ map char_start (family example_doc 0 (mk_raw [] (Some 0) 4 4) []) = [4; 4]
  /\ map char_end (family example_doc 0 (mk_raw [] (Some 0) 4 4) []) = [4; 4].
Proof. repeat split. Qed.

(** ** The fallback with an overlap *)

Lemma try_separators_none_applies (chunk_size overlap : Z)
      (rec : pystr -> outcome (list pystr)) (fuel : nat) (text : pystr)
      (seps : list pystr) :
  Forall (fun sep => contains sep text = false) seps ->
  try_separators chunk_size overlap rec fuel text seps
  = sliding_window chunk_size overlap fuel text 0 [].
Proof.
  induction 1 as [|sep more Hsep _ IH]; simpl.
  - reflexivity.
  - now rewrite Hsep.
Qed.

(** Where no separator applies and the text is longer than a chunk, a
    positive overlap keeps [split_text_simple] in its loop for ever:
    whatever the fuel, the call has not returned. *)
Lemma split_text_simple_fallback_diverges (chunk_size overlap : Z) (fuel : nat)
      (text : pystr) (separators : list pystr) :
  0 < overlap -> chunk_size < len text -> 0 < len text ->
  Forall (fun sep => contains sep text = false) separators ->
  split_text_simple chunk_size overlap fuel text separators = Diverge.
Proof.
  intros Hov Hcs Hlen Hseps.
  destruct separators as [|sep rest]; cbn [split_text_simple];
    (destruct (Z.leb_spec (len text) chunk_size); [lia|]);
    rewrite try_separators_none_applies by exact Hseps;
    apply sliding_window_diverges; [now left | lia | now left | lia].
Qed.

Lemma create_chunks_from_text_diverges (fuel : nat) (text : pystr)
      (chunk_size overlap : Z) (separators : list pystr) :
  truthy (strip text) = true ->
  split_text_simple chunk_size overlap fuel text separators = Diverge ->
  create_chunks_from_text fuel text chunk_size overlap separators = Diverge.
Proof.
  intros Ht Hs. unfold create_chunks_from_text. now rewrite Ht, Hs.
Qed.

(** C3 fails on the code.  With [chunk_size = 2] and [overlap = 1], the
    text [abc] and no separator, [split_text_simple] never returns; the
    production call of [create_hierarchical_chunks] never returns on a
    page of 1201 letters without a blank. *)
Theorem sliding_window_with_overlap_never_returns :
  forall fuel : nat,
    split_text_simple 2 1 fuel (str "abc") [] = Diverge
    /\ create_hierarchical_chunks 1200 300 700 175 production_separators fuel
                                  [unbroken_doc] = Diverge.
Proof.
  intro fuel. split.
  - apply split_text_simple_fallback_diverges;
      [lia | reflexivity | reflexivity | constructor].
  - assert (Hpre : preprocess_text_for_chunking (doc_text unbroken_doc)
                   = unbroken_page) by (vm_compute; reflexivity).
    unfold create_hierarchical_chunks. cbn [emit_documents].
    rewrite Hpre.
    rewrite create_chunks_from_text_diverges; [reflexivity | vm_compute; reflexivity|].
    apply split_text_simple_fallback_diverges;
      [lia | reflexivity | reflexivity|].
    repeat constructor.
Qed.

(** Without an overlap the same inputs are split. *)
Example sliding_window_without_overlap :
  split_text_simple 2 0 3 (str "abcde") [] = Ret [str "ab"; str "cd"; str "e"].
Proof. reflexivity. Qed.

(** An empty separator that is reached is refused. *)
Example empty_separator_raises :
  split_text_simple 1 0 3 (str "ab") [[]] = Raise ValueError.
Proof. reflexivity. Qed.

(** ** Without an overlap every call returns *)

Lemma join_part_le (sep : pystr) (parts : list pystr) (p : pystr) :
  In p parts -> (List.length p <= List.length (join sep parts))%nat.
Proof.
  induction parts as [|q parts IH]; intro Hin; [contradiction|].
  destruct parts as [|r more].
  - destruct Hin as [->|[]]. simpl. lia.
  - rewrite join_cons by discriminate. rewrite !length_app.
    destruct Hin as [->|Hin]; [lia|].
    specialize (IH Hin). lia.
Qed.

Lemma join_part_sep_le (sep : pystr) (parts : list pystr) (p : pystr) :
  In p parts -> (2 <= List.length parts)%nat ->
  (List.length p + List.length sep <= List.length (join sep parts))%nat.
Proof.
  intros Hin Hlen. destruct parts as [|q [|r more]]; simpl in Hlen; try lia.
  rewrite join_cons by discriminate. rewrite !length_app.
  destruct Hin as [->|Hin]; [lia|].
  pose proof (join_part_le sep (r :: more) p Hin). lia.
Qed.

Section Returns.

Variables (chunk_size overlap : Z).
Hypothesis size_positive : 0 < chunk_size.
Hypothesis no_overlap : overlap <= 0.

Lemma sliding_window_returns (fuel : nat) (text : pystr) :
  forall (start : Z) (chunks : list pystr),
    0 <= start -> (Z.to_nat (len text - start) < fuel)%nat ->
    exists res, sliding_window chunk_size overlap fuel text start chunks = Ret res.
Proof.
  induction fuel as [|fuel IH]; intros start chunks Hs Hf; [lia|].
  simpl.
  destruct (Z.ltb_spec start (len text)); [|eexists; reflexivity].
  destruct (Z.ltb_spec 0 overlap); [lia|].
  destruct (Z.leb_spec (len text) (Z.min (start + chunk_size) (len text)));
    [eexists; reflexivity|].
  apply IH; lia.
Qed.

Lemma accumulate_returns (rec : pystr -> outcome (list pystr)) (sep : pystr)
      (n : Z) (m : nat) (parts : list pystr) :
  (forall full, (List.length full <= m)%nat -> exists r, rec full = Ret r) ->
  Forall (fun p => (List.length p + List.length sep <= m)%nat) parts ->
  forall (i : Z) (out : list pystr) (cur : pystr),
    exists res, accumulate chunk_size rec sep n i parts out cur = Ret res.
Proof.
  intros Hrec. induction 1 as [|part more Hp _ IH]; intros i out cur;
    cbn [accumulate].
  - eexists; reflexivity.
  - destruct (len (cur ++ part ++ (if i <? n - 1 then sep else [])) <=? chunk_size);
      [apply IH|].
    destruct (chunk_size <? len (part ++ (if i <? n - 1 then sep else [])));
      [|apply IH].
    destruct (Hrec (part ++ (if i <? n - 1 then sep else []))) as [sub Hsub].
    { rewrite length_app. destruct (i <? n - 1); simpl; lia. }
    rewrite Hsub. simpl. apply IH.
Qed.

Lemma try_separators_returns (rec : pystr -> outcome (list pystr)) (fuel : nat)
      (seps : list pystr) (text : pystr) :
  Forall (fun sep => sep <> []) seps ->
  (forall full, (List.length full <= List.length text)%nat ->
                exists r, rec full = Ret r) ->
  (List.length text < fuel)%nat ->
  exists res, try_separators chunk_size overlap rec fuel text seps = Ret res.
Proof.
  intros Hseps Hrec Hfuel.
  induction Hseps as [|sep more Hsep _ IH]; simpl.
  - apply sliding_window_returns; unfold len; lia.
  - destruct (contains sep text); simpl; [|exact IH].
    destruct sep as [|c sep]; [congruence|]. simpl.
    destruct (Z.ltb_spec (list_len (split_nonempty (c :: sep) text)) 2);
      [exact IH|].
    apply (accumulate_returns rec (c :: sep) _ (List.length text));
      [exact Hrec|].
    apply Forall_forall. intros p Hp.
    pose proof (join_part_sep_le (c :: sep) _ p Hp) as Hle.
    rewrite join_split in Hle by discriminate.
    apply Hle. unfold list_len in *. lia.
Qed.

Lemma split_text_simple_returns (fuel : nat) (separators : list pystr) :
  Forall (fun sep => sep <> []) separators ->
  forall text : pystr,
    (List.length text < fuel)%nat ->
    exists res, split_text_simple chunk_size overlap fuel text separators = Ret res.
Proof.
  induction 1 as [|sep rest Hsep Hrest IH]; intros text Hfuel;
    cbn [split_text_simple];
    (destruct (len text <=? chunk_size); [eexists; reflexivity|]).
  - apply try_separators_returns; [constructor | | exact Hfuel].
    intros full _. eexists; reflexivity.
  - apply try_separators_returns; [now constructor | | exact Hfuel].
    intros full Hfull. apply IH. lia.
Qed.

End Returns.

Lemma create_chunks_from_text_returns (fuel : nat) (text : pystr)
      (chunk_size overlap : Z) (separators : list pystr) :
  0 < chunk_size -> overlap <= 0 ->
  Forall (fun sep => sep <> []) separators ->
  (List.length text < fuel)%nat ->
  exists rs, create_chunks_from_text fuel text chunk_size overlap separators
             = Ret rs.
Proof.
  intros Hcs Hov Hseps Hfuel. unfold create_chunks_from_text.
  destruct (negb (truthy (strip text))); [eexists; reflexivity|].
  destruct (split_text_simple_returns chunk_size overlap Hcs Hov fuel
                                      separators Hseps text Hfuel) as [res ->].
  eexists; reflexivity.
Qed.

Section ReturnsHierarchy.

Variables (l0_size l1_size : Z).
Variable separators : list pystr.
Hypothesis l0_positive : 0 < l0_size.
Hypothesis l1_positive : 0 < l1_size.
Hypothesis separators_nonempty : Forall (fun sep => sep <> []) separators.

Lemma emit_l0s_returns (fuel : nat) (doc : document) (l0s : list raw_chunk) :
  Forall (fun l0 => (List.length (r_text l0) < fuel)%nat) l0s ->
  forall (l0_idx : Z) (out : list chunk),
    exists res, emit_l0s l1_size 0 separators fuel doc l0_idx l0s out = Ret res.
Proof.
  induction 1 as [|l0 more Hl0 _ IH]; intros l0_idx out; simpl.
  - eexists; reflexivity.
  - destruct (create_chunks_from_text_returns fuel (r_text l0) l1_size 0 separators)
      as [split ->]; [exact l1_positive | lia | exact separators_nonempty
                      | exact Hl0|].
    simpl. apply IH.
Qed.

(** With positive sizes, no overlap and no empty separator, a fuel above
    the length of every page is enough: the call returns. *)
Lemma create_hierarchical_chunks_returns (fuel : nat) (documents : list document) :
  Forall (fun doc =>
            (List.length (preprocess_text_for_chunking (doc_text doc)) < fuel)%nat)
         documents ->
  exists out,
    create_hierarchical_chunks l0_size 0 l1_size 0 separators fuel documents
    = Ret out.
Proof.
  unfold create_hierarchical_chunks. intro Hall. generalize (@nil chunk).
  induction Hall as [|doc more Hdoc _ IH]; intro out; simpl.
  - eexists; reflexivity.
  - destruct (create_chunks_from_text_returns
                fuel (preprocess_text_for_chunking (doc_text doc))
                l0_size 0 separators)
      as [l0s Hl0s]; [exact l0_positive | lia | exact separators_nonempty
                      | exact Hdoc|].
    rewrite Hl0s. simpl.
    destruct l0s as [|l0 l0s]; [apply IH|].
    assert (Hshort : Forall (fun r => (List.length (r_text r) < fuel)%nat)
                            (l0 :: l0s)).
    { apply create_chunks_from_text_placed in Hl0s; [|lia].
      eapply Forall_impl; [|exact Hl0s].
      intros r [p [_ [_ [_ Hocc]]]]. apply occurs_bound in Hocc. lia. }
    destruct (emit_l0s_returns fuel doc (l0 :: l0s) Hshort 0 out) as [out' ->].
    simpl. apply IH.
Qed.

End ReturnsHierarchy.

(** ** A text that is not blank gives a chunk *)

Lemma has_nonblank_app (xs ys : list pystr) :
  has_nonblank (xs ++ ys) <-> has_nonblank xs \/ has_nonblank ys.
Proof.
  unfold has_nonblank. split.
  - intros [c [Hin Hc]]. apply in_app_or in Hin.
    destruct Hin; [left | right]; now exists c.
  - intros [[c [Hin Hc]]|[c [Hin Hc]]]; exists c;
      (split; [apply in_or_app; tauto | exact Hc]).
Qed.

Lemma has_nonblank_flush (out : list pystr) (cur : pystr) :
  has_nonblank out \/ strip cur <> [] -> has_nonblank (flush out cur).
Proof.
  unfold flush. intros [Hout|Hcur].
  - destruct (truthy (strip cur)); [apply has_nonblank_app; now left | exact Hout].
  - apply truthy_true in Hcur. rewrite Hcur.
    apply has_nonblank_app. right. exists (strip cur).
    split; [now left|]. rewrite strip_idem. now apply truthy_true.
Qed.

Section Covers.

Variables (chunk_size overlap : Z).

Lemma sliding_window_covers (fuel : nat) (text : pystr) :
  forall (start : Z) (chunks res : list pystr),
    0 <= start ->
    sliding_window chunk_size overlap fuel text start chunks = Ret res ->
    has_nonblank chunks \/ strip (skipn (Z.to_nat start) text) <> [] ->
    has_nonblank res.
Proof.
  induction fuel as [|fuel IH]; intros start chunks res Hs Hret Hnb;
    [discriminate|].
  destruct (Z.ltb_spec start (len text)) as [Hlt|Hge].
  - assert (Hgood : 0 < chunk_size /\ overlap <= 0).
    { destruct (Z_lt_dec 0 overlap) as [Ho|Ho].
      - rewrite sliding_window_diverges in Hret;
          [discriminate | now left | exact Hlt].
      - destruct (Z_le_dec chunk_size 0) as [Hc|Hc]; [|lia].
        rewrite sliding_window_diverges in Hret;
          [discriminate | now right | exact Hlt]. }
    destruct Hgood as [Hcs Hov].
    simpl in Hret.
    destruct (Z.ltb_spec start (len text)) as [_|]; [|lia].
    destruct (Z.ltb_spec 0 overlap) as [|_]; [lia|].
    set (e := Z.min (start + chunk_size) (len text)) in *.
    assert (He : start < e <= len text) by (subst e; lia).
    destruct (slice_inside text start e) as [pre [post [Htext [Hpre Hw]]]];
      [lia | lia|].
    set (w := slice text start e) in *.
    assert (Hskip : skipn (Z.to_nat start) text = w ++ post).
    { rewrite Htext at 1. rewrite skipn_app, Hpre, Nat.sub_diag.
      rewrite <- Hpre, skipn_all. reflexivity. }
    assert (Hpost : skipn (Z.to_nat e) text = post).
    { rewrite Htext at 1. rewrite app_assoc, skipn_app, length_app, Hpre, Hw.
      replace (Z.to_nat e - (Z.to_nat start + Z.to_nat (e - start)))%nat
        with 0%nat by lia.
      rewrite skipn_all2 by (rewrite length_app; lia). reflexivity. }
    change (if truthy (strip w) then chunks ++ [strip w] else chunks)
      with (flush chunks w) in Hret.
    set (chunks' := flush chunks w) in *.
    assert (Hnb' : has_nonblank chunks' \/ strip post <> []).
    { rewrite Hskip in Hnb.
      destruct Hnb as [Hc|Hc].
      - left. apply has_nonblank_flush. now left.
      - destruct (list_eq_dec N.eq_dec (strip w) []) as [Hsw|Hsw].
        + right. intro Hp. apply Hc. apply strip_app_nil. now split.
        + left. apply has_nonblank_flush. now right. }
    destruct (Z.leb_spec (len text) e) as [Hend|Hmore].
    + injection Hret as <-. destruct Hnb' as [Hc|Hc]; [exact Hc|].
      exfalso. apply Hc. rewrite <- Hpost.
      rewrite skipn_all2; [reflexivity | unfold len in *; lia].
    + apply (IH e chunks' res); [lia | exact Hret|].
      now rewrite Hpost.
  - simpl in Hret.
    destruct (Z.ltb_spec start (len text)) as [|_]; [lia|].
    injection Hret as <-. destruct Hnb as [Hc|Hc]; [exact Hc|].
    exfalso. apply Hc.
    rewrite skipn_all2; [reflexivity | unfold len in *; lia].
Qed.

Section AccumulateCovers.

Variable rec : pystr -> outcome (list pystr).
Hypothesis rec_covers :
  forall full res, rec full = Ret res -> strip full <> [] -> has_nonblank res.

Lemma accumulate_covers (sep : pystr) (n : Z) (parts : list pystr) :
  forall (i : Z) (out : list pystr) (cur : pystr) (res : list pystr),
    accumulate chunk_size rec sep n i parts out cur = Ret res ->
    has_nonblank out \/ strip (cur ++ rest_text sep n i parts) <> [] ->
    has_nonblank res.
Proof.
  induction parts as [|part more IH]; intros i out cur res Hret Hnb.
  - simpl in Hret, Hnb. injection Hret as <-. rewrite app_nil_r in Hnb.
    now apply has_nonblank_flush.
  - cbn [accumulate rest_text] in Hret, Hnb.
    set (full := part ++ (if i <? n - 1 then sep else [])) in *.
    set (tail := rest_text sep n (i + 1) more) in *.
    destruct (len (cur ++ full) <=? chunk_size).
    + apply (IH _ _ _ _ Hret). now rewrite <- app_assoc.
    + assert (Hcases : has_nonblank (flush out cur)
                       \/ strip full <> [] \/ strip tail <> []).
      { destruct Hnb as [Hc|Hc].
        - left. apply has_nonblank_flush. now left.
        - destruct (list_eq_dec N.eq_dec (strip cur) []) as [Hcur|Hcur].
          + right. destruct (list_eq_dec N.eq_dec (strip full) []) as [Hfull|Hfull].
            * right. intro Ht. apply Hc.
              apply strip_app_nil. split; [exact Hcur|].
              apply strip_app_nil. now split.
            * now left.
          + left. apply has_nonblank_flush. now right. }
      destruct (chunk_size <? len full).
      * apply bind_Ret_inv in Hret. destruct Hret as [sub [Hsub Hret]].
        apply (IH _ _ _ _ Hret). simpl.
        destruct Hcases as [Hc|[Hc|Hc]].
        -- left. apply has_nonblank_app. now left.
        -- left. apply has_nonblank_app. right.
           now apply (rec_covers full).
        -- now right.
      * apply (IH _ _ _ _ Hret).
        destruct Hcases as [Hc|[Hc|Hc]]; [now left | right | right];
          intro Hn; apply strip_app_nil in Hn; tauto.
Qed.

Lemma try_separators_covers (fuel : nat) (seps : list pystr) :
  forall (text : pystr) (res : list pystr),
    try_separators chunk_size overlap rec fuel text seps = Ret res ->
    strip text <> [] -> has_nonblank res.
Proof.
  induction seps as [|sep more IH]; intros text res Hret Hnb; simpl in Hret.
  - apply (sliding_window_covers fuel text 0 [] res); [lia | exact Hret|].
    now right.
  - destruct (contains sep text); simpl in Hret; [|now apply (IH text)].
    apply bind_Ret_inv in Hret. destruct Hret as [parts [Hsplit Hret]].
    destruct sep as [|c sep]; [discriminate|].
    simpl in Hsplit. injection Hsplit as <-.
    destruct (list_len (split_nonempty (c :: sep) text) <? 2); [now apply (IH text)|].
    apply (accumulate_covers _ _ _ _ _ _ _ Hret). right. simpl.
    rewrite rest_text_join by lia.
    rewrite join_split by discriminate. exact Hnb.
Qed.

End AccumulateCovers.

Lemma split_text_simple_covers (fuel : nat) (separators : list pystr) :
  forall (text : pystr) (res : list pystr),
    split_text_simple chunk_size overlap fuel text separators = Ret res ->
    strip text <> [] -> has_nonblank res.
Proof.
  induction separators as [|sep rest IH]; intros text res Hret Hnb;
    cbn [split_text_simple] in Hret;
    (destruct (len text <=? chunk_size);
     [ injection Hret as <-; apply truthy_true in Hnb; rewrite Hnb;
       exists text; split; [now left | now apply truthy_true] |]).
  - simpl in Hret.
    apply (sliding_window_covers fuel text 0 [] res); [lia | exact Hret|].
    now right.
  - apply (try_separators_covers
             (fun full => split_text_simple chunk_size overlap fuel full rest))
      in Hret; [exact Hret | exact IH | exact Hnb].
Qed.

End Covers.

Lemma locate_new (text : pystr) (overlap : Z) (texts : list pystr) :
  forall (i cur : Z) (chunks : list raw_chunk),
    exists new,
      locate text overlap i texts cur chunks = chunks ++ new
      /\ Forall (fun r => strip (r_text r) <> []) new
      /\ (has_nonblank texts -> new <> []).
Proof.
  induction texts as [|t more IH]; intros i cur chunks.
  - exists []. simpl. rewrite app_nil_r.
    split; [reflexivity|]. split; [constructor|].
    intros [c [[] _]].
  - cbn [locate].
    destruct (list_eq_dec N.eq_dec (strip t) []) as [Ht|Ht].
    + rewrite Ht. simpl.
      destruct (IH (i + 1) cur chunks) as [new [Hl [Hf Hn]]].
      exists new. split; [exact Hl|]. split; [exact Hf|].
      intros [c [[<-|Hin] Hc]]; [contradiction|].
      apply Hn. now exists c.
    + pose proof Ht as Htr. apply truthy_true in Htr. rewrite Htr. simpl.
      match goal with
      | |- context [locate text overlap (i + 1) more ?c ?ch] =>
          destruct (IH (i + 1) c ch) as [new [Hl [Hf _]]]
      end.
      rewrite Hl. eexists. split; [now rewrite <- app_assoc|].
      split; [|discriminate].
      constructor; [|exact Hf]. simpl. now rewrite strip_idem.
Qed.

(** The chunks of a text that is not blank: there is one, and none is
    blank. *)
Lemma create_chunks_from_text_nonblank (fuel : nat) (text : pystr)
      (chunk_size overlap : Z) (separators : list pystr) (rs : list raw_chunk) :
  create_chunks_from_text fuel text chunk_size overlap separators = Ret rs ->
  Forall (fun r => strip (r_text r) <> []) rs
  /\ (strip text <> [] -> rs <> []).
Proof.
  intro Hret. unfold create_chunks_from_text in Hret.
  destruct (list_eq_dec N.eq_dec (strip text) []) as [Ht|Ht].
  - rewrite Ht in Hret. simpl in Hret. injection Hret as <-.
    split; [constructor | contradiction].
  - pose proof Ht as Htr. apply truthy_true in Htr. rewrite Htr in Hret.
    simpl in Hret.
    apply bind_Ret_inv in Hret. destruct Hret as [texts [Hsplit Hret]].
    injection Hret as <-.
    destruct (locate_new text overlap texts 0 0 []) as [new [-> [Hf Hn]]].
    split; [exact Hf|]. intros _. simpl. apply Hn.
    exact (split_text_simple_covers _ _ _ _ _ _ Hsplit Ht).
Qed.

(** The stand-in L1 is never needed: in a run that returns, the text of
    every L0 is not blank, and its split holds a chunk. *)
Lemma synthetic_l1_is_never_needed
      (l0_size l0_overlap l1_size l1_overlap : Z) (separators : list pystr)
      (fuel : nat) (documents : list document) (b : list chunk) :
  family_of l0_size l0_overlap l1_size l1_overlap separators fuel documents b ->
  exists doc l0 l0_idx split,
    b = family doc l0_idx l0 split /\ split <> []
    /\ or_synthetic l0 split = split.
Proof.
  intros [doc [l0s [l0 [i [split [_ [Hl0s [Hin [Hsplit ->]]]]]]]]].
  exists doc, l0, i, split. split; [reflexivity|].
  apply create_chunks_from_text_nonblank in Hl0s. destruct Hl0s as [Hf _].
  rewrite Forall_forall in Hf. specialize (Hf l0 Hin).
  apply create_chunks_from_text_nonblank in Hsplit. destruct Hsplit as [_ Hne].
  specialize (Hne Hf).
  split; [exact Hne|]. destruct split; [contradiction | reflexivity].
Qed.

(** ** More fuel changes no result *)

Section Fuel.

Variables (chunk_size overlap : Z).

Lemma sliding_window_fuel (f1 f2 : nat) :
  (f1 <= f2)%nat ->
  forall (text : pystr) (start : Z) (chunks res : list pystr),
    sliding_window chunk_size overlap f1 text start chunks = Ret res ->
    sliding_window chunk_size overlap f2 text start chunks = Ret res.
Proof.
  revert f2. induction f1 as [|f1 IH]; intros f2 Hle text start chunks res Hret.
  - discriminate.
  - destruct f2 as [|f2]; [lia|].
    simpl in Hret |- *.
    destruct (start <? len text); [|exact Hret].
    match goal with
    | |- (if ?c then _ else _) = _ => destruct c; [exact Hret|]
    end.
    apply IH; [lia | exact Hret].
Qed.

Lemma accumulate_rec (rec1 rec2 : pystr -> outcome (list pystr)) (sep : pystr)
      (n : Z) (parts : list pystr) :
  (forall full r, rec1 full = Ret r -> rec2 full = Ret r) ->
  forall (i : Z) (out : list pystr) (cur : pystr) (res : list pystr),
    accumulate chunk_size rec1 sep n i parts out cur = Ret res ->
    accumulate chunk_size rec2 sep n i parts out cur = Ret res.
Proof.
  intro Hrec. induction parts as [|part more IH]; intros i out cur res Hret.
  - exact Hret.
  - cbn [accumulate] in Hret |- *.
    destruct (len (cur ++ part ++ (if i <? n - 1 then sep else [])) <=? chunk_size);
      [now apply IH|].
    destruct (chunk_size <? len (part ++ (if i <? n - 1 then sep else [])));
      [|now apply IH].
    apply bind_Ret_inv in Hret. destruct Hret as [sub [Hsub Hret]].
    rewrite (Hrec _ _ Hsub). simpl. now apply IH.
Qed.

Lemma try_separators_fuel (rec1 rec2 : pystr -> outcome (list pystr))
      (f1 f2 : nat) (seps : list pystr) :
  (f1 <= f2)%nat ->
  (forall full r, rec1 full = Ret r -> rec2 full = Ret r) ->
  forall (text : pystr) (res : list pystr),
    try_separators chunk_size overlap rec1 f1 text seps = Ret res ->
    try_separators chunk_size overlap rec2 f2 text seps = Ret res.
Proof.
  intros Hle Hrec. induction seps as [|sep more IH]; intros text res Hret;
    simpl in Hret |- *.
  - now apply (sliding_window_fuel f1 f2).
  - destruct (contains sep text); simpl in Hret |- *; [|now apply IH].
    apply bind_Ret_inv in Hret. destruct Hret as [parts [Hsplit Hret]].
    rewrite Hsplit. simpl.
    destruct (list_len parts <? 2); [now apply IH|].
    now apply (accumulate_rec rec1 rec2).
Qed.

Lemma split_text_simple_fuel (f1 f2 : nat) (separators : list pystr) :
  (f1 <= f2)%nat ->
  forall (text : pystr) (res : list pystr),
    split_text_simple chunk_size overlap f1 text separators = Ret res ->
    split_text_simple chunk_size overlap f2 text separators = Ret res.
Proof.
  intro Hle. induction separators as [|sep rest IH]; intros text res Hret;
    cbn [split_text_simple] in Hret |- *;
    (destruct (len text <=? chunk_size); [exact Hret|]).
  - now apply (try_separators_fuel (fun _ => Ret []) (fun _ => Ret []) f1 f2).
  - apply (try_separators_fuel
             (fun full => split_text_simple chunk_size overlap f1 full rest)
             (fun full => split_text_simple chunk_size overlap f2 full rest)
             f1 f2); [exact Hle | exact IH | exact Hret].
Qed.

End Fuel.

Lemma create_chunks_from_text_fuel (f1 f2 : nat) (text : pystr)
      (chunk_size overlap : Z) (separators : list pystr) (rs : list raw_chunk) :
  (f1 <= f2)%nat ->
  create_chunks_from_text f1 text chunk_size overlap separators = Ret rs ->
  create_chunks_from_text f2 text chunk_size overlap separators = Ret rs.
Proof.
  intros Hle Hret. unfold create_chunks_from_text in *.
  destruct (negb (truthy (strip text))); [exact Hret|].
  apply bind_Ret_inv in Hret. destruct Hret as [texts [Hsplit Hret]].
  now rewrite (split_text_simple_fuel _ _ f1 f2 _ Hle _ _ Hsplit).
Qed.

Section FuelHierarchy.

Variables (l0_size l0_overlap l1_size l1_overlap : Z).
Variable separators : list pystr.

Lemma emit_l0s_fuel (f1 f2 : nat) (doc : document) (l0s : list raw_chunk) :
  (f1 <= f2)%nat ->
  forall (l0_idx : Z) (out res : list chunk),
    emit_l0s l1_size l1_overlap separators f1 doc l0_idx l0s out = Ret res ->
    emit_l0s l1_size l1_overlap separators f2 doc l0_idx l0s out = Ret res.
Proof.
  intro Hle. induction l0s as [|l0 more IH]; intros l0_idx out res Hret;
    simpl in Hret |- *.
  - exact Hret.
  - apply bind_Ret_inv in Hret. destruct Hret as [split [Hsplit Hret]].
    rewrite (create_chunks_from_text_fuel f1 f2 _ _ _ _ _ Hle Hsplit). simpl.
    now apply IH.
Qed.

Lemma emit_documents_fuel (f1 f2 : nat) (documents : list document) :
  (f1 <= f2)%nat ->
  forall (out res : list chunk),
    emit_documents l0_size l0_overlap l1_size l1_overlap separators f1
                   documents out = Ret res ->
    emit_documents l0_size l0_overlap l1_size l1_overlap separators f2
                   documents out = Ret res.
Proof.
  intro Hle. induction documents as [|doc more IH]; intros out res Hret;
    simpl in Hret |- *.
  - exact Hret.
  - apply bind_Ret_inv in Hret. destruct Hret as [l0s [Hl0s Hret]].
    rewrite (create_chunks_from_text_fuel f1 f2 _ _ _ _ _ Hle Hl0s). simpl.
    destruct l0s as [|l0 l0s]; [now apply IH|].
    apply bind_Ret_inv in Hret. destruct Hret as [out' [Hout' Hret]].
    rewrite (emit_l0s_fuel f1 f2 _ _ Hle _ _ _ Hout'). simpl.
    now apply IH.
Qed.

(** Two runs on the same documents that return, return the same. *)
Lemma create_hierarchical_chunks_same (f1 f2 : nat) (documents : list document)
      (out1 out2 : list chunk) :
  create_hierarchical_chunks l0_size l0_overlap l1_size l1_overlap separators
                             f1 documents = Ret out1 ->
  create_hierarchical_chunks l0_size l0_overlap l1_size l1_overlap separators
                             f2 documents = Ret out2 ->
  out1 = out2.
Proof.
  unfold create_hierarchical_chunks. intros H1 H2.
  apply (emit_documents_fuel f1 (Nat.max f1 f2)) in H1; [|lia].
  apply (emit_documents_fuel f2 (Nat.max f1 f2)) in H2; [|lia].
  congruence.
Qed.

(** ** The metadata decide nothing *)

Lemma l1_chunks_erase (doc : document) (l0 : raw_chunk) (l0_id : pystr)
      (l1s : list raw_chunk) :
  forall i, map erase (l1_chunks doc l0 l0_id i l1s)
            = l1_chunks (erase_doc doc) l0 l0_id i l1s.
Proof.
  induction l1s as [|l1 more IH]; intro i; simpl; [reflexivity|].
  now rewrite IH.
Qed.

Lemma emit_l0s_erase (fuel : nat) (doc : document) (l0s : list raw_chunk) :
  forall (l0_idx : Z) (out res : list chunk),
    emit_l0s l1_size l1_overlap separators fuel doc l0_idx l0s out = Ret res ->
    emit_l0s l1_size l1_overlap separators fuel (erase_doc doc) l0_idx l0s
             (map erase out) = Ret (map erase res).
Proof.
  induction l0s as [|l0 more IH]; intros l0_idx out res Hret;
    simpl in Hret |- *.
  - now injection Hret as <-.
  - apply bind_Ret_inv in Hret. destruct Hret as [split [Hsplit Hret]].
    rewrite Hsplit. simpl. apply IH in Hret.
    rewrite emit_l1s_app in Hret |- *.
    rewrite !map_app, l1_chunks_erase in Hret. exact Hret.
Qed.

Lemma emit_documents_erase (fuel : nat) (documents : list document) :
  forall (out res : list chunk),
    emit_documents l0_size l0_overlap l1_size l1_overlap separators fuel
                   documents out = Ret res ->
    emit_documents l0_size l0_overlap l1_size l1_overlap separators fuel
                   (map erase_doc documents) (map erase out)
    = Ret (map erase res).
Proof.
  induction documents as [|doc more IH]; intros out res Hret;
    simpl in Hret |- *.
  - now injection Hret as <-.
  - apply bind_Ret_inv in Hret. destruct Hret as [l0s [Hl0s Hret]].
    rewrite Hl0s. simpl.
    destruct l0s as [|l0 l0s]; [now apply IH|].
    apply bind_Ret_inv in Hret. destruct Hret as [out' [Hout' Hret]].
    rewrite (emit_l0s_erase _ _ _ _ _ _ Hout'). simpl.
    now apply IH.
Qed.

End FuelHierarchy.

(** C6. Two runs of [create_hierarchical_chunks] with the same sizes,
    overlaps and separators that return, on documents that agree on their
    IDs and texts, give the same chunks up to the free-form metadata: the
    same sequence of chunk IDs and the same boundaries; on the same
    documents they give the same list. *)
Theorem create_hierarchical_chunks_deterministic :
  forall (l0_size l0_overlap l1_size l1_overlap : Z) (separators : list pystr)
         (fuel1 fuel2 : nat) (documents1 documents2 : list document)
         (out1 out2 : list chunk),
    map erase_doc documents1 = map erase_doc documents2 ->
    create_hierarchical_chunks l0_size l0_overlap l1_size l1_overlap separators
                               fuel1 documents1 = Ret out1 ->
    create_hierarchical_chunks l0_size l0_overlap l1_size l1_overlap separators
                               fuel2 documents2 = Ret out2 ->
    map erase out1 = map erase out2
    /\ map chunk_id out1 = map chunk_id out2
    /\ map char_start out1 = map char_start out2
    /\ map char_end out1 = map char_end out2
    /\ (documents1 = documents2 -> out1 = out2).
Proof.
  intros l0_size l0_overlap l1_size l1_overlap separators fuel1 fuel2
         documents1 documents2 out1 out2 Hdocs H1 H2.
  assert (Herase : map erase out1 = map erase out2).
  { unfold create_hierarchical_chunks in H1, H2.
    apply emit_documents_erase in H1, H2. rewrite Hdocs in H1.
    exact (create_hierarchical_chunks_same _ _ _ _ _ _ _ _ _ _ H1 H2). }
  split; [exact Herase|].
  assert (Hproj : forall (A : Type) (f : chunk -> A),
             (forall c, f (erase c) = f c) -> map f out1 = map f out2).
  { intros A f Hf.
    rewrite <- (map_ext (fun c => f (erase c)) f Hf out1).
    rewrite <- (map_ext (fun c => f (erase c)) f Hf out2).
    rewrite <- !(map_map erase f). now rewrite Herase. }
  split; [apply Hproj; reflexivity|].
  split; [apply Hproj; reflexivity|].
  split; [apply Hproj; reflexivity|].
  intros ->. exact (create_hierarchical_chunks_same _ _ _ _ _ _ _ _ _ _ H1 H2).
Qed.

(** Two runs with different fuels, on documents that differ in their
    metadata: the chunk lists differ, the IDs and boundaries do not. *)
Lemma create_hierarchical_chunks_deterministic_witness :
  exists out1 out2,
    create_hierarchical_chunks 12 3 6 1 production_separators 10 [example_doc]
    = Ret out1
    /\ create_hierarchical_chunks 12 3 6 1 production_separators 25
                                  [example_doc_later] = Ret out2
    /\ out1 <> out2
    /\ map erase out1 = map erase out2
    /\ map chunk_id out1 = map chunk_id out2
    /\ map char_start out1 = map char_start out2
    /\ map char_end out1 = map char_end out2
    /\ ([example_doc] = [example_doc_later] -> out1 = out2).
Proof.
  eexists. eexists.
  split; [vm_compute; reflexivity|].
  split; [vm_compute; reflexivity|].
  split; [discriminate|].
  apply (create_hierarchical_chunks_deterministic
           12 3 6 1 production_separators 10 25 [example_doc] [example_doc_later]);
    [reflexivity | vm_compute; reflexivity | vm_compute; reflexivity].
Defined.

End HighlightFacts.
(* ================================================================= *)
(** * Facts about the sort *)

Module PyListFacts.

Import PyList.

Section SortFacts.

Context {A K : Type}.
Variable key : A -> K.
Variable ltb : K -> K -> bool.

Lemma insert_perm (x : A) (l : list A) :
  Permutation (insert key ltb x l) (x :: l).
Proof.
  induction l as [|y l IH]; simpl.
  - apply Permutation_refl.
  - destruct (ltb (key y) (key x)).
    + eapply perm_trans; [apply perm_skip, IH | apply perm_swap].
    + apply Permutation_refl.
Qed.

Lemma sorted_perm (l : list A) : Permutation (sorted key ltb l) l.
Proof.
  induction l as [|x l IH]; simpl.
  - apply perm_nil.
  - eapply perm_trans; [apply insert_perm | apply perm_skip, IH].
Qed.

Lemma sorted_reverse_perm (l : list A) :
  Permutation (sorted_reverse key ltb l) l.
Proof.
  unfold sorted_reverse.
  eapply perm_trans; [apply Permutation_sym, Permutation_rev|].
  eapply perm_trans; [apply sorted_perm|].
  apply Permutation_sym, Permutation_rev.
Qed.

Lemma filter_insert_out (p : A -> bool) (x : A) (l : list A) :
  p x = false -> filter p (insert key ltb x l) = filter p l.
Proof.
  intro Hx. induction l as [|y l IH]; simpl.
  - now rewrite Hx.
  - destruct (ltb (key y) (key x)); simpl.
    + now rewrite IH.
    + now rewrite Hx.
Qed.

Lemma StronglySorted_snoc (R : A -> A -> Prop) (l : list A) (x : A) :
  StronglySorted R l -> Forall (fun y => R y x) l ->
  StronglySorted R (l ++ [x]).
Proof.
  induction l as [|y l IH]; simpl; intros Hs Hx.
  - constructor; constructor.
  - inversion Hs as [|? ? Hl Hy]; subst.
    inversion Hx as [|? ? Hyx Hlx]; subst.
    constructor; [apply IH; assumption|].
    apply Forall_app; split; [exact Hy|].
    constructor; [exact Hyx | constructor].
Qed.

Section WithOrder.

Context {order : StrictWeakOrder ltb}.

Lemma ltb_asym (a b : K) : ltb a b = true -> ltb b a = false.
Proof.
  intro Hab. destruct (ltb b a) eqn:Hba; [|reflexivity].
  pose proof (ltb_trans _ _ _ Hab Hba) as Haa.
  rewrite ltb_irrefl in Haa. discriminate.
Qed.

Lemma insert_ascending (x : A) (l : list A) :
  ascending key ltb l -> ascending key ltb (insert key ltb x l).
Proof.
  unfold ascending. induction l as [|y l IH]; simpl; intro Hs.
  - constructor; [constructor | constructor].
  - inversion Hs as [|? ? Hl Hy]; subst.
    destruct (ltb (key y) (key x)) eqn:Hyx.
    + constructor; [apply IH, Hl|].
      rewrite Forall_forall. intros z Hz.
      apply (Permutation_in _ (insert_perm x l)) in Hz.
      destruct Hz as [<-|Hz].
      * apply ltb_asym, Hyx.
      * rewrite Forall_forall in Hy. apply Hy, Hz.
    + constructor; [exact Hs|].
      constructor; [exact Hyx|].
      rewrite Forall_forall in Hy |- *. intros z Hz.
      eapply ltb_negtrans; [apply Hy, Hz | exact Hyx].
Qed.

Lemma sorted_ascending (l : list A) : ascending key ltb (sorted key ltb l).
Proof.
  induction l as [|x l IH]; simpl.
  - constructor.
  - apply insert_ascending, IH.
Qed.

Lemma ascending_rev (l : list A) : ascending key ltb l -> descending key ltb (rev l).
Proof.
  unfold ascending, descending.
  induction l as [|x l IH]; simpl; intro Hs.
  - constructor.
  - inversion Hs as [|? ? Hl Hx]; subst.
    apply StronglySorted_snoc; [apply IH, Hl|].
    rewrite Forall_forall in Hx |- *.
    intros y Hy. apply Hx, in_rev, Hy.
Qed.

(** The result of [sorted(..., reverse=True)] is in descending order. *)
Lemma sorted_reverse_descending (l : list A) :
  descending key ltb (sorted_reverse key ltb l).
Proof. apply ascending_rev, sorted_ascending. Qed.

Lemma filter_insert_tie (k : K) (x : A) (l : list A) :
  tie key ltb k x = true ->
  filter (tie key ltb k) (insert key ltb x l) = x :: filter (tie key ltb k) l.
Proof.
  intro Hx. induction l as [|y l IH]; simpl.
  - now rewrite Hx.
  - destruct (ltb (key y) (key x)) eqn:Hyx; simpl.
    + rewrite IH.
      assert (Hy : tie key ltb k y = false).
      { unfold tie in *.
        apply andb_true_iff in Hx. destruct Hx as [Hkx Hxk].
        apply negb_true_iff in Hkx, Hxk.
        destruct (ltb (key y) k) eqn:Hyk.
        - now rewrite andb_false_r.
        - rewrite (ltb_negtrans _ _ _ Hyk Hkx) in Hyx. discriminate. }
      now rewrite Hy.
    + now rewrite Hx.
Qed.

Lemma sorted_stable (k : K) (l : list A) :
  filter (tie key ltb k) (sorted key ltb l) = filter (tie key ltb k) l.
Proof.
  induction l as [|x l IH]; simpl; [reflexivity|].
  destruct (tie key ltb k x) eqn:Hx.
  - rewrite filter_insert_tie by exact Hx. now rewrite IH.
  - rewrite filter_insert_out by exact Hx. exact IH.
Qed.

(** Stability: the elements whose keys tie with [k] stand in the
    result in the order they had in the input. *)
Lemma sorted_reverse_stable (k : K) (l : list A) :
  filter (tie key ltb k) (sorted_reverse key ltb l) = filter (tie key ltb k) l.
Proof.
  unfold sorted_reverse.
  rewrite filter_rev, sorted_stable, filter_rev.
  apply rev_involutive.
Qed.

End WithOrder.

End SortFacts.

Lemma filter_tie_map {A B K : Type} (g : B -> A) (key : A -> K)
      (ltb : K -> K -> bool) (k : K) (l : list B) :
  filter (tie key ltb k) (map g l)
  = map g (filter (tie (fun b => key (g b)) ltb k) l).
Proof.
  induction l as [|b l IH]; simpl; [reflexivity|].
  change (tie key ltb k (g b)) with (tie (fun b => key (g b)) ltb k b).
  destruct (tie (fun b => key (g b)) ltb k b); simpl; now rewrite IH.
Qed.

Lemma Qltb_order : StrictWeakOrder (fun a b : Q => negb (Qle_bool b a)).
Proof.
  split.
  - intro a. apply negb_false_iff, Qle_bool_iff, Qle_refl.
  - intros a b c Hab Hbc.
    apply negb_true_iff in Hab, Hbc. apply negb_true_iff.
    destruct (Qle_bool c a) eqn:Hca; [|reflexivity].
    apply Qle_bool_iff in Hca.
    assert (Hnb : ~ (b <= a)%Q) by (rewrite <- Qle_bool_iff; congruence).
    assert (Hnc : ~ (c <= b)%Q) by (rewrite <- Qle_bool_iff; congruence).
    apply Qnot_le_lt in Hnb, Hnc.
    exfalso. apply (Qlt_irrefl a).
    eapply Qlt_le_trans; [exact Hnb|].
    eapply Qle_trans; [apply Qlt_le_weak, Hnc | exact Hca].
  - intros a b c Hab Hbc.
    apply negb_false_iff in Hab, Hbc. apply negb_false_iff.
    apply Qle_bool_iff in Hab, Hbc. apply Qle_bool_iff.
    eapply Qle_trans; eassumption.
Qed.

End PyListFacts.

(* ================================================================= *)
(** * Query rewriting *)

Module QueryRewriteFacts.

Import QueryRewrite.

(** C7. With an empty history, [rewrite_query] returns the query as it
    is and makes no call to the generation capability: the list of calls
    is the one it was given, whatever the capability, the language and
    the settings. *)
Theorem rewrite_query_empty_history :
  forall (chat_completion : completion_call -> option pystr)
         (query lang : pystr) (settings : option GenerativeModelSettings)
         (calls : list completion_call),
    rewrite_query chat_completion query [] lang settings calls = (query, calls).
Proof. intros. reflexivity. Qed.

(** The example of the specification. *)
Example rewrite_page_3 :
  forall chat_completion,
    rewrite_query chat_completion (str "what about page 3?") [] LANG None []
    = (str "what about page 3?", []).
Proof. intro. reflexivity. Qed.

(** The fast path is a real one: with a history and a provider that has a
    generative class, exactly one call is made, at temperature 0, and a
    failed call gives the query back. *)
Lemma rewrite_query_with_history :
  forall chat_completion query m history lang s calls,
    provider s = OpenAI \/ provider s = vLLM ->
    exists call,
      call_temperature call = 0%Q /\
      call_messages call
      = build_messages (build_prompt_rewrite lang) query (m :: history) /\
      rewrite_query chat_completion query (m :: history) lang (Some s) calls
      = (match chat_completion call with Some r => r | None => query end,
         calls ++ [call]).
Proof.
  intros chat query m history lang s calls Hp.
  unfold rewrite_query.
  set (messages := build_messages (build_prompt_rewrite lang) query (m :: history)).
  destruct Hp as [Hp|Hp]; rewrite Hp; simpl.
  - exists (mk_call (mk_llm OpenAI (name s) None) messages 0).
    repeat split. subst messages. destruct (chat _); reflexivity.
  - exists (mk_call (mk_llm vLLM (name s) (base_url s)) messages 0).
    repeat split. subst messages. destruct (chat _); reflexivity.
Qed.

Lemma rewrite_query_invalid_provider :
  forall chat_completion query m history lang calls,
    rewrite_query chat_completion query (m :: history) lang
                  (Some (mk_settings Cohere (str "x") None)) calls
    = (query, calls).
Proof. intros. reflexivity. Qed.

End QueryRewriteFacts.

(* ================================================================= *)
(** * Index names and searches *)

Module VectorDbFacts.

Import VectorDb VectorDbSpec.



(** Letters and digits are never replaced. *)
Lemma translate_char_alnum (c : char) :
  is_alnum c = true -> translate_char c = c.
Proof.
  unfold is_alnum, translate_char, ES_INDEX_REPLACE_CHARS. intro Hc.
  cbn [existsb].
  repeat match goal with
         | |- context [N.eqb c ?n] =>
             let E := fresh "E" in
             destruct (N.eqb_spec c n) as [E|E];
             [subst c; vm_compute in Hc; discriminate Hc|]
         end.
  reflexivity.
Qed.

Example index_name_of_a_model :
  get_index_name develop_store (str "BAAI/bge-M3 v1.5")
  = str "ragnarok-develop-kb_baai-bge-m3-v1-5".
Proof. reflexivity. Qed.

Section SearchFacts.

Variables V H E : Type.
Variable embed_query : EmbeddingModelSettings -> pystr -> outcome V.
Variable es_search : search_request V -> outcome (search_response H).
Variable model_validate : H -> outcome E.
Variable self : VectorStore.


(** The dense search never hands out the hits of a response whose total
    is zero, and answers with the validated hits otherwise. *)
Lemma knn_search_nonzero :
  forall query project_id kb_ids s ftr_custom v dense,
    embed_query (model s) query = Ret v ->
    es_search (knn_request self v project_id kb_ids s ftr_custom) = Ret dense ->
    total_value dense <> 0 ->
    knn_search V H E embed_query es_search model_validate self
               query project_id kb_ids (Some s) ftr_custom
    = validate_all H E model_validate (hits dense).
Proof.
  intros query project_id kb_ids s ftr_custom v dense Hv Hd Ht.
  unfold knn_search. rewrite Hv. simpl.
  unfold knn_request in Hd. rewrite Hd. simpl.
  apply Z.eqb_neq in Ht. rewrite Ht. reflexivity.
Qed.

End SearchFacts.


End VectorDbFacts.

(* ================================================================= *)
(** * Selection of the L1 children *)

Module SelectionFacts.

Import PyList PyListFacts VectorDb VectorDbSpec.

Lemma select_l1_top_unfold (l : list span) :
  select_l1_top l
  = filter (fun x => Qle_bool FLOOR (score_or_zero x))
           (firstn (Z.to_nat (Z.max 1 (list_len l / 2)))
                   (sorted_reverse score_or_zero Qltb l)).
Proof.
  unfold select_l1_top.
  pose proof (Permutation_length (sorted_reverse_perm score_or_zero Qltb l)) as Hlen.
  destruct (sorted_reverse score_or_zero Qltb l) as [|x r].
  - now rewrite firstn_nil.
  - unfold list_len. now rewrite Hlen.
Qed.

(** C5. The L1 children that are kept are those of the top half of the
    list sorted by descending score (half the length, rounded down, and
    at least one) whose score reaches the floor of 0.05, in the sorted
    order.  The scores 0.9, 0.8, 0.3, 0.02 keep 0.9 and 0.8; the scores
    0.9, 0.02 keep 0.9. *)
Theorem select_l1_top_half_and_floor :
  forall l1_all : list span,
    let ranked := sorted_reverse score_or_zero Qltb l1_all in
    let half := Z.to_nat (Z.max 1 (list_len l1_all / 2)) in
    Permutation ranked l1_all
    /\ descending score_or_zero Qltb ranked
    /\ (forall k, filter (tie score_or_zero Qltb k) ranked
                  = filter (tie score_or_zero Qltb k) l1_all)
    /\ select_l1_top l1_all
       = filter (fun x => Qle_bool FLOOR (score_or_zero x)) (firstn half ranked)
    /\ (forall x, In x (select_l1_top l1_all)
                  <-> In x (firstn half ranked) /\ (FLOOR <= score_or_zero x)%Q)
    /\ select_l1_top [scored (9 # 10); scored (8 # 10); scored (3 # 10); scored (2 # 100)]
       = [scored (9 # 10); scored (8 # 10)]
    /\ select_l1_top [scored (9 # 10); scored (2 # 100)] = [scored (9 # 10)].
Proof.
  intros l1_all ranked half.
  assert (Hperm : Permutation ranked l1_all) by apply sorted_reverse_perm.
  assert (Hsel : select_l1_top l1_all
                 = filter (fun x => Qle_bool FLOOR (score_or_zero x))
                          (firstn half ranked)).
  { subst half. apply select_l1_top_unfold. }
  split; [exact Hperm|].
  split; [exact (sorted_reverse_descending (order := Qltb_order)
                                           score_or_zero Qltb l1_all)|].
  split; [intro k; exact (sorted_reverse_stable (order := Qltb_order)
                                                score_or_zero Qltb k l1_all)|].
  split; [exact Hsel|].
  split; [|split; reflexivity].
  intro x. rewrite Hsel, filter_In, Qle_bool_iff. reflexivity.
Qed.

(** The floor alone can empty the kept set, and the rank alone can drop a
    child above the floor. *)
Example select_l1_top_all_below_floor :
  select_l1_top [scored (2 # 100); scored (1 # 100)] = [].
Proof. reflexivity. Qed.

Example select_l1_top_rank_drops :
  select_l1_top [scored (3 # 10); scored (9 # 10); scored (8 # 10)]
  = [scored (9 # 10)].
Proof. reflexivity. Qed.

End SelectionFacts.

(* ================================================================= *)
(** * Rank fusion *)

Module RagFacts.

Import PyList PyListFacts Rag RagSpec.

Lemma eqb_str_true (a b : pystr) : eqb_str a b = true <-> a = b.
Proof.
  unfold eqb_str. destruct (list_eq_dec N.eq_dec a b); split; congruence.
Qed.

Lemma eqb_str_false (a b : pystr) : eqb_str a b = false <-> a <> b.
Proof.
  unfold eqb_str. destruct (list_eq_dec N.eq_dec a b); split; congruence.
Qed.

Lemma eqb_str_refl (a : pystr) : eqb_str a a = true.
Proof. now apply eqb_str_true. Qed.

Lemma existsb_eqb_str (k : pystr) (ks : list pystr) :
  existsb (eqb_str k) ks = true <-> In k ks.
Proof.
  rewrite existsb_exists. split.
  - intros [x [Hx He]]. apply eqb_str_true in He. now subst.
  - intro Hk. exists k. split; [exact Hk | apply eqb_str_refl].
Qed.

Lemma add_key_in (ks : list pystr) (k i : pystr) :
  In i (add_key ks k) <-> In i ks \/ i = k.
Proof.
  unfold add_key. destruct (existsb (eqb_str k) ks) eqn:He.
  - apply existsb_eqb_str in He. split; [tauto|].
    intros [Hi | ->]; assumption.
  - rewrite in_app_iff. simpl. intuition congruence.
Qed.

Lemma add_key_nodup (ks : list pystr) (k : pystr) :
  NoDup ks -> NoDup (add_key ks k).
Proof.
  intro Hn. unfold add_key. destruct (existsb (eqb_str k) ks) eqn:He.
  - exact Hn.
  - apply NoDup_app; [exact Hn | repeat constructor; simpl; tauto |].
    intros x Hx [<- | []].
    apply existsb_eqb_str in Hx. congruence.
Qed.

Lemma fold_add_key_in (l ks : list pystr) (i : pystr) :
  In i (fold_left add_key l ks) <-> In i ks \/ In i l.
Proof.
  revert ks. induction l as [|k l IH]; intro ks; simpl.
  - tauto.
  - rewrite IH, add_key_in. intuition congruence.
Qed.

Lemma fold_add_key_nodup (l ks : list pystr) :
  NoDup ks -> NoDup (fold_left add_key l ks).
Proof.
  revert ks. induction l as [|k l IH]; intros ks Hn; simpl.
  - exact Hn.
  - apply IH, add_key_nodup, Hn.
Qed.

Lemma first_seen_in (l : list pystr) (i : pystr) :
  In i (first_seen l) <-> In i l.
Proof. unfold first_seen. rewrite fold_add_key_in. simpl. tauto. Qed.

Lemma first_seen_nodup (l : list pystr) : NoDup (first_seen l).
Proof. apply fold_add_key_nodup. constructor. Qed.

Lemma dict_get_set {V} (d : dict V) (k k' : pystr) (v : V) :
  dict_get (dict_set d k v) k'
  = if eqb_str k k' then Some v else dict_get d k'.
Proof.
  induction d as [|[k0 v0] d IH]; simpl.
  - reflexivity.
  - destruct (eqb_str k0 k) eqn:E0; simpl.
    + apply eqb_str_true in E0. subst k0.
      destruct (eqb_str k k'); reflexivity.
    + destruct (eqb_str k0 k') eqn:E1.
      * apply eqb_str_true in E1. subst k0.
        destruct (eqb_str k k') eqn:E2; [|reflexivity].
        apply eqb_str_true in E2. subst k.
        rewrite eqb_str_refl in E0. discriminate.
      * exact IH.
Qed.

Lemma keys_dict_set {V} (d : dict V) (k : pystr) (v : V) :
  keys (dict_set d k v) = add_key (keys d) k.
Proof.
  unfold add_key, keys. induction d as [|[k0 v0] d IH]; simpl.
  - reflexivity.
  - destruct (eqb_str k0 k) eqn:E0; simpl.
    + apply eqb_str_true in E0. subst k0. now rewrite eqb_str_refl.
    + assert (E1 : eqb_str k k0 = false).
      { apply eqb_str_false. apply eqb_str_false in E0. congruence. }
      rewrite E1. simpl. rewrite IH.
      destruct (existsb (eqb_str k) (map fst d)); reflexivity.
Qed.

Lemma dict_set_fresh {V} (d : dict V) (k : pystr) (v : V) :
  ~ In k (keys d) -> dict_set d k v = d ++ [(k, v)].
Proof.
  unfold keys. induction d as [|[k0 v0] d IH]; simpl; intro Hk.
  - reflexivity.
  - destruct (eqb_str k0 k) eqn:E0.
    + apply eqb_str_true in E0. tauto.
    + rewrite IH; [reflexivity | tauto].
Qed.

Lemma dict_get_not_in {V} (d : dict V) (k : pystr) :
  ~ In k (keys d) -> dict_get d k = None.
Proof.
  unfold keys. induction d as [|[k0 v0] d IH]; simpl; intro Hk.
  - reflexivity.
  - destruct (eqb_str k0 k) eqn:E0.
    + apply eqb_str_true in E0. tauto.
    + apply IH. tauto.
Qed.

(** A dictionary is its keys, each with the value it answers. *)
Lemma dict_as_map {V} (d : dict V) (f : pystr -> V) :
  NoDup (keys d) ->
  (forall k, In k (keys d) -> dict_get d k = Some (f k)) ->
  d = map (fun k => (k, f k)) (keys d).
Proof.
  unfold keys. induction d as [|[k0 v0] d IH]; simpl; intros Hn Hf.
  - reflexivity.
  - inversion Hn as [|? ? Hk0 Hd]; subst.
    pose proof (Hf k0 (or_introl eq_refl)) as H0.
    rewrite eqb_str_refl in H0. injection H0 as ->.
    f_equal. apply IH; [exact Hd|].
    intros k Hk. specialize (Hf k (or_intror Hk)).
    destruct (eqb_str k0 k) eqn:E0; [|exact Hf].
    apply eqb_str_true in E0. subst k0. contradiction.
Qed.

(** ** Ranks *)

Section FusionFacts.

Context {F : Type} {arith : PyFloat F}.

Lemma rank_from_lower (n : Z) (l : list (KBEntry F)) (i : pystr) (r : Z) :
  rank_from n l i = Some r -> n < r.
Proof.
  revert n. induction l as [|e l IH]; simpl; intros n Hr.
  - discriminate.
  - destruct (rank_from (n + 1) l i) eqn:Hl.
    + injection Hr as <-. apply IH in Hl. lia.
    + destruct (eqb_str (id e) i); [|discriminate].
      injection Hr as <-. lia.
Qed.

Lemma rank_from_none (n : Z) (l : list (KBEntry F)) (i : pystr) :
  rank_from n l i = None <-> ~ In i (map id l).
Proof.
  revert n. induction l as [|e l IH]; simpl; intro n.
  - tauto.
  - destruct (rank_from (n + 1) l i) eqn:Hl.
    + split; [discriminate|]. intro Hn. exfalso.
      assert (Hc : rank_from (n + 1) l i <> None) by congruence.
      rewrite IH in Hc. tauto.
    + apply IH in Hl.
      destruct (eqb_str (id e) i) eqn:He.
      * apply eqb_str_true in He. split; [discriminate | tauto].
      * apply eqb_str_false in He. tauto.
Qed.

(** Where IDs do not repeat, the rank is the position. *)
Lemma rank_from_position (n : Z) (l : list (KBEntry F)) (p : nat) (e : KBEntry F) :
  NoDup (map id l) -> nth_error l p = Some e ->
  rank_from n l (id e) = Some (n + Z.of_nat p + 1).
Proof.
  revert n p. induction l as [|h l IH]; simpl; intros n p Hn Hp.
  - destruct p; discriminate.
  - inversion Hn as [|? ? Hh Hl]; subst.
    destruct p as [|p]; simpl in Hp.
    + injection Hp as ->.
      apply (rank_from_none (n + 1)) in Hh. rewrite Hh, eqb_str_refl.
      f_equal. lia.
    + rewrite (IH (n + 1) p Hl Hp). f_equal. lia.
Qed.

Lemma rank_in_position (l : list (KBEntry F)) (p : nat) (e : KBEntry F) :
  NoDup (map id l) -> nth_error l p = Some e ->
  rank_in l (id e) = Some (Z.of_nat p + 1).
Proof. intros Hn Hp. unfold rank_in. now rewrite (rank_from_position 0 l p e). Qed.

(** ** The table of ranks *)

Lemma set_rank_put (s : slot) (ranks : rank_table) (i : pystr) (r : Z) :
  set_rank s ranks i r = dict_set ranks i (put s r (or_empty (dict_get ranks i))).
Proof.
  unfold set_rank, put, or_empty.
  destruct (dict_get ranks i) as [[c b]|]; destruct s; reflexivity.
Qed.

Lemma keys_assign_ranks (s : slot) (n : Z) (l : list (KBEntry F)) (ranks : rank_table) :
  keys (assign_ranks s n l ranks) = fold_left add_key (map id l) (keys ranks).
Proof.
  revert n ranks. induction l as [|e l IH]; simpl; intros n ranks.
  - reflexivity.
  - now rewrite IH, set_rank_put, keys_dict_set.
Qed.

Lemma get_assign_ranks (s : slot) (n : Z) (l : list (KBEntry F))
      (ranks : rank_table) (i : pystr) :
  dict_get (assign_ranks s n l ranks) i
  = match rank_from n l i with
    | Some r => Some (put s r (or_empty (dict_get ranks i)))
    | None => dict_get ranks i
    end.
Proof.
  revert n ranks. induction l as [|e l IH]; simpl; intros n ranks.
  - reflexivity.
  - rewrite IH, set_rank_put, dict_get_set.
    destruct (eqb_str (id e) i) eqn:He.
    + apply eqb_str_true in He. subst i.
      destruct (rank_from (n + 1) l (id e)); [|reflexivity].
      simpl. destruct s; reflexivity.
    + destruct (rank_from (n + 1) l i); reflexivity.
Qed.

(** The table after both lists: one row per distinct ID, in the order
    the IDs were first seen, holding the two ranks. *)
Lemma ranks_table (cosine bm25 : list (KBEntry F)) :
  assign_ranks Bm25 0 bm25 (assign_ranks Cosine 0 cosine [])
  = map (fun i => (i, (rank_in cosine i, rank_in bm25 i)))
        (first_seen (map id (cosine ++ bm25))).
Proof.
  set (t := assign_ranks Bm25 0 bm25 (assign_ranks Cosine 0 cosine [])).
  assert (Hk : keys t = first_seen (map id (cosine ++ bm25))).
  { subst t. rewrite !keys_assign_ranks. unfold first_seen.
    now rewrite map_app, fold_left_app. }
  rewrite <- Hk. apply dict_as_map.
  - rewrite Hk. apply first_seen_nodup.
  - intros i Hi. rewrite Hk, first_seen_in, map_app, in_app_iff in Hi.
    subst t. rewrite !get_assign_ranks. simpl. unfold rank_in.
    destruct (rank_from 0 bm25 i) eqn:Hb; destruct (rank_from 0 cosine i) eqn:Hc;
      try reflexivity.
    apply rank_from_none in Hb, Hc. tauto.
Qed.

(** ** Scores *)

Lemma add_reciprocal_ret (c : Z) (rank : option Z) (acc : F) :
  (forall r, rank = Some r -> r + c <> 0) ->
  add_reciprocal c rank acc = Ret (reciprocal c rank acc).
Proof.
  intro Hr. destruct rank as [r|]; simpl; [|reflexivity].
  specialize (Hr r eq_refl). apply Z.eqb_neq in Hr. now rewrite Hr.
Qed.

(** With a non-negative constant no division fails, and every row of the
    table gives one score, in the order of the rows. *)
Lemma rrf_scores_ret (c : Z) (cosine bm25 : list (KBEntry F))
      (ks : list pystr) (scores : dict F) :
  0 <= c -> NoDup ks -> (forall k, In k ks -> ~ In k (keys scores)) ->
  rrf_scores c (map (fun i => (i, (rank_in cosine i, rank_in bm25 i))) ks) scores
  = Ret (scores ++ map (fun i => (i, fused_score c cosine bm25 i)) ks).
Proof.
  intros Hc. revert scores.
  induction ks as [|k ks IH]; simpl; intros scores Hn Hfresh.
  - now rewrite app_nil_r.
  - inversion Hn as [|? ? Hk Hks]; subst.
    assert (Hpos : forall (l : list (KBEntry F)) i r, rank_in l i = Some r -> r + c <> 0).
    { intros l i r Hr. apply rank_from_lower in Hr. lia. }
    rewrite (add_reciprocal_ret c _ f_zero (Hpos cosine k)). simpl.
    rewrite (add_reciprocal_ret c _ _ (Hpos bm25 k)). simpl.
    rewrite dict_set_fresh by (apply Hfresh; now left).
    rewrite IH; [|exact Hks|].
    + now rewrite <- app_assoc.
    + intros k' Hk'. unfold keys. rewrite map_app, in_app_iff. simpl.
      intros [Hin|[<-|[]]]; [|contradiction].
      apply (Hfresh k'); [now right | exact Hin].
Qed.

(** ** The hits by ID *)

Lemma get_by_id (l : list (KBEntry F)) (d : dict (KBEntry F)) (i : pystr) :
  dict_get (by_id l d) i
  = match last_hit l i with
    | Some h => Some h
    | None => dict_get d i
    end.
Proof.
  revert d. induction l as [|h l IH]; simpl; intro d.
  - reflexivity.
  - rewrite IH, dict_get_set.
    destruct (last_hit l i); [reflexivity|].
    destruct (eqb_str (id h) i); reflexivity.
Qed.

Lemma last_hit_some (l : list (KBEntry F)) (i : pystr) (h : KBEntry F) :
  last_hit l i = Some h -> In h l /\ id h = i.
Proof.
  induction l as [|e l IH]; simpl; intro Hh.
  - discriminate.
  - destruct (last_hit l i) as [x|].
    + injection Hh as ->. destruct (IH eq_refl). tauto.
    + destruct (eqb_str (id e) i) eqn:He; [|discriminate].
      injection Hh as ->. apply eqb_str_true in He. tauto.
Qed.

Lemma last_hit_in (l : list (KBEntry F)) (i : pystr) :
  In i (map id l) -> exists h, last_hit l i = Some h.
Proof.
  induction l as [|e l IH]; simpl; intro Hi.
  - contradiction.
  - destruct (last_hit l i) as [x|] eqn:Hl; [now exists x|].
    destruct Hi as [<-|Hi].
    + rewrite eqb_str_refl. now exists e.
    + destruct (IH Hi) as [h Hh]. discriminate.
Qed.

Lemma collect_ret (l : list (KBEntry F)) (pairs : list (pystr * F))
      (out : list (KBEntry F)) :
  (forall p, In p pairs -> In (fst p) (map id l)) ->
  exists out', collect (by_id l []) pairs out = Ret (out ++ out')
               /\ Forall2 (fused_from l) pairs out'.
Proof.
  revert out. induction pairs as [|[i s] pairs IH]; simpl; intros out Hin.
  - exists []. rewrite app_nil_r. split; [reflexivity | constructor].
  - destruct (last_hit_in l i (Hin (i, s) (or_introl eq_refl))) as [h Hh].
    rewrite get_by_id, Hh.
    destruct (IH (out ++ [set_score h s])) as [out' [Hc Hf]].
    { intros p Hp. apply Hin. now right. }
    exists (set_score h s :: out'). split.
    + rewrite Hc. now rewrite <- app_assoc.
    + constructor; [|exact Hf]. exists h. split; [exact Hh | reflexivity].
Qed.

Lemma fused_from_ranking (l : list (KBEntry F)) (pairs : list (pystr * F))
      (out : list (KBEntry F)) :
  Forall2 (fused_from l) pairs out -> ranking out = pairs.
Proof.
  induction 1 as [|[i s] e pairs out [h [Hh ->]] _ IH]; simpl.
  - reflexivity.
  - apply last_hit_some in Hh. destruct Hh as [_ Hid].
    simpl in Hid. rewrite Hid. f_equal. exact IH.
Qed.

(** ** The fusion as a whole *)

Lemma reciprocal_rank_fusion_ret (c : Z) (cosine bm25 : list (KBEntry F)) :
  0 <= c ->
  exists out,
    reciprocal_rank_fusion cosine bm25 c = Ret out
    /\ ranking out = sorted_reverse snd f_ltb (fused_rows c cosine bm25)
    /\ Forall2 (fused_from (cosine ++ bm25)) (ranking out) out.
Proof.
  intro Hc. unfold reciprocal_rank_fusion.
  rewrite ranks_table.
  rewrite rrf_scores_ret;
    [|exact Hc | apply first_seen_nodup | intros k _ []].
  simpl. fold (fused_rows c cosine bm25).
  destruct (collect_ret (cosine ++ bm25)
                        (sorted_reverse snd f_ltb (fused_rows c cosine bm25)) [])
    as [out [Hcol Hf]].
  - intros p Hp.
    apply (Permutation_in _ (sorted_reverse_perm snd f_ltb _)) in Hp.
    unfold fused_rows in Hp. apply in_map_iff in Hp.
    destruct Hp as [i [<- Hi]]. simpl. now apply first_seen_in.
  - exists out. simpl in Hcol.
    pose proof (fused_from_ranking _ _ _ Hf) as Hr.
    split; [exact Hcol|]. split; [exact Hr|]. now rewrite Hr.
Qed.

Lemma fused_rows_keys (c : Z) (cosine bm25 : list (KBEntry F)) :
  map fst (fused_rows c cosine bm25) = first_seen (map id (cosine ++ bm25)).
Proof.
  unfold fused_rows. rewrite map_map. simpl. apply map_id.
Qed.

Lemma ranking_ids (l : list (KBEntry F)) : map fst (ranking l) = map id l.
Proof. unfold ranking. rewrite map_map. reflexivity. Qed.

Lemma filter_ranking (k : F) (l : list (KBEntry F)) :
  filter (tie snd f_ltb k) (ranking l) = ranking (filter (tie score f_ltb k) l).
Proof. unfold ranking. now rewrite filter_tie_map. Qed.

Lemma filter_fused_rows (c : Z) (cosine bm25 : list (KBEntry F)) (k : F) :
  map fst (filter (tie snd f_ltb k) (fused_rows c cosine bm25))
  = filter (tie (fused_score c cosine bm25) f_ltb k)
           (first_seen (map id (cosine ++ bm25))).
Proof.
  unfold fused_rows. rewrite filter_tie_map, map_map. simpl.
  now rewrite map_id.
Qed.

Lemma descending_ranking (l : list (KBEntry F)) :
  descending snd f_ltb (ranking l) -> descending score f_ltb l.
Proof.
  unfold descending. induction l as [|e l IH]; simpl; intro Hs.
  - constructor.
  - inversion Hs as [|? ? Hl He]; subst.
    constructor; [apply IH, Hl|].
    rewrite Forall_forall in He |- *. intros x Hx.
    apply (He (id x, score x)). unfold ranking. apply in_map_iff.
    now exists x.
Qed.

(** What a non-negative constant gives; C1 is the case [c = 60]. *)
Lemma reciprocal_rank_fusion_spec (c : Z) (cosine bm25 : list (KBEntry F)) :
  StrictWeakOrder (f_ltb (F := F)) ->
  0 <= c ->
  exists out,
    reciprocal_rank_fusion cosine bm25 c = Ret out
    /\ NoDup (map id out)
    /\ (forall i, In i (map id out) <-> In i (map id cosine) \/ In i (map id bm25))
    /\ (forall e, In e out ->
          score e = fused_score c cosine bm25 (id e)
          /\ exists h, last_hit (cosine ++ bm25) (id e) = Some h
                       /\ e = set_score h (fused_score c cosine bm25 (id e)))
    /\ descending score f_ltb out
    /\ (forall k, map id (filter (tie score f_ltb k) out)
                  = filter (tie (fused_score c cosine bm25) f_ltb k)
                           (first_seen (map id (cosine ++ bm25)))).
Proof.
  intros order Hc.
  destruct (reciprocal_rank_fusion_ret c cosine bm25 Hc) as [out [Hret [Hrank Hf]]].
  exists out. split; [exact Hret|].
  pose proof (sorted_reverse_perm snd f_ltb (fused_rows c cosine bm25)) as Hperm.
  rewrite <- Hrank in Hperm.
  assert (Hids : Permutation (map id out) (first_seen (map id (cosine ++ bm25)))).
  { rewrite <- ranking_ids, <- fused_rows_keys with (c := c).
    apply Permutation_map, Hperm. }
  assert (Hscore : forall e, In e out -> score e = fused_score c cosine bm25 (id e)).
  { intros e He.
    assert (Hin : In (id e, score e) (ranking out)).
    { unfold ranking. apply in_map_iff. now exists e. }
    apply (Permutation_in _ Hperm) in Hin.
    unfold fused_rows in Hin. apply in_map_iff in Hin.
    destruct Hin as [i [Hi _]]. now injection Hi as -> ->. }
  split; [|split; [|split; [|split]]].
  - eapply Permutation_NoDup; [apply Permutation_sym, Hids|].
    apply first_seen_nodup.
  - intro i. split; intro Hi.
    + apply (Permutation_in _ Hids) in Hi.
      apply (proj1 (first_seen_in _ _)) in Hi.
      rewrite map_app in Hi. apply in_app_or, Hi.
    + eapply Permutation_in; [apply Permutation_sym, Hids|].
      apply (proj2 (first_seen_in _ _)).
      rewrite map_app. apply in_or_app, Hi.
  - intros e He. split; [apply Hscore, He|].
    rewrite <- (Hscore e He).
    clear - Hf He. remember (ranking out) as pairs eqn:Hp. revert Hp.
    induction Hf as [|p e' pairs out' Hpe Hf IH]; intro Hp.
    + contradiction.
    + simpl in Hp. injection Hp as Hp1 Hp2.
      destruct He as [->|He]; [|apply IH; assumption].
      destruct Hpe as [h [Hh He]]. subst p. simpl in Hh, He.
      exists h. split; [exact Hh|]. rewrite He at 1. reflexivity.
  - apply descending_ranking. rewrite Hrank.
    exact (sorted_reverse_descending snd f_ltb _).
  - intro k.
    rewrite <- ranking_ids, <- filter_ranking, Hrank.
    rewrite (sorted_reverse_stable snd f_ltb). apply filter_fused_rows.
Qed.

End FusionFacts.



(** C4, as stated, fails.  D is third in the BM25 list, so its score is
    1/63 and not 1/62: it ties with C, and C, seen first, stays in front
    of it. *)
Lemma rrf_example_D_does_not_outrank_C :
  (exists out,
      reciprocal_rank_fusion (cosine_ABC 5%Q 4%Q 3%Q) (bm25_BAD 9%Q 8%Q 7%Q) 60 = Ret out
      /\ ranking out = [(str "A", 123 # 3782); (str "B", 123 # 3782);
                        (str "C", 1 # 63); (str "D", 1 # 63)])
  /\ fused_score 60 (cosine_ABC 5%Q 4%Q 3%Q) (bm25_BAD 9%Q 8%Q 7%Q) (str "D") = (1 # 63)%Q
  /\ ~ (1 # 63 == 1 # 62)%Q.
Proof.
  split; [|split].
  - eexists. split; reflexivity.
  - reflexivity.
  - intro Heq. vm_compute in Heq. discriminate Heq.
Qed.

(** C4, amended.  For the cosine ranking A, B, C and the BM25 ranking
    B, A, D with [c = 60], whatever scores the hits carried: A and B both
    get 1/61 + 1/62, C gets 1/63 and D, third in its list, gets 1/63 too;
    the output is A, B, C, D, with A and B tied above C and D, which tie.
    This holds in exact arithmetic and in binary64. *)
Theorem rrf_example_ABC_BAD :
  (forall sa sb sc sb' sa' sd : Q,
      reciprocal_rank_fusion (cosine_ABC sa sb sc) (bm25_BAD sb' sa' sd) 60
      = Ret [hit "A" ((1 # 61) + (1 # 62))%Q; hit "B" ((1 # 62) + (1 # 61))%Q;
             hit "C" (1 # 63)%Q; hit "D" (1 # 63)%Q])
  /\ ((1 # 61) + (1 # 62) == (1 # 62) + (1 # 61))%Q
  /\ ((1 # 63) < (1 # 61) + (1 # 62))%Q
  /\ (forall sa sb sc sb' sa' sd : float,
         reciprocal_rank_fusion (cosine_ABC sa sb sc) (bm25_BAD sb' sa' sd) 60
         = Ret [hit "A" (1 / 61 + 1 / 62)%float; hit "B" (1 / 62 + 1 / 61)%float;
                hit "C" (1 / 63)%float; hit "D" (1 / 63)%float])
  /\ PrimFloat.eqb (1 / 61 + 1 / 62) (1 / 62 + 1 / 61) = true
  /\ PrimFloat.ltb (1 / 63) (1 / 61 + 1 / 62) = true.
Proof.
  split; [intros; reflexivity|].
  split; [reflexivity|].
  split; [reflexivity|].
  split; [intros; reflexivity|].
  split; reflexivity.
Qed.

End RagFacts.

(* ================================================================= *)
(** * More on the chunker *)

Module ChunkFacts.

Import Highlight HighlightSpec HighlightOrder PyStrFacts HighlightFacts.

(** ** Slices and occurrences *)

Lemma slice_occurs (text tc : pystr) (p : nat) :
  occurs text tc p ->
  slice text (Z.of_nat p) (Z.of_nat p + len tc) = tc.
Proof.
  intros [pre [post [-> <-]]]. unfold slice, adjust, len.
  rewrite !length_app.
  destruct (Z.ltb_spec (Z.of_nat (List.length pre)) 0); [lia|].
  destruct (Z.ltb_spec (Z.of_nat (List.length pre) + Z.of_nat (List.length tc)) 0);
    [lia|].
  replace (Z.to_nat (Z.min (Z.of_nat (List.length pre)) _))
    with (List.length pre) by lia.
  replace (Z.to_nat (_ - _)) with (List.length tc) by lia.
  rewrite skipn_app, skipn_all, Nat.sub_diag. simpl.
  rewrite firstn_app, firstn_all, Nat.sub_diag. simpl. apply app_nil_r.
Qed.

Lemma len_strip_le (s : pystr) : len (strip s) <= len s.
Proof.
  destruct (strip_substring s) as [pre [post Hs]].
  rewrite Hs at 2. unfold len. rewrite !length_app. lia.
Qed.

Lemma len_slice_window (s : pystr) (a w : Z) :
  0 <= w -> len (slice s a (Z.min (a + w) (len s))) <= w.
Proof.
  intro Hw. unfold slice, adjust, len. rewrite length_firstn.
  set (n := Z.of_nat (List.length s)).
  destruct (Z.ltb_spec a 0); destruct (Z.ltb_spec (Z.min (a + w) n) 0); lia.
Qed.

Lemma Forall_concat {A} (P : A -> Prop) (blocks : list (list A)) :
  Forall (Forall P) blocks -> Forall P (List.concat blocks).
Proof.
  induction 1 as [|b more Hb _ IH]; simpl; [constructor|].
  apply Forall_app. now split.
Qed.

(** ** The size of the chunks of a split *)

Section Sizes.

Variables (chunk_size overlap : Z).
Hypothesis size_nonneg : 0 <= chunk_size.

Lemma fits_strip (c : pystr) :
  strip c <> [] -> len c <= chunk_size -> fits chunk_size (strip c).
Proof.
  intros Hne Hlen. split; [now rewrite strip_idem|].
  pose proof (len_strip_le c). lia.
Qed.

Lemma flush_fits (out : list pystr) (cur : pystr) :
  Forall (fits chunk_size) out ->
  cur = [] \/ len cur <= chunk_size ->
  Forall (fits chunk_size) (flush out cur).
Proof.
  intros Hout Hcur. unfold flush.
  destruct (strip cur) eqn:Hs; simpl; [exact Hout|].
  apply Forall_app. split; [exact Hout|].
  constructor; [|constructor]. rewrite <- Hs.
  destruct Hcur as [-> | Hlen]; [discriminate|].
  apply fits_strip; [now rewrite Hs | exact Hlen].
Qed.

Lemma sliding_window_fits (fuel : nat) (text : pystr) :
  forall (start : Z) (chunks res : list pystr),
    sliding_window chunk_size overlap fuel text start chunks = Ret res ->
    Forall (fits chunk_size) chunks -> Forall (fits chunk_size) res.
Proof.
  induction fuel as [|fuel IH]; intros start chunks res Hret Hc;
    [discriminate|].
  cbn [sliding_window] in Hret.
  destruct (start <? len text); [|now injection Hret as <-].
  set (piece := slice text start (Z.min (start + chunk_size) (len text))) in *.
  assert (Hc' : Forall (fits chunk_size)
                       (if truthy (strip piece) then chunks ++ [strip piece]
                        else chunks)).
  { destruct (truthy (strip piece)) eqn:Ht; [|exact Hc].
    apply Forall_app. split; [exact Hc|].
    constructor; [|constructor].
    apply fits_strip; [now apply truthy_true|].
    apply len_slice_window, size_nonneg. }
  destruct (_ <=? _) in Hret; [now injection Hret as <-|].
  eapply IH; [exact Hret | exact Hc'].
Qed.

Lemma accumulate_fits (rec : pystr -> outcome (list pystr)) (sep : pystr) (n : Z)
      (parts : list pystr) :
  (forall full res, rec full = Ret res -> Forall (fits chunk_size) res) ->
  forall (i : Z) (out : list pystr) (cur : pystr) (res : list pystr),
    accumulate chunk_size rec sep n i parts out cur = Ret res ->
    Forall (fits chunk_size) out ->
    cur = [] \/ len cur <= chunk_size ->
    Forall (fits chunk_size) res.
Proof.
  intro Hrec. induction parts as [|part more IH];
    intros i out cur res Hret Hout Hcur; cbn [accumulate] in Hret.
  - injection Hret as <-. now apply flush_fits.
  - destruct (Z.leb_spec (len (cur ++ part ++ (if i <? n - 1 then sep else [])))
                         chunk_size) as [Hle|Hgt].
    + eapply IH; [exact Hret | exact Hout | now right].
    + destruct (Z.ltb_spec chunk_size
                           (len (part ++ (if i <? n - 1 then sep else []))))
        as [Hbig|Hsmall].
      * apply bind_Ret_inv in Hret. destruct Hret as [sub [Hsub Hret]].
        eapply IH; [exact Hret | | now left].
        apply Forall_app. split; [now apply flush_fits|].
        eapply Hrec, Hsub.
      * eapply IH; [exact Hret | now apply flush_fits | now right].
Qed.

Lemma try_separators_fits (rec : pystr -> outcome (list pystr)) (fuel : nat)
      (text : pystr) (seps : list pystr) (res : list pystr) :
  (forall full res, rec full = Ret res -> Forall (fits chunk_size) res) ->
  try_separators chunk_size overlap rec fuel text seps = Ret res ->
  Forall (fits chunk_size) res.
Proof.
  intro Hrec. induction seps as [|sep more IH]; intro Hret;
    cbn [try_separators] in Hret.
  - eapply sliding_window_fits; [exact Hret | constructor].
  - destruct (negb (contains sep text)); [now apply IH|].
    apply bind_Ret_inv in Hret. destruct Hret as [parts [_ Hret]].
    destruct (list_len parts <? 2); [now apply IH|].
    eapply accumulate_fits; [exact Hrec | exact Hret | constructor | now left].
Qed.

Lemma split_text_simple_fits_all (fuel : nat) (separators : list pystr) :
  forall (text : pystr) (res : list pystr),
    split_text_simple chunk_size overlap fuel text separators = Ret res ->
    Forall (fits chunk_size) res.
Proof.
  induction separators as [|sep rest IH]; intros text res Hret;
    cbn [split_text_simple] in Hret;
    (destruct (Z.leb_spec (len text) chunk_size) as [Hle|Hgt];
     [ injection Hret as <-; destruct (truthy (strip text)) eqn:Ht;
       [ constructor; [|constructor]; split;
         [now apply truthy_true | exact Hle]
       | constructor ] |]).
  - eapply try_separators_fits; [|exact Hret]. intros full r [= <-]. constructor.
  - eapply try_separators_fits; [|exact Hret]. intros full r. apply IH.
Qed.

End Sizes.

(** ** The texts and the order of the located chunks *)

Lemma locate_texts (text : pystr) (overlap : Z) (texts : list pystr) :
  forall (i cur : Z) (chunks : list raw_chunk),
    exists new,
      locate text overlap i texts cur chunks = chunks ++ new
      /\ Forall (fun r => exists t, In t texts /\ r_text r = strip t
                                     /\ strip t <> []) new.
Proof.
  induction texts as [|t more IH]; intros i cur chunks.
  - exists []. simpl. rewrite app_nil_r. split; [reflexivity | constructor].
  - cbn [locate].
    assert (Hweak : forall new,
               Forall (fun r => exists t0, In t0 more /\ r_text r = strip t0
                                           /\ strip t0 <> []) new ->
               Forall (fun r => exists t0, In t0 (t :: more) /\ r_text r = strip t0
                                           /\ strip t0 <> []) new).
    { intros new Hn. eapply Forall_impl; [|exact Hn].
      intros r [t0 [Hin H]]. exists t0. split; [now right | exact H]. }
    destruct (truthy (strip t)) eqn:Ht; simpl.
    + match goal with
      | |- context [locate text overlap (i + 1) more ?c ?ch] =>
          destruct (IH (i + 1) c ch) as [new [Hl Hf]]
      end.
      rewrite Hl. eexists. split; [now rewrite <- app_assoc|].
      constructor; [|now apply Hweak].
      exists t. simpl. repeat split; [now left | now apply truthy_true].
    + destruct (IH (i + 1) cur chunks) as [new [Hl Hf]].
      exists new. split; [exact Hl | now apply Hweak].
Qed.

Lemma find_at_ge (p s : pystr) :
  forall i : Z, find_at p s i = -1 \/ i <= find_at p s i.
Proof.
  induction s as [|c t IH]; intro i; simpl.
  - destruct (startswith p []); [right; lia | now left].
  - destruct (startswith p (c :: t)); [right; lia|].
    destruct (IH (i + 1)) as [H|H]; [now left | right; lia].
Qed.

Lemma find_ge (text p : pystr) (cur : Z) :
  0 <= cur -> find text p cur = -1 \/ cur <= find text p cur.
Proof.
  intro Hcur. unfold find.
  destruct (Z.ltb_spec (len text) cur); [now left|].
  replace (adjust cur (len text)) with cur
    by (unfold adjust; destruct (Z.ltb_spec cur 0); lia).
  apply find_at_ge.
Qed.

Lemma chain_weaken (overlap : Z) (rs : list raw_chunk) (cur cur' i i' : Z) :
  cur' <= cur -> i' <= i -> chain overlap cur i rs -> chain overlap cur' i' rs.
Proof.
  destruct rs as [|r more]; [trivial|].
  intros Hc Hi [Hs [k [Hk [Hik Hch]]]]. split; [lia|].
  exists k. repeat split; [exact Hk | lia | exact Hch].
Qed.

Lemma locate_chain (text : pystr) (overlap : Z) (texts : list pystr) :
  forall (i cur : Z) (chunks : list raw_chunk),
    0 <= cur ->
    exists new,
      locate text overlap i texts cur chunks = chunks ++ new
      /\ chain overlap cur i new.
Proof.
  induction texts as [|t more IH]; intros i cur chunks Hcur.
  - exists []. simpl. rewrite app_nil_r. split; [reflexivity | exact I].
  - cbn [locate]. destruct (truthy (strip t)); simpl.
    + match goal with
      | |- context [locate text overlap (i + 1) more ?c ?ch] =>
          destruct (IH (i + 1) c ch) as [new [Hl Hch]]; [lia|]
      end.
      rewrite Hl. eexists. split; [now rewrite <- app_assoc|].
      simpl. split.
      * destruct (find_ge text (strip t) cur Hcur) as [Hf|Hf].
        -- rewrite Hf. simpl. lia.
        -- destruct (Z.eqb_spec (find text (strip t) cur) (-1)); lia.
      * exists i. repeat split; [lia | exact Hch].
    + destruct (IH (i + 1) cur chunks Hcur) as [new [Hl Hch]].
      exists new. split; [exact Hl|].
      eapply chain_weaken; [| |exact Hch]; lia.
Qed.

Lemma chain_adjacent (overlap : Z) (pre : list raw_chunk) :
  forall (cur i : Z) (a b : raw_chunk) (post : list raw_chunk),
    chain overlap cur i (pre ++ a :: b :: post) ->
    Z.max 0 (r_char_end a - overlap) <= r_char_start b
    /\ exists j k, r_chunk_index a = Some j /\ r_chunk_index b = Some k /\ j < k.
Proof.
  induction pre as [|r pre IH]; intros cur i a b post; simpl.
  - intros [_ [j [Hj [_ [Hb [k [Hk [Hjk _]]]]]]]].
    split; [exact Hb|]. exists j, k. repeat split; [exact Hj | exact Hk | lia].
  - intros [_ [j [_ [_ Hch]]]]. eapply IH, Hch.
Qed.

(** X1. The chunks of [create_chunks_from_text] come in the order of the
    text: of two neighbours, the later one starts no earlier than
    [overlap] characters before the end of the earlier one (and never at
    a negative offset), and its [chunk_index] is larger. *)
Theorem create_chunks_from_text_in_order :
  forall (fuel : nat) (text : pystr) (chunk_size overlap : Z)
         (separators : list pystr) (rs pre post : list raw_chunk)
         (a b : raw_chunk),
    create_chunks_from_text fuel text chunk_size overlap separators = Ret rs ->
    rs = pre ++ a :: b :: post ->
    Z.max 0 (r_char_end a - overlap) <= r_char_start b
    /\ exists j k, r_chunk_index a = Some j /\ r_chunk_index b = Some k /\ j < k.
Proof.
  intros fuel text chunk_size overlap separators rs pre post a b Hret Hrs.
  unfold create_chunks_from_text in Hret.
  destruct (negb (truthy (strip text))).
  - injection Hret as <-. now destruct pre.
  - apply bind_Ret_inv in Hret. destruct Hret as [texts [_ Hret]].
    injection Hret as <-.
    destruct (locate_chain text overlap texts 0 0 []) as [new [Hl Hch]]; [lia|].
    rewrite Hl in Hrs. simpl in Hrs. subst new.
    eapply chain_adjacent, Hch.
Qed.

Lemma create_chunks_from_text_in_order_witness :
  exists rs a b post,
    create_chunks_from_text 10 (str "hello world. foo, bar baz") 12 3
                            production_separators = Ret rs
    /\ rs = [] ++ a :: b :: post
    /\ Z.max 0 (r_char_end a - 3) <= r_char_start b
    /\ exists j k, r_chunk_index a = Some j /\ r_chunk_index b = Some k /\ j < k.
Proof.
  eexists. eexists. eexists. eexists.
  split; [vm_compute; reflexivity|]. split; [reflexivity|].
  eapply (create_chunks_from_text_in_order
            10 (str "hello world. foo, bar baz") 12 3 production_separators
            _ [] _ _ _);
    [vm_compute; reflexivity | reflexivity].
Defined.

Lemma create_chunks_from_text_fits (fuel : nat) (text : pystr)
      (chunk_size overlap : Z) (separators : list pystr) (rs : list raw_chunk) :
  0 <= chunk_size ->
  create_chunks_from_text fuel text chunk_size overlap separators = Ret rs ->
  Forall (fun r => r_text r <> [] /\ len (r_text r) <= chunk_size) rs.
Proof.
  intros Hcs Hret. unfold create_chunks_from_text in Hret.
  destruct (negb (truthy (strip text))).
  - injection Hret as <-. constructor.
  - apply bind_Ret_inv in Hret. destruct Hret as [texts [Hsplit Hret]].
    injection Hret as <-.
    apply (split_text_simple_fits_all _ _ Hcs) in Hsplit.
    destruct (locate_texts text overlap texts 0 0 []) as [new [-> Hnew]].
    simpl. eapply Forall_impl; [|exact Hnew].
    intros r [t [Hin [-> Hne]]]. split; [exact Hne|].
    rewrite Forall_forall in Hsplit. destruct (Hsplit t Hin) as [_ Hlen].
    pose proof (len_strip_le t). lia.
Qed.

(** X2. With sizes that are not negative, the text of every chunk that
    [create_hierarchical_chunks] returns is not empty, and holds at most
    [l0_size] characters for an L0 and at most [l1_size] characters for
    an L1. *)
Theorem chunk_sizes_bounded :
  forall (l0_size l0_overlap l1_size l1_overlap : Z) (separators : list pystr)
         (fuel : nat) (documents : list document) (out : list chunk),
    0 <= l0_size -> 0 <= l1_size ->
    create_hierarchical_chunks l0_size l0_overlap l1_size l1_overlap separators
                               fuel documents = Ret out ->
    Forall (fun c => text c <> []
                     /\ len (text c) <= size_of l0_size l1_size (chunk_level c))
           out.
Proof.
  intros l0_size l0_overlap l1_size l1_overlap separators fuel documents out
         H0 H1 Hret.
  apply create_hierarchical_chunks_families in Hret.
  destruct Hret as [blocks [-> Hb]]. apply Forall_concat.
  eapply Forall_impl; [|exact Hb].
  intros b [doc [l0s [l0 [i [split [_ [Hl0s [Hin [Hsplit ->]]]]]]]]].
  pose proof (create_chunks_from_text_nonblank _ _ _ _ _ _ Hl0s) as [Hnb _].
  apply (create_chunks_from_text_fits _ _ _ _ _ _ H0) in Hl0s.
  rewrite Forall_forall in Hl0s, Hnb.
  destruct (Hl0s l0 Hin) as [Hne Hlen]. specialize (Hnb l0 Hin).
  pose proof (create_chunks_from_text_nonblank _ _ _ _ _ _ Hsplit) as [_ Hsome].
  specialize (Hsome Hnb).
  apply (create_chunks_from_text_fits _ _ _ _ _ _ H1) in Hsplit.
  unfold family. constructor; [simpl; now split|].
  apply Forall_l1_chunks.
  destruct split as [|l1 more]; [contradiction|]. simpl or_synthetic.
  eapply Forall_impl; [|exact Hsplit].
  intros r [Hr Hrl] idx. simpl. now split.
Qed.

Lemma chunk_sizes_bounded_witness :
  exists out,
    create_hierarchical_chunks 12 3 6 1 production_separators 10 [example_doc]
    = Ret out
    /\ List.length out = 8%nat
    /\ Forall (fun c => text c <> []
                        /\ len (text c) <= size_of 12 6 (chunk_level c)) out.
Proof.
  eexists. split; [vm_compute; reflexivity|]. split; [reflexivity|].
  apply (chunk_sizes_bounded 12 3 6 1 production_separators 10 [example_doc]);
    [lia | lia | vm_compute; reflexivity].
Defined.

Lemma chunks_stand_in
      (l0_size l0_overlap l1_size l1_overlap : Z) (separators : list pystr)
      (fuel : nat) (documents : list document) (out : list chunk) :
  0 <= l0_overlap -> 0 <= l1_overlap ->
  create_hierarchical_chunks l0_size l0_overlap l1_size l1_overlap separators
                             fuel documents = Ret out ->
  Forall (stands_in documents) out.
Proof.
  intros H0 H1 Hret.
  apply create_hierarchical_chunks_families in Hret.
  destruct Hret as [blocks [-> Hb]]. apply Forall_concat.
  eapply Forall_impl; [|exact Hb].
  intros b [doc [l0s [l0 [i [split [Hdoc [Hl0s [Hin [Hsplit ->]]]]]]]]].
  apply (create_chunks_from_text_placed _ _ _ _ _ _ H0) in Hl0s.
  rewrite Forall_forall in Hl0s.
  destruct (Hl0s l0 Hin) as [p [Hs [He [Hne Hocc]]]].
  apply (create_chunks_from_text_placed _ _ _ _ _ _ H1) in Hsplit.
  unfold family. constructor.
  - exists doc, p. simpl. repeat split; assumption.
  - apply Forall_l1_chunks.
    assert (Hl1 : Forall (placed (r_text l0)) (or_synthetic l0 split)).
    { destruct split as [|l1 more]; [|exact Hsplit]. simpl.
      constructor; [|constructor].
      exists 0%nat. simpl. repeat split; [exact Hne|].
      exists [], []. split; [now rewrite app_nil_r | reflexivity]. }
    eapply Forall_impl; [|exact Hl1].
    intros l1 [q [Hqs [Hqe [_ Hqo]]]] idx.
    exists doc, (p + q)%nat. simpl.
    split; [exact Hdoc|]. split; [reflexivity|].
    split; [lia|]. split; [lia|].
    destruct Hocc as [pre [post [Hpage Hpre]]].
    rewrite Hpage, <- Hpre. now apply occurs_inside.
Qed.

(** X3. With overlaps that are not negative, the offsets of every chunk
    that [create_hierarchical_chunks] returns point at its text: the
    chunk belongs to a document of the call, and the slice of the
    preprocessed text of that document from [char_start] to [char_end] is
    the text of the chunk. *)
Theorem chunk_text_is_page_slice :
  forall (l0_size l0_overlap l1_size l1_overlap : Z) (separators : list pystr)
         (fuel : nat) (documents : list document) (out : list chunk),
    0 <= l0_overlap -> 0 <= l1_overlap ->
    create_hierarchical_chunks l0_size l0_overlap l1_size l1_overlap separators
                               fuel documents = Ret out ->
    Forall (fun c =>
              exists doc,
                In doc documents
                /\ source_document_id c = doc_id doc
                /\ slice (preprocess_text_for_chunking (doc_text doc))
                         (char_start c) (char_end c) = text c)
           out.
Proof.
  intros l0_size l0_overlap l1_size l1_overlap separators fuel documents out
         H0 H1 Hret.
  eapply Forall_impl;
    [|exact (chunks_stand_in _ _ _ _ _ _ _ _ H0 H1 Hret)].
  intros c [doc [p [Hdoc [Hid [Hs [He Hocc]]]]]].
  exists doc. split; [exact Hdoc|]. split; [exact Hid|].
  rewrite Hs, He. now apply slice_occurs.
Qed.

Lemma chunk_text_is_page_slice_witness :
  exists out,
    create_hierarchical_chunks 12 3 6 1 production_separators 10 [example_doc]
    = Ret out
    /\ List.length out = 8%nat
    /\ Forall (fun c =>
                 exists doc,
                   In doc [example_doc]
                   /\ source_document_id c = doc_id doc
                   /\ slice (preprocess_text_for_chunking (doc_text doc))
                            (char_start c) (char_end c) = text c)
              out.
Proof.
  eexists. split; [vm_compute; reflexivity|]. split; [reflexivity|].
  apply (chunk_text_is_page_slice 12 3 6 1 production_separators 10
                                  [example_doc]);
    [lia | lia | vm_compute; reflexivity].
Defined.

(** ** Termination without overlap *)

Lemma fuel_above (documents : list document) :
  exists fuel,
    Forall (fun doc =>
              (List.length (preprocess_text_for_chunking (doc_text doc)) < fuel)%nat)
           documents.
Proof.
  induction documents as [|doc more [fuel IH]].
  - exists 0%nat. constructor.
  - exists (S (Nat.max fuel
                       (List.length (preprocess_text_for_chunking (doc_text doc))))).
    constructor; [lia|].
    eapply Forall_impl; [|exact IH]. simpl. intros d Hd. lia.
Qed.

(** X4. With positive sizes, overlaps of 0 and no empty separator,
    [create_hierarchical_chunks] terminates: there is one result that
    every run returns whose fuel is above the length of each
    preprocessed page. *)
Theorem create_hierarchical_chunks_terminates :
  forall (l0_size l1_size : Z) (separators : list pystr)
         (documents : list document),
    0 < l0_size -> 0 < l1_size ->
    Forall (fun sep => sep <> []) separators ->
    exists out,
      forall fuel : nat,
        Forall (fun doc =>
                  (List.length (preprocess_text_for_chunking (doc_text doc))
                   < fuel)%nat) documents ->
        create_hierarchical_chunks l0_size 0 l1_size 0 separators fuel documents
        = Ret out.
Proof.
  intros l0_size l1_size separators documents H0 H1 Hseps.
  destruct (fuel_above documents) as [fuel0 Hfuel0].
  destruct (create_hierarchical_chunks_returns l0_size l1_size separators
              H0 H1 Hseps fuel0 documents Hfuel0) as [out Hout].
  exists out. intros fuel Hfuel.
  destruct (create_hierarchical_chunks_returns l0_size l1_size separators
              H0 H1 Hseps fuel documents Hfuel) as [out' Hout'].
  rewrite Hout'. f_equal.
  exact (create_hierarchical_chunks_same _ _ _ _ _ _ _ _ _ _ Hout' Hout).
Qed.

Lemma create_hierarchical_chunks_terminates_witness :
  exists out,
    forall fuel : nat,
      Forall (fun doc =>
                (List.length (preprocess_text_for_chunking (doc_text doc))
                 < fuel)%nat) [unbroken_doc] ->
      create_hierarchical_chunks 1200 0 700 0 production_separators fuel
                                 [unbroken_doc]
      = Ret out.
Proof.
  apply (create_hierarchical_chunks_terminates 1200 700 production_separators
                                               [unbroken_doc]);
    [lia | lia | repeat constructor; discriminate].
Defined.

(** ** The identifiers *)

Lemma str_inj (a b : string) : str a = str b -> a = b.
Proof.
  unfold str. intro H.
  assert (Hl : list_ascii_of_string a = list_ascii_of_string b).
  { revert H. generalize (list_ascii_of_string a) (list_ascii_of_string b).
    induction l as [|x l IH]; intros [|y l'] H; try discriminate; [reflexivity|].
    simpl in H. injection H as Hxy Hll. f_equal; [|now apply IH].
    rewrite <- (ascii_N_embedding x), <- (ascii_N_embedding y). now f_equal. }
  rewrite <- (string_of_list_ascii_of_string a),
          <- (string_of_list_ascii_of_string b).
  now f_equal.
Qed.

Lemma to_int_proper (n : Z) :
  Z.to_int n <> Decimal.Pos Decimal.Nil /\ Z.to_int n <> Decimal.Neg Decimal.Nil.
Proof.
  destruct n as [|p|p]; simpl; split; try discriminate;
    intros [= H]; exact (DecimalPos.Unsigned.to_uint_nonnil p H).
Qed.

Lemma of_int_inj (a b : Z) : of_int a = of_int b -> a = b.
Proof.
  unfold of_int. intro H. apply str_inj in H.
  destruct (to_int_proper a) as [Ha1 Ha2].
  destruct (to_int_proper b) as [Hb1 Hb2].
  pose proof (NilZero.isi (Z.to_int a) Ha1 Ha2) as Ia.
  pose proof (NilZero.isi (Z.to_int b) Hb1 Hb2) as Ib.
  rewrite H in Ia. rewrite Ia in Ib. injection Ib as Hab.
  rewrite <- (DecimalZ.of_to a), <- (DecimalZ.of_to b). now f_equal.
Qed.

Lemma string_of_uint_digits (d : Decimal.uint) :
  Forall (fun c => (48 <= c <= 57)%N) (str (NilEmpty.string_of_uint d)).
Proof.
  induction d; simpl; constructor; try exact IHd; simpl; lia.
Qed.

Lemma of_int_no_underscore (n : Z) : ~ In 95%N (of_int n).
Proof.
  assert (Hu : forall d, ~ In 95%N (str (NilZero.string_of_uint d))).
  { intros d Hin.
    assert (Hd : Forall (fun c => (48 <= c <= 57)%N)
                        (str (NilZero.string_of_uint d))).
    { destruct d; try apply string_of_uint_digits.
      constructor; [simpl; lia | constructor]. }
    rewrite Forall_forall in Hd. specialize (Hd _ Hin). lia. }
  unfold of_int. destruct (Z.to_int n) as [d|d]; simpl NilZero.string_of_int.
  - apply Hu.
  - intros [H|H]; [discriminate | exact (Hu d H)].
Qed.

Lemma app_cons_unique {A} (c : A) (a : list A) :
  forall (a' b b' : list A),
    ~ In c a -> ~ In c a' ->
    a ++ c :: b = a' ++ c :: b' -> a = a' /\ b = b'.
Proof.
  induction a as [|x a IH]; intros [|y a'] b b' Ha Ha' H; simpl in H.
  - injection H as ->. now split.
  - injection H as -> _. exfalso. apply Ha'. now left.
  - injection H as -> _. exfalso. apply Ha. now left.
  - injection H as -> H.
    destruct (IH a' b b') as [-> ->];
      [ intro; apply Ha; now right | intro; apply Ha'; now right | exact H |].
    now split.
Qed.

Lemma app_cons_unique_r {A} (c : A) (a a' b b' : list A) :
  ~ In c b -> ~ In c b' ->
  a ++ c :: b = a' ++ c :: b' -> a = a' /\ b = b'.
Proof.
  intros Hb Hb' H. apply (f_equal (@rev A)) in H.
  rewrite !rev_app_distr in H. simpl in H. rewrite <- !app_assoc in H.
  simpl in H.
  apply app_cons_unique in H; [|now rewrite <- in_rev..].
  destruct H as [H1 H2]. split; now apply rev_inj.
Qed.

Lemma level_name_no_underscore (l : level) : ~ In 95%N (level_name l).
Proof.
  destruct l; simpl; intros [H|[H|[]]]; discriminate.
Qed.

Lemma make_chunk_id_inj (d d' : pystr) (l l' : level) (s e s' e' : Z) :
  make_chunk_id d (level_name l) s e = make_chunk_id d' (level_name l') s' e' ->
  d = d' /\ l = l' /\ s = s' /\ e = e'.
Proof.
  intro H. unfold make_chunk_id in H.
  change (str "_") with [95%N] in H. simpl app in H.
  assert (H1 : ((d ++ 95%N :: level_name l) ++ 95%N :: of_int s) ++ 95%N :: of_int e
               = ((d' ++ 95%N :: level_name l') ++ 95%N :: of_int s')
                   ++ 95%N :: of_int e').
  { repeat (rewrite <- app_assoc; simpl). exact H. }
  apply app_cons_unique_r in H1; try apply of_int_no_underscore.
  destruct H1 as [H1 He].
  apply app_cons_unique_r in H1; try apply of_int_no_underscore.
  destruct H1 as [H1 Hs].
  apply app_cons_unique_r in H1; try apply level_name_no_underscore.
  destruct H1 as [Hd Hl].
  split; [exact Hd|]. split; [|split; now apply of_int_inj].
  destruct l, l'; try reflexivity; discriminate.
Qed.

(** X5. The identifier of a chunk names its document, its level and its
    range: two calls of [make_chunk_id] on level names give the same
    string exactly when they have the same document identifier, the
    same level, the same start and the same end, whatever characters the
    document identifiers hold. *)
Theorem make_chunk_id_injective :
  forall (d d' : pystr) (l l' : level) (s e s' e' : Z),
    make_chunk_id d (level_name l) s e = make_chunk_id d' (level_name l') s' e'
    <-> d = d' /\ l = l' /\ s = s' /\ e = e'.
Proof.
  intros d d' l l' s e s' e'. split.
  - apply make_chunk_id_inj.
  - intros [-> [-> [-> ->]]]. reflexivity.
Qed.

(** Every chunk of the output carries the identifier of its own
    document, level and range. *)
Lemma chunk_ids_are_canonical
      (l0_size l0_overlap l1_size l1_overlap : Z) (separators : list pystr)
      (fuel : nat) (documents : list document) (out : list chunk) :
  create_hierarchical_chunks l0_size l0_overlap l1_size l1_overlap separators
                             fuel documents = Ret out ->
  Forall (fun c => chunk_id c
                   = make_chunk_id (source_document_id c)
                                   (level_name (chunk_level c))
                                   (char_start c) (char_end c)) out.
Proof.
  intro Hret. apply create_hierarchical_chunks_families in Hret.
  destruct Hret as [blocks [-> Hb]]. apply Forall_concat.
  eapply Forall_impl; [|exact Hb].
  intros b [doc [l0s [l0 [i [split [_ [_ [_ [_ ->]]]]]]]]].
  unfold family. constructor; [reflexivity|].
  apply Forall_l1_chunks. apply Forall_forall. intros l1 _ idx. reflexivity.
Qed.



End ChunkFacts.

(* ================================================================= *)
(** * The chunker loses no text *)

Module CoverageFacts.

Import Highlight HighlightSpec HighlightOrder PyStrFacts HighlightFacts.

Lemma letters_app (a b : pystr) : letters (a ++ b) = letters a ++ letters b.
Proof. apply filter_app. Qed.

Lemma letters_of_app (xs ys : list pystr) :
  letters_of (xs ++ ys) = letters_of xs ++ letters_of ys.
Proof. unfold letters_of. now rewrite map_app, concat_app. Qed.

Lemma letters_lstrip (s : pystr) : letters (lstrip s) = letters s.
Proof.
  induction s as [|c s IH]; [reflexivity|]. simpl.
  destruct (is_space c) eqn:Hc; simpl; [exact IH|]. now rewrite Hc.
Qed.

Lemma letters_rev (s : pystr) : letters (rev s) = rev (letters s).
Proof. unfold letters. apply filter_rev. Qed.

Lemma letters_strip (s : pystr) : letters (strip s) = letters s.
Proof.
  unfold strip, rstrip.
  rewrite letters_rev, letters_lstrip, letters_rev, rev_involutive.
  apply letters_lstrip.
Qed.

Lemma letters_blank (s : pystr) : strip s = [] -> letters s = [].
Proof. intro H. now rewrite <- letters_strip, H. Qed.

Lemma letters_of_flush (out : list pystr) (cur : pystr) :
  letters_of (flush out cur) = letters_of out ++ letters cur.
Proof.
  unfold flush.
  destruct (list_eq_dec N.eq_dec (strip cur) []) as [Hs|Hs].
  - rewrite Hs. simpl. rewrite (letters_blank cur Hs). now rewrite app_nil_r.
  - apply truthy_true in Hs. rewrite Hs, letters_of_app.
    unfold letters_of at 2. simpl. now rewrite app_nil_r, letters_strip.
Qed.

Section Coverage.

Variables (chunk_size overlap : Z).

Lemma slice_window (text : pystr) (start : Z) :
  0 <= start < len text -> 0 < chunk_size ->
  slice text start (Z.min (start + chunk_size) (len text))
  = firstn (Z.to_nat chunk_size) (skipn (Z.to_nat start) text).
Proof.
  intros Hs Hc. unfold slice, adjust, len in *.
  destruct (Z.ltb_spec start 0); [lia|].
  destruct (Z.ltb_spec (Z.min (start + chunk_size) (Z.of_nat (List.length text))) 0);
    [lia|].
  replace (Z.to_nat (Z.min start (Z.of_nat (List.length text))))
    with (Z.to_nat start) by lia.
  set (rest := skipn (Z.to_nat start) text).
  assert (Hrest : List.length rest = (List.length text - Z.to_nat start)%nat)
    by apply length_skipn.
  destruct (Z.le_gt_cases (start + chunk_size) (Z.of_nat (List.length text))).
  - f_equal. lia.
  - rewrite !firstn_all2; [reflexivity | lia | lia].
Qed.

Lemma sliding_window_letters (fuel : nat) (text : pystr) :
  overlap <= 0 -> 0 < chunk_size ->
  forall (start : Z) (chunks res : list pystr),
    0 <= start ->
    sliding_window chunk_size overlap fuel text start chunks = Ret res ->
    letters_of res = letters_of chunks ++ letters (skipn (Z.to_nat start) text).
Proof.
  intros Hov Hcs. induction fuel as [|fuel IH];
    intros start chunks res Hstart Hret; [discriminate|].
  cbn [sliding_window] in Hret.
  destruct (Z.ltb_spec start (len text)) as [Hlt|Hge].
  2:{ injection Hret as <-. rewrite skipn_all2 by (unfold len in Hge; lia).
      simpl. now rewrite app_nil_r. }
  rewrite slice_window in Hret by lia.
  set (rest := skipn (Z.to_nat start) text) in *.
  set (piece := firstn (Z.to_nat chunk_size) rest) in *.
  destruct (Z.ltb_spec 0 overlap); [lia|].
  assert (Hchunks : letters_of (if truthy (strip piece)
                                then chunks ++ [strip piece] else chunks)
                    = letters_of chunks ++ letters piece).
  { change (if truthy (strip piece) then chunks ++ [strip piece] else chunks)
      with (flush chunks piece). apply letters_of_flush. }
  assert (Hsplit : letters rest
                   = letters piece
                       ++ letters (skipn (Z.to_nat (Z.min (start + chunk_size)
                                                          (len text))) text)).
  { rewrite <- letters_app. f_equal.
    rewrite <- (firstn_skipn (Z.to_nat chunk_size) rest) at 1.
    fold piece. f_equal. unfold rest. rewrite skipn_skipn.
    destruct (Z.le_gt_cases (start + chunk_size) (len text)).
    - f_equal. lia.
    - rewrite !skipn_all2; [reflexivity | unfold len in *; lia..]. }
  destruct (Z.leb_spec (len text) (Z.min (start + chunk_size) (len text)))
    as [Hend|Hmore].
  - injection Hret as <-. rewrite Hchunks, Hsplit.
    rewrite (skipn_all2 text) by (unfold len in *; lia).
    simpl. now rewrite app_nil_r.
  - apply IH in Hret; [|lia]. rewrite Hret, Hchunks, Hsplit.
    now rewrite <- app_assoc.
Qed.

(** The fallback, whatever the overlap and the chunk size. *)
Lemma sliding_window_letters_any (fuel : nat) (text : pystr) (res : list pystr) :
  sliding_window chunk_size overlap fuel text 0 [] = Ret res ->
  letters_of res = letters text.
Proof.
  intro Hret.
  destruct (Z.ltb_spec 0 overlap) as [Hov|Hov];
    [|destruct (Z.ltb_spec 0 chunk_size) as [Hcs|Hcs]].
  - destruct text as [|c text].
    + destruct fuel; [discriminate|]. simpl in Hret. now injection Hret as <-.
    + rewrite sliding_window_diverges in Hret;
        [discriminate | now left | unfold len; simpl; lia].
  - apply sliding_window_letters in Hret; [exact Hret | lia..].
  - destruct text as [|c text].
    + destruct fuel; [discriminate|]. simpl in Hret. now injection Hret as <-.
    + rewrite sliding_window_diverges in Hret;
        [discriminate | now right | unfold len; simpl; lia].
Qed.

Lemma accumulate_letters (rec : pystr -> outcome (list pystr)) (sep : pystr)
      (n : Z) (parts : list pystr) :
  (forall full res, rec full = Ret res -> letters_of res = letters full) ->
  forall (i : Z) (out : list pystr) (cur : pystr) (res : list pystr),
    accumulate chunk_size rec sep n i parts out cur = Ret res ->
    letters_of res
    = letters_of out ++ letters cur ++ letters (rest_text sep n i parts).
Proof.
  intro Hrec. induction parts as [|part more IH];
    intros i out cur res Hret; cbn [accumulate] in Hret.
  - injection Hret as <-. rewrite letters_of_flush. simpl.
    now rewrite app_nil_r.
  - cbn [rest_text]. set (full := part ++ (if i <? n - 1 then sep else [])) in *.
    rewrite letters_app.
    destruct (len (cur ++ full) <=? chunk_size).
    + apply IH in Hret. rewrite Hret, letters_app. now rewrite <- !app_assoc.
    + destruct (chunk_size <? len full).
      * apply bind_Ret_inv in Hret. destruct Hret as [sub [Hsub Hret]].
        apply IH in Hret. rewrite Hret, letters_of_app, letters_of_flush.
        rewrite (Hrec full sub Hsub). simpl. now rewrite <- !app_assoc.
      * apply IH in Hret. rewrite Hret, letters_of_flush.
        now rewrite <- !app_assoc.
Qed.

Lemma try_separators_letters (rec : pystr -> outcome (list pystr)) (fuel : nat)
      (text : pystr) (seps : list pystr) (res : list pystr) :
  (forall full res, rec full = Ret res -> letters_of res = letters full) ->
  try_separators chunk_size overlap rec fuel text seps = Ret res ->
  letters_of res = letters text.
Proof.
  intro Hrec. induction seps as [|sep more IH]; intro Hret;
    cbn [try_separators] in Hret.
  - now apply sliding_window_letters_any in Hret.
  - destruct (negb (contains sep text)); [now apply IH|].
    destruct sep as [|s0 sep]; [discriminate|].
    cbn [split bind] in Hret.
    destruct (list_len (split_nonempty (s0 :: sep) text) <? 2);
      [now apply IH|].
    apply (accumulate_letters rec) in Hret; [|exact Hrec].
    rewrite Hret. simpl.
    rewrite rest_text_join by lia.
    now rewrite join_split by discriminate.
Qed.

Lemma split_text_simple_letters (fuel : nat) (separators : list pystr) :
  forall (text : pystr) (res : list pystr),
    split_text_simple chunk_size overlap fuel text separators = Ret res ->
    letters_of res = letters text.
Proof.
  induction separators as [|sep rest IH]; intros text res Hret;
    cbn [split_text_simple] in Hret;
    (destruct (len text <=? chunk_size);
     [ injection Hret as <-;
       destruct (list_eq_dec N.eq_dec (strip text) []) as [Hs|Hs];
       [ rewrite Hs; simpl; now rewrite (letters_blank text Hs)
       | apply truthy_true in Hs; rewrite Hs; unfold letters_of; simpl;
         now rewrite app_nil_r ] |]).
  - cbn [try_separators] in Hret. now apply sliding_window_letters_any in Hret.
  - eapply try_separators_letters; [|exact Hret]. intros full r. apply IH.
Qed.

End Coverage.

Lemma locate_letters (text : pystr) (overlap : Z) (texts : list pystr) :
  forall (i cur : Z) (chunks : list raw_chunk),
    letters_of (map r_text (locate text overlap i texts cur chunks))
    = letters_of (map r_text chunks) ++ letters_of texts.
Proof.
  induction texts as [|t more IH]; intros i cur chunks; cbn [locate].
  - unfold letters_of at 3. simpl. now rewrite app_nil_r.
  - destruct (list_eq_dec N.eq_dec (strip t) []) as [Ht|Ht].
    + rewrite Ht. simpl negb. cbv iota. rewrite IH.
      unfold letters_of at 4. simpl. fold (letters_of more).
      now rewrite (letters_blank t Ht).
    + pose proof Ht as Htr. apply truthy_true in Htr. rewrite Htr.
      simpl negb. cbv iota. rewrite IH, map_app, letters_of_app.
      unfold letters_of at 2 4. simpl. fold (letters_of more).
      rewrite letters_strip. now rewrite app_nil_r, <- app_assoc.
Qed.

Lemma create_chunks_from_text_letters (fuel : nat) (text : pystr)
      (chunk_size overlap : Z) (separators : list pystr) (rs : list raw_chunk) :
  create_chunks_from_text fuel text chunk_size overlap separators = Ret rs ->
  letters_of (map r_text rs) = letters text.
Proof.
  intro Hret. unfold create_chunks_from_text in Hret.
  destruct (list_eq_dec N.eq_dec (strip text) []) as [Ht|Ht].
  - rewrite Ht in Hret. simpl in Hret. injection Hret as <-.
    now rewrite (letters_blank text Ht).
  - apply truthy_true in Ht. rewrite Ht in Hret. simpl in Hret.
    apply bind_Ret_inv in Hret. destruct Hret as [texts [Hsplit Hret]].
    injection Hret as <-. rewrite locate_letters. simpl.
    exact (split_text_simple_letters _ _ _ _ _ _ Hsplit).
Qed.

(** X7. [create_chunks_from_text] loses no text and repeats none: in a
    run that returns, whatever the sizes, the overlap and the
    separators, the characters of the chunks that are not white space,
    read chunk after chunk, are those of the text, in their order. *)
Theorem create_chunks_from_text_loses_no_text :
  forall (fuel : nat) (text : pystr) (chunk_size overlap : Z)
         (separators : list pystr) (rs : list raw_chunk),
    create_chunks_from_text fuel text chunk_size overlap separators = Ret rs ->
    letters_of (map r_text rs) = letters text.
Proof.
  intros fuel text chunk_size overlap separators rs Hret.
  unfold create_chunks_from_text in Hret.
  destruct (list_eq_dec N.eq_dec (strip text) []) as [Ht|Ht].
  - rewrite Ht in Hret. simpl in Hret. injection Hret as <-.
    now rewrite (letters_blank text Ht).
  - apply truthy_true in Ht. rewrite Ht in Hret. simpl in Hret.
    apply bind_Ret_inv in Hret. destruct Hret as [texts [Hsplit Hret]].
    injection Hret as <-. rewrite locate_letters. simpl.
    exact (split_text_simple_letters _ _ _ _ _ _ Hsplit).
Qed.

Lemma create_chunks_from_text_loses_no_text_witness :
  exists rs,
    create_chunks_from_text 10 (str "hello world. foo, bar baz") 12 3
                            production_separators = Ret rs
    /\ List.length rs = 3%nat
    /\ letters_of (map r_text rs) = str "helloworld.foo,barbaz".
Proof.
  eexists. split; [vm_compute; reflexivity|]. split; [reflexivity|].
  rewrite (create_chunks_from_text_loses_no_text
             10 (str "hello world. foo, bar baz") 12 3 production_separators);
    [reflexivity | vm_compute; reflexivity].
Defined.

Section CoverageHierarchy.

Variables (l0_size l0_overlap l1_size l1_overlap : Z).
Variable separators : list pystr.
Variable fuel : nat.

Lemma texts_of_level_app (l : level) (a b : list chunk) :
  texts_of_level l (a ++ b) = texts_of_level l a ++ texts_of_level l b.
Proof. unfold texts_of_level. now rewrite filter_app, map_app. Qed.

Lemma texts_of_l1_chunks (l : level) (doc : document) (l0 : raw_chunk)
      (l0_id : pystr) (l1s : list raw_chunk) :
  forall idx,
    texts_of_level l (l1_chunks doc l0 l0_id idx l1s)
    = match l with L0 => [] | L1 => map r_text l1s end.
Proof.
  induction l1s as [|l1 more IH]; intro idx; simpl.
  - now destruct l.
  - unfold texts_of_level in *. simpl. specialize (IH (idx + 1)).
    destruct l; simpl; [exact IH | now rewrite IH].
Qed.

Lemma emit_l0s_letters (l : level) (doc : document) (l0s : list raw_chunk) :
  forall (l0_idx : Z) (out res : list chunk),
    emit_l0s l1_size l1_overlap separators fuel doc l0_idx l0s out = Ret res ->
    letters_of (texts_of_level l res)
    = letters_of (texts_of_level l out) ++ letters_of (map r_text l0s).
Proof.
  induction l0s as [|l0 more IH]; intros l0_idx out res Hret;
    cbn [emit_l0s] in Hret.
  - injection Hret as <-. unfold letters_of at 3. simpl.
    now rewrite app_nil_r.
  - apply bind_Ret_inv in Hret. destruct Hret as [split [Hsplit Hret]].
    apply IH in Hret. rewrite Hret. rewrite emit_l1s_app.
    rewrite !texts_of_level_app, !letters_of_app, texts_of_l1_chunks.
    rewrite <- !app_assoc. f_equal.
    unfold letters_of at 4. simpl. fold (letters_of (map r_text more)).
    rewrite app_assoc. f_equal.
    apply create_chunks_from_text_letters in Hsplit.
    destruct l.
    + unfold texts_of_level, letters_of. simpl. now rewrite !app_nil_r.
    + unfold texts_of_level at 1. simpl. unfold letters_of at 1. simpl.
      destruct split as [|l1 split'].
      * simpl in Hsplit |- *. unfold letters_of. simpl. now rewrite app_nil_r.
      * exact Hsplit.
Qed.

Lemma emit_documents_letters (l : level) (documents : list document) :
  forall (out res : list chunk),
    emit_documents l0_size l0_overlap l1_size l1_overlap separators fuel
                   documents out = Ret res ->
    letters_of (texts_of_level l res)
    = letters_of (texts_of_level l out)
        ++ letters_of (map (fun doc => preprocess_text_for_chunking (doc_text doc))
                           documents).
Proof.
  induction documents as [|doc more IH]; intros out res Hret;
    cbn [emit_documents] in Hret.
  - injection Hret as <-. unfold letters_of at 3. simpl.
    now rewrite app_nil_r.
  - apply bind_Ret_inv in Hret. destruct Hret as [l0s [Hl0s Hret]].
    apply create_chunks_from_text_letters in Hl0s.
    unfold letters_of at 3. simpl.
    fold (letters_of (map (fun doc => preprocess_text_for_chunking (doc_text doc))
                          more)).
    rewrite <- Hl0s.
    destruct l0s as [|l0 l0s].
    + apply IH in Hret. rewrite Hret. reflexivity.
    + apply bind_Ret_inv in Hret. destruct Hret as [out' [Hout' Hret]].
      apply IH in Hret. rewrite Hret.
      rewrite (emit_l0s_letters l doc _ _ _ _ Hout').
      now rewrite <- app_assoc.
Qed.

End CoverageHierarchy.

(** X8. Both levels of the hierarchy hold the whole text, once: in a run
    of [create_hierarchical_chunks] that returns, the characters that
    are not white space of the L0 chunks, read in the order of the
    output, are those of the preprocessed texts of the documents, in
    their order; and so are those of the L1 chunks. *)
Theorem hierarchy_loses_no_text :
  forall (l0_size l0_overlap l1_size l1_overlap : Z) (separators : list pystr)
         (fuel : nat) (documents : list document) (out : list chunk)
         (l : level),
    create_hierarchical_chunks l0_size l0_overlap l1_size l1_overlap separators
                               fuel documents = Ret out ->
    letters_of (texts_of_level l out)
    = letters_of (map (fun doc => preprocess_text_for_chunking (doc_text doc))
                      documents).
Proof.
  intros l0_size l0_overlap l1_size l1_overlap separators fuel documents out l
         Hret.
  unfold create_hierarchical_chunks in Hret.
  apply (emit_documents_letters _ _ _ _ _ _ l) in Hret.
  exact Hret.
Qed.

Lemma hierarchy_loses_no_text_witness :
  exists out,
    create_hierarchical_chunks 12 3 6 1 production_separators 10 [example_doc]
    = Ret out
    /\ letters_of (texts_of_level L0 out) = str "helloworld.foo,barbaz"
    /\ letters_of (texts_of_level L1 out) = str "helloworld.foo,barbaz".
Proof.
  eexists. split; [vm_compute; reflexivity|]. split.
  - rewrite (hierarchy_loses_no_text 12 3 6 1 production_separators 10
                                     [example_doc] _ L0);
      [reflexivity | vm_compute; reflexivity].
  - rewrite (hierarchy_loses_no_text 12 3 6 1 production_separators 10
                                     [example_doc] _ L1);
      [reflexivity | vm_compute; reflexivity].
Defined.

End CoverageFacts.

(* ================================================================= *)
(** * The page header and the offsets of the highlights *)

Module HeaderFacts.

Import Highlight HighlightSpec Header PyStrFacts HighlightFacts ChunkFacts.

Lemma split_go_line (h : pystr) :
  forall (acc rest : pystr),
    ~ In 10%N h ->
    split_go newline 0 acc (h ++ 10%N :: rest)
    = (rev acc ++ h) :: split_go newline 0 [] rest.
Proof.
  induction h as [|c h IH]; intros acc rest Hh.
  - simpl. now rewrite app_nil_r.
  - cbn [app split_go startswith newline].
    destruct (N.eqb_spec 10 c) as [Heq|Hc]; [exfalso; apply Hh; left; now symmetry|].
    simpl andb. cbv iota. rewrite IH by (intro; apply Hh; now right).
    simpl. now rewrite <- app_assoc.
Qed.

Lemma lstrip_app_keep (a q : pystr) :
  lstrip q = q -> q <> [] -> exists r, lstrip (a ++ q) = r ++ q.
Proof.
  intros Hq Hne. induction a as [|c a [r IH]].
  - exists []. exact Hq.
  - simpl. destruct (is_space c).
    + exists r. exact IH.
    + now exists (c :: a).
Qed.

Lemma rstrip_app_keep (p r : pystr) :
  rstrip p = p -> p <> [] -> exists r', rstrip (p ++ r) = p ++ r'.
Proof.
  intros Hp Hne. unfold rstrip in *.
  destruct (lstrip_app_keep (rev r) (rev p)) as [x Hx].
  - apply (f_equal (@rev N)) in Hp. now rewrite rev_involutive in Hp.
  - intro H. apply Hne. apply (f_equal (@rev N)) in H.
    now rewrite rev_involutive in H.
  - exists (rev x). rewrite rev_app_distr, Hx, rev_app_distr.
    now rewrite rev_involutive.
Qed.

Lemma header_line_is_dropped (source_file : pystr) :
  startswith (str "SOURCE FILE:") (strip (str "SOURCE FILE: " ++ source_file))
  = true.
Proof.
  unfold strip.
  change (lstrip (str "SOURCE FILE: " ++ source_file))
    with (str "SOURCE FILE:" ++ 32%N :: source_file).
  destruct (rstrip_app_keep (str "SOURCE FILE:") (32%N :: source_file))
    as [r' ->]; [reflexivity | discriminate|].
  apply startswith_app.
Qed.

Lemma lstrip_drop_leading_newlines (s : pystr) :
  lstrip (drop_leading_newlines s) = lstrip s.
Proof.
  induction s as [|c s IH]; [reflexivity|].
  cbn [drop_leading_newlines].
  destruct (startswith (newline ++ newline ++ newline) (c :: s)) eqn:Hst;
    [|reflexivity].
  apply startswith_prefix in Hst. simpl in Hst. injection Hst as -> _.
  exact IH.
Qed.

Lemma filter_all {A} (f : A -> bool) (l : list A) :
  Forall (fun x => f x = true) l -> filter f l = l.
Proof.
  induction 1 as [|x l Hx _ IH]; simpl; [reflexivity|].
  now rewrite Hx, IH.
Qed.

Lemma strip_drop_leading_newlines (s : pystr) :
  strip (drop_leading_newlines s) = strip s.
Proof. unfold strip. now rewrite lstrip_drop_leading_newlines. Qed.

(** The lines that are left of a page with its header: an empty line,
    then the page. *)
Lemma header_lines_filtered (source_file body : pystr) :
  ~ In 10%N source_file ->
  no_header_line body ->
  join newline
       (filter (fun ln => negb (startswith (str "SOURCE FILE:") (strip ln)))
               (split_nonempty newline (with_source_header source_file body)))
  = 10%N :: body.
Proof.
  intros Hf Hbody. unfold with_source_header, source_header, split_nonempty.
  replace ((str "SOURCE FILE: " ++ source_file ++ newline ++ newline) ++ body)
    with ((str "SOURCE FILE: " ++ source_file) ++ 10%N :: [] ++ 10%N :: body)
    by (unfold newline; repeat (rewrite <- app_assoc; simpl); reflexivity).
  rewrite split_go_line.
  2:{ intro Hin. apply in_app_or in Hin. destruct Hin as [Hin|Hin];
      [|now apply Hf].
      simpl in Hin. repeat (destruct Hin as [Hin|Hin]; [discriminate|]).
      exact Hin. }
  rewrite split_go_line by (intros []).
  cbn [rev app filter].
  rewrite header_line_is_dropped. cbn [negb].
  change (strip []) with (@nil N).
  change (startswith (str "SOURCE FILE:") []) with false. cbn [negb].
  rewrite filter_all.
  2:{ eapply Forall_impl; [|exact Hbody]. simpl. intros ln ->. reflexivity. }
  rewrite join_cons by apply split_go_nonempty.
  now rewrite join_split_go by discriminate.
Qed.

(** X9. The header that [upload_file] puts before a page is taken off
    again by [preprocess_text_for_chunking]: when the file name holds no
    newline and no line of the page looks like a header, the text that
    is chunked is the page, stripped. *)
Theorem preprocess_removes_source_header :
  forall (source_file body : pystr),
    ~ In 10%N source_file ->
    no_header_line body ->
    preprocess_text_for_chunking (Some (with_source_header source_file body))
    = strip body.
Proof.
  intros source_file body Hf Hbody. unfold preprocess_text_for_chunking.
  rewrite header_lines_filtered by assumption.
  rewrite strip_drop_leading_newlines. reflexivity.
Qed.

Lemma preprocess_removes_source_header_witness :
  preprocess_text_for_chunking
    (Some (with_source_header (str "a.pdf") (str " hello world. foo, bar baz ")))
  = str "hello world. foo, bar baz".
Proof.
  rewrite (preprocess_removes_source_header
             (str "a.pdf") (str " hello world. foo, bar baz "));
    [reflexivity | | repeat constructor].
  simpl. intros [H|[H|[H|[H|[H|[]]]]]]; discriminate.
Defined.

(** ** From the stored spans to the spans of the answer *)

Lemma to_highlight_span_fields (header_len : Z) (s : span_dict)
      (h : RAGHighlightSpan) :
  to_highlight_span header_len s = Ret h ->
  hl_start h = or_zero (sd_start s) + header_len
  /\ hl_end h = or_zero (sd_end s) + header_len
  /\ sd_text s = Some (hl_text h)
  /\ hl_score h = sd_score s
  /\ hl_chunk_level h = sd_chunk_level s.
Proof.
  unfold to_highlight_span.
  destruct (sd_kb_id s), (sd_source_file s), (sd_page s), (sd_text s);
    try discriminate.
  intros [= <-]. simpl. repeat split.
Qed.

Lemma group_spans_inv (P : RAGHighlightSpan -> Prop) (header_len : Z)
      (spans : list span_dict) :
  Forall (fun s => forall h, to_highlight_span header_len s = Ret h -> P h)
         spans ->
  forall (l0_obj : option RAGHighlightSpan) (l1_list : list RAGHighlightSpan)
         (r : option RAGHighlightSpan * list RAGHighlightSpan),
    group_spans header_len spans l0_obj l1_list = Ret r ->
    (forall h, l0_obj = Some h -> P h) -> Forall P l1_list ->
    (forall h, fst r = Some h -> P h) /\ Forall P (snd r).
Proof.
  induction 1 as [|s more Hs _ IH]; intros l0_obj l1_list r Hret H0 H1.
  - injection Hret as <-. now split.
  - cbn [group_spans] in Hret.
    apply bind_Ret_inv in Hret. destruct Hret as [span [Hspan Hret]].
    specialize (Hs span Hspan).
    destruct (_ && _) in Hret.
    + eapply IH; [exact Hret | | exact H1]. now intros h [= <-].
    + destruct (match hl_chunk_level span with Some _ => _ | None => _ end)
        in Hret.
      * eapply IH; [exact Hret | exact H0|].
        apply Forall_app. split; [exact H1 | now constructor].
      * eapply IH; [exact Hret | exact H0 | exact H1].
Qed.

(** X10. The offsets of the highlights of an answer point into the
    stored page.  Let a page be stored with its header, its file name
    without a newline, its text without a line that looks like a header
    and without white space in front; let the chunker run on it with
    overlaps that are not negative, and let the locator hand over spans
    read from those chunks.  Then every span of the group that
    [_build_highlight_group_for_hit] builds from them has the slice of
    the stored page from its [start] to its [end] as its text. *)
Theorem highlight_offsets_point_at_text :
  forall (l0_size l0_overlap l1_size l1_overlap : Z) (separators : list pystr)
         (fuel : nat) (id : pystr) (md : metadata) (source_file body : pystr)
         (out : list chunk) (spans : list span_dict) (g : RAGHighlightGroup)
         (h : RAGHighlightSpan),
    0 <= l0_overlap -> 0 <= l1_overlap ->
    ~ In 10%N source_file ->
    no_header_line body ->
    lstrip body = body ->
    create_hierarchical_chunks
      l0_size l0_overlap l1_size l1_overlap separators fuel
      [mk_document id (Some (with_source_header source_file body)) md]
    = Ret out ->
    Forall (fun s => exists c, In c out /\ span_of_chunk c s) spans ->
    _build_highlight_group_for_hit (Ret spans) source_file = Ret g ->
    l0_chunk g = Some h \/ In h (l1_chunks g) ->
    slice (with_source_header source_file body) (hl_start h) (hl_end h)
    = hl_text h.
Proof.
  intros l0_size l0_overlap l1_size l1_overlap separators fuel id md
         source_file body out spans g h H0 H1 Hf Hbody Hlead Hout Hspans
         Hg Hh.
  pose proof (chunks_stand_in _ _ _ _ _ _ _ _ H0 H1 Hout) as Hstand.
  rewrite Forall_forall in Hstand.
  set (P := fun h : RAGHighlightSpan =>
              slice (with_source_header source_file body)
                    (hl_start h) (hl_end h) = hl_text h).
  assert (HP : Forall (fun s => forall h,
                         to_highlight_span (len (source_header source_file)) s
                         = Ret h -> P h) spans).
  { eapply Forall_impl; [|exact Hspans].
    intros s [c [Hc [Hs [He Ht]]]] h' Hh'.
    apply to_highlight_span_fields in Hh'.
    destruct Hh' as [Hhs [Hhe [Hht _]]].
    rewrite Hs in Hhs. rewrite He in Hhe. rewrite Ht in Hht.
    injection Hht as Hht. simpl in Hhs, Hhe.
    destruct (Hstand c Hc) as [doc [p [Hdoc [_ [Hcs [Hce Hocc]]]]]].
    destruct Hdoc as [<-|[]]. simpl in Hocc.
    unfold preprocess_text_for_chunking in Hocc.
    rewrite header_lines_filtered, strip_drop_leading_newlines in Hocc
      by assumption.
    change (strip (10%N :: body)) with (rstrip (lstrip body)) in Hocc.
    rewrite Hlead in Hocc.
    destruct (rstrip_prefix body) as [post Hpost].
    apply (occurs_inside (source_header source_file) _ post) in Hocc.
    rewrite <- Hpost in Hocc. apply slice_occurs in Hocc.
    unfold P, with_source_header. rewrite Hhs, Hhe, Hcs, Hce, <- Hht.
    etransitivity; [|exact Hocc]. f_equal; unfold len; lia. }
  unfold _build_highlight_group_for_hit in Hg. cbn [try_fetch bind] in Hg.
  apply bind_Ret_inv in Hg. destruct Hg as [r [Hr Hg]].
  injection Hg as <-. simpl in Hh.
  destruct (group_spans_inv P _ _ HP None [] r Hr) as [Hl0 Hl1];
    [discriminate | constructor|].
  destruct Hh as [Hh|Hh]; [now apply Hl0|].
  rewrite Forall_forall in Hl1. apply Hl1.
  eapply Permutation_in; [|exact Hh].
  apply PyListFacts.sorted_reverse_perm.
Qed.

Lemma highlight_offsets_point_at_text_witness :
  slice (with_source_header (str "a.pdf") (str "hello world. foo, bar baz"))
        26 32
  = str "world.".
Proof.
  eapply (highlight_offsets_point_at_text
            12 3 6 1 production_separators 10 (str "d1") []
            (str "a.pdf") (str "hello world. foo, bar baz")
            _ example_spans _ example_highlight).
  - lia.
  - lia.
  - simpl. intros [H|[H|[H|[H|[H|[]]]]]]; discriminate.
  - repeat constructor.
  - reflexivity.
  - vm_compute. reflexivity.
  - constructor; [|constructor; [|constructor]].
    + eexists. split; [right; right; left; reflexivity | repeat split].
    + eexists. split; [right; right; right; left; reflexivity | repeat split].
  - vm_compute. reflexivity.
  - left. reflexivity.
Defined.

End HeaderFacts.

(* ================================================================= *)
(** * Batches *)

Module BatchFacts.

Import Batches PyStrFacts.

Lemma estimate_tokens_nonneg (s : pystr) : 0 <= _estimate_tokens s.
Proof. unfold _estimate_tokens. destruct (truthy s); lia. Qed.

Section ChunkBatches.

Variable A : Type.
Variable get_text : A -> option pystr.
Variables (max_tokens max_items : Z).

Local Abbreviation tok c := (_estimate_tokens (text_or_empty A get_text c)).
Local Abbreviation tokens := (batch_tokens A get_text).
Local Abbreviation loop := (batch_loop A get_text max_tokens max_items).

Lemma batch_tokens_app (b : list A) (c : A) :
  tokens (b ++ [c]) = tokens b + tok c.
Proof.
  induction b as [|x b IH]; simpl; [lia|]. rewrite IH. lia.
Qed.

(** One turn of the loop, as a case distinction. *)
Lemma batch_loop_step (c : A) (more batch : list A) (token_sum : Z)
      (yielded : list (list A)) :
  (batch <> []
   /\ (max_tokens < token_sum + tok c \/ max_items <= list_len batch)
   /\ loop (c :: more) batch token_sum yielded
      = loop more [c] (0 + tok c) (yielded ++ [batch]))
  \/ ((batch = [] \/ (token_sum + tok c <= max_tokens
                      /\ list_len batch < max_items))
      /\ loop (c :: more) batch token_sum yielded
         = loop more (batch ++ [c]) (token_sum + tok c) yielded).
Proof.
  cbn [batch_loop]. destruct batch as [|x batch].
  - right. split; [now left | reflexivity].
  - destruct (Z.ltb_spec max_tokens (token_sum + tok c)) as [Ht|Ht];
      [left; split; [discriminate | split; [now left | reflexivity]]|].
    destruct (Z.leb_spec max_items (list_len (x :: batch))) as [Hi|Hi];
      [left; split; [discriminate | split; [now right | reflexivity]]|].
    right. split; [right; split; assumption | reflexivity].
Qed.

Lemma batch_loop_concat (chunks : list A) :
  forall (batch : list A) (token_sum : Z) (yielded : list (list A)),
    List.concat (loop chunks batch token_sum yielded)
    = List.concat yielded ++ batch ++ chunks.
Proof.
  induction chunks as [|c more IH]; intros batch token_sum yielded.
  - simpl. destruct batch; [now rewrite app_nil_r|].
    rewrite concat_app. simpl. now rewrite !app_nil_r.
  - destruct (batch_loop_step c more batch token_sum yielded)
      as [[_ [_ ->]]|[_ ->]]; rewrite IH.
    + rewrite concat_app. simpl. now rewrite app_nil_r, <- app_assoc.
    + now rewrite <- app_assoc.
Qed.

Lemma batch_loop_all (P : list A -> Prop) (chunks : list A) :
  (forall c, P [c]) ->
  (forall b c, b <> [] -> P b ->
               tokens b + tok c <= max_tokens -> list_len b < max_items ->
               P (b ++ [c])) ->
  forall (batch : list A) (token_sum : Z) (yielded : list (list A)),
    token_sum = tokens batch ->
    (batch <> [] -> P batch) ->
    Forall P yielded ->
    Forall P (loop chunks batch token_sum yielded).
Proof.
  intros Hone Hadd. induction chunks as [|c more IH];
    intros batch token_sum yielded Hsum Hb Hy.
  - simpl. destruct batch; [exact Hy|].
    apply Forall_app. split; [exact Hy|].
    constructor; [now apply Hb | constructor].
  - destruct (batch_loop_step c more batch token_sum yielded)
      as [[Hne [_ ->]]|[Hfit ->]]; apply IH.
    + simpl. lia.
    + intros _. apply Hone.
    + apply Forall_app. split; [exact Hy|].
      constructor; [now apply Hb | constructor].
    + rewrite batch_tokens_app. lia.
    + intros _. destruct Hfit as [->|[Ht Hi]]; [apply Hone|].
      destruct batch as [|x batch]; [apply Hone|].
      apply Hadd; [discriminate | now apply Hb | lia | exact Hi].
    + exact Hy.
Qed.

Lemma forced_cuts_snoc (batches : list (list A)) (b : list A) (c : A) :
  forced_cuts A get_text max_tokens max_items (batches ++ [b]) ->
  forced A get_text max_tokens max_items b c ->
  forall rest, forced_cuts A get_text max_tokens max_items
                           (batches ++ [b] ++ [c :: rest]).
Proof.
  intros Hcuts Hf rest. induction batches as [|b1 batches IH].
  - simpl. split; [|exact I]. now exists c, rest.
  - destruct batches as [|b2 batches].
    + simpl in Hcuts |- *. destruct Hcuts as [H1 _].
      split; [exact H1|]. split; [|exact I]. now exists c, rest.
    + cbn [app forced_cuts] in Hcuts |- *. destruct Hcuts as [H1 H2].
      split; [exact H1|]. apply IH, H2.
Qed.

Lemma forced_cuts_last (batches : list (list A)) (c0 : A) (b : list A) (c : A) :
  forced_cuts A get_text max_tokens max_items (batches ++ [c0 :: b]) ->
  forced_cuts A get_text max_tokens max_items (batches ++ [(c0 :: b) ++ [c]]).
Proof.
  induction batches as [|b1 batches IH]; [trivial|].
  destruct batches as [|b2 batches].
  - simpl. intros [[x [rest [[= <- <-] Hf]]] _].
    split; [|exact I]. now exists c0, (b ++ [c]).
  - cbn [app forced_cuts]. intros [H1 H2]. split; [exact H1|].
    apply IH, H2.
Qed.

Lemma batch_loop_forced (chunks : list A) :
  forall (batch : list A) (token_sum : Z) (yielded : list (list A)),
    token_sum = tokens batch ->
    (batch = [] -> yielded = []) ->
    forced_cuts A get_text max_tokens max_items
                (yielded ++ match batch with [] => [] | _ :: _ => [batch] end) ->
    forced_cuts A get_text max_tokens max_items
                (loop chunks batch token_sum yielded).
Proof.
  induction chunks as [|c more IH]; intros batch token_sum yielded Hsum He Hc.
  - simpl. destruct batch; [now rewrite app_nil_r in Hc | exact Hc].
  - destruct (batch_loop_step c more batch token_sum yielded)
      as [[Hne [Hforce ->]]|[Hfit ->]]; apply IH.
    + simpl. lia.
    + discriminate.
    + destruct batch as [|x batch]; [contradiction|].
      rewrite <- app_assoc. apply forced_cuts_snoc; [exact Hc|].
      unfold forced. rewrite <- Hsum. exact Hforce.
    + rewrite batch_tokens_app. lia.
    + intros H. now destruct batch.
    + destruct batch as [|x batch].
      * rewrite (He eq_refl). exact I.
      * now apply forced_cuts_last.
Qed.

End ChunkBatches.

(** X11. [generate_chunk_batches] loses nothing and invents nothing: the
    batches, one after the other, are the chunks in their order, and no
    batch is empty. *)
Theorem generate_chunk_batches_partition :
  forall (A : Type) (get_text : A -> option pystr) (chunks : list A)
         (max_tokens_per_req max_items_per_req : Z),
    List.concat (generate_chunk_batches A get_text chunks max_tokens_per_req
                                        max_items_per_req)
    = chunks
    /\ Forall (fun batch => batch <> [])
              (generate_chunk_batches A get_text chunks max_tokens_per_req
                                      max_items_per_req).
Proof.
  intros A get_text chunks mt mi. unfold generate_chunk_batches. split.
  - now rewrite batch_loop_concat.
  - apply batch_loop_all.
    + discriminate.
    + intros b c Hb _ _ _ H. now destruct b.
    + reflexivity.
    + trivial.
    + constructor.
Qed.

(** X12. Every batch of [generate_chunk_batches] keeps the limits, but for
    a chunk that is alone in its batch: a batch holds at most
    [max_items_per_req] chunks, or exactly one, and its estimated tokens
    are at most [max_tokens_per_req], or it holds exactly one chunk. *)
Theorem generate_chunk_batches_limits :
  forall (A : Type) (get_text : A -> option pystr) (chunks : list A)
         (max_tokens_per_req max_items_per_req : Z),
    Forall (fun batch =>
              (list_len batch <= max_items_per_req \/ list_len batch = 1)
              /\ (batch_tokens A get_text batch <= max_tokens_per_req
                  \/ list_len batch = 1))
           (generate_chunk_batches A get_text chunks max_tokens_per_req
                                   max_items_per_req).
Proof.
  intros A get_text chunks mt mi. unfold generate_chunk_batches.
  apply batch_loop_all.
  - intro c. split; now right.
  - intros b c Hb _ Ht Hi. split; left.
    + unfold list_len in *. rewrite length_app. simpl. lia.
    + rewrite batch_tokens_app. exact Ht.
  - reflexivity.
  - intros H. now contradiction H.
  - constructor.
Qed.

(** X13. [generate_chunk_batches] closes a batch only when it has to:
    every batch but the first starts with a chunk that would have taken
    the batch before it over the limit of tokens, or that found it with
    [max_items_per_req] chunks or more. *)
Theorem generate_chunk_batches_greedy :
  forall (A : Type) (get_text : A -> option pystr) (chunks : list A)
         (max_tokens_per_req max_items_per_req : Z),
    forced_cuts A get_text max_tokens_per_req max_items_per_req
                (generate_chunk_batches A get_text chunks max_tokens_per_req
                                        max_items_per_req).
Proof.
  intros A get_text chunks mt mi. unfold generate_chunk_batches.
  apply batch_loop_forced; [reflexivity | reflexivity | exact I].
Qed.

(** ** [generate_batches] *)

Lemma firstn_min_length {A} (n : nat) (l : list A) :
  firstn (Nat.min n (List.length l)) l = firstn n l.
Proof.
  destruct (Nat.le_ge_cases n (List.length l)) as [H|H].
  - now rewrite Nat.min_l.
  - rewrite Nat.min_r by exact H. now rewrite firstn_all, firstn_all2.
Qed.

Lemma list_slice_window {A} (l : list A) (ndx n : Z) :
  0 <= ndx -> 0 < n ->
  list_slice l ndx (Z.min (ndx + n) (list_len l))
  = firstn (Z.to_nat n) (skipn (Z.to_nat ndx) l).
Proof.
  intros Hndx Hn. unfold list_slice, adjust, list_len.
  destruct (Z.ltb_spec ndx 0); [lia|].
  destruct (Z.ltb_spec (Z.min (ndx + n) (Z.of_nat (List.length l))) 0); [lia|].
  destruct (Z.le_gt_cases (Z.of_nat (List.length l)) ndx) as [Hout|Hin].
  - rewrite !skipn_all2 by lia. now rewrite !firstn_nil.
  - replace (Z.to_nat (Z.min ndx (Z.of_nat (List.length l))))
      with (Z.to_nat ndx) by lia.
    rewrite <- (firstn_min_length (Z.to_nat n)). f_equal.
    rewrite length_skipn. lia.
Qed.

Lemma concat_windows {A} (n : nat) :
  (0 < n)%nat ->
  forall (k : nat) (l : list A),
    (List.length l <= k * n)%nat ->
    List.concat (map (fun i => firstn n (skipn (i * n) l)) (seq 0 k)) = l.
Proof.
  intro Hn. induction k as [|k IH]; intros l Hl.
  - destruct l; [reflexivity | simpl in Hl; lia].
  - cbn [seq map List.concat]. rewrite <- seq_shift, map_map.
    etransitivity; [|apply (firstn_skipn n l)]. f_equal.
    etransitivity;
      [|apply (IH (skipn n l)); rewrite length_skipn; lia].
    f_equal. apply map_ext. intro i. rewrite skipn_skipn. do 2 f_equal. lia.
Qed.

Lemma ceil_bounds (ln n : Z) :
  0 <= ln -> 0 < n ->
  ln <= ((ln + n - 1) / n) * n /\ (((ln + n - 1) / n) - 1) * n < ln.
Proof.
  intros Hln Hn.
  pose proof (Z.div_mod (ln + n - 1) n ltac:(lia)) as Hdm.
  pose proof (Z.mod_pos_bound (ln + n - 1) n Hn). nia.
Qed.

(** X14. For a positive [n], [generate_batches] cuts the list into
    consecutive batches: put together they give the list back, none is
    empty, none holds more than [n] elements, and every batch but the
    last holds exactly [n]. *)
Theorem generate_batches_partition :
  forall (A : Type) (iterable : list A) (n : Z),
    0 < n ->
    exists batches,
      generate_batches iterable n = Ret batches
      /\ List.concat batches = iterable
      /\ Forall (fun b => 0 < list_len b <= n) batches
      /\ forall (i : nat) (b : list A),
          nth_error batches i = Some b ->
          (i + 1 < List.length batches)%nat ->
          list_len b = n.
Proof.
  intros A l n Hn. unfold generate_batches, range_from_zero.
  destruct (Z.eqb_spec n 0); [lia|].
  destruct (Z.ltb_spec 0 n); [|lia].
  eexists. split; [reflexivity|].
  rewrite map_map.
  set (ln := list_len l).
  set (k := Z.to_nat ((ln + n - 1) / n)).
  assert (Hln : 0 <= ln) by (unfold ln, list_len; lia).
  destruct (ceil_bounds ln n Hln Hn) as [Hup Hlow].
  assert (Hk : Z.of_nat k = (ln + n - 1) / n).
  { unfold k. rewrite Z2Nat.id; [reflexivity|].
    apply Z.div_pos; lia. }
  assert (Hf : forall i : nat,
             list_slice l (Z.of_nat i * n) (Z.min (Z.of_nat i * n + n) ln)
             = firstn (Z.to_nat n) (skipn (i * Z.to_nat n) l)).
  { intro i. unfold ln. rewrite list_slice_window by lia.
    do 2 f_equal. lia. }
  rewrite (map_ext _ _ Hf).
  split; [|split].
  - apply concat_windows; [lia|]. unfold ln, list_len in *. nia.
  - apply Forall_forall. intros b Hb. apply in_map_iff in Hb.
    destruct Hb as [i [<- Hi]]. apply in_seq in Hi.
    unfold list_len. rewrite length_firstn, length_skipn.
    unfold ln, list_len in *. nia.
  - intros i b Hb Hi. rewrite length_map, length_seq in Hi.
    rewrite nth_error_map in Hb.
    rewrite nth_error_seq in Hb.
    destruct (Nat.ltb_spec i k); [|lia]. simpl in Hb. injection Hb as <-.
    unfold list_len. rewrite length_firstn, length_skipn.
    unfold ln, list_len in *. nia.
Qed.

Lemma generate_batches_partition_witness :
  exists batches,
    generate_batches [1; 2; 3; 4; 5] 2 = Ret batches
    /\ List.concat batches = [1; 2; 3; 4; 5]
    /\ Forall (fun b => 0 < list_len b <= 2) batches
    /\ forall (i : nat) (b : list Z),
        nth_error batches i = Some b ->
        (i + 1 < List.length batches)%nat ->
        list_len b = 2.
Proof.
  apply (generate_batches_partition Z [1; 2; 3; 4; 5] 2). lia.
Defined.

(** X15. A step that is not positive gives no batch: with [n = 0] the
    call raises [ValueError], and with a negative [n] it returns without
    a single batch, whatever the list holds. *)
Theorem generate_batches_without_step :
  forall (A : Type) (iterable : list A) (n : Z),
    n <= 0 ->
    generate_batches iterable n
    = if n =? 0 then Raise ValueError else Ret [].
Proof.
  intros A l n Hn. unfold generate_batches, range_from_zero.
  destruct (Z.eqb_spec n 0); [reflexivity|].
  destruct (Z.ltb_spec 0 n); [lia | reflexivity].
Qed.

Lemma generate_batches_without_step_witness :
  generate_batches [1; 2; 3] (-2) = Ret [].
Proof.
  apply (generate_batches_without_step Z [1; 2; 3] (-2)). lia.
Defined.

End BatchFacts.

(* ================================================================= *)
(** * The conversation and the rewritten query *)

Module ContextFacts.

Import QueryRewrite Context PyStrFacts.

Lemma collect_messages_app (context : list ConversationTurn) :
  forall msgs : list message,
    collect_messages context msgs = msgs ++ collect_messages context [].
Proof.
  induction context as [|turn more IH]; intro msgs; cbn [collect_messages].
  - now rewrite app_nil_r.
  - rewrite IH. symmetry. rewrite IH. symmetry.
    destruct (truthy (strip (user_query turn)));
      destruct (truthy (strip (system_response turn)));
      simpl; now rewrite <- ?app_assoc.
Qed.

Lemma turn_messages (turn : ConversationTurn) :
  exists ms,
    (forall more, process_context (turn :: more) = ms ++ process_context more)
    /\ Forall (fun m => (role m = str "user" \/ role m = str "assistant")
                        /\ content m <> []
                        /\ strip (content m) = content m) ms
    /\ (List.length ms <= 2)%nat
    /\ (ms = [] <-> blank_turn turn).
Proof.
  exists ((if truthy (strip (user_query turn))
           then [mk_message (str "user") (strip (user_query turn))] else [])
            ++ (if truthy (strip (system_response turn))
                then [mk_message (str "assistant") (strip (system_response turn))]
                else [])).
  split.
  { intro more. unfold process_context. cbn [collect_messages].
    rewrite collect_messages_app.
    destruct (truthy (strip (user_query turn)));
      destruct (truthy (strip (system_response turn))); reflexivity. }
  unfold blank_turn.
  destruct (list_eq_dec N.eq_dec (strip (user_query turn)) []) as [Hu|Hu];
    destruct (list_eq_dec N.eq_dec (strip (system_response turn)) [])
      as [Hs|Hs].
  - rewrite Hu, Hs. simpl. split; [constructor|]. split; [lia|].
    split; [now split | reflexivity].
  - rewrite Hu. simpl. apply truthy_true in Hs as Ht. rewrite Ht.
    split; [|split; [simpl; lia | split; [discriminate | now intros [_ H]]]].
    constructor; [|constructor]. simpl.
    split; [now right|]. split; [exact Hs | apply strip_idem].
  - rewrite Hs. apply truthy_true in Hu as Ht. rewrite Ht. simpl.
    split; [|split; [lia | split; [discriminate | now intros [H _]]]].
    constructor; [|constructor]. simpl.
    split; [now left|]. split; [exact Hu | apply strip_idem].
  - apply truthy_true in Hu as Htu. apply truthy_true in Hs as Hts.
    rewrite Htu, Hts. simpl.
    split; [|split; [lia | split; [discriminate | now intros [H _]]]].
    constructor; [|constructor; [|constructor]]; simpl.
    + split; [now left|]. split; [exact Hu | apply strip_idem].
    + split; [now right|]. split; [exact Hs | apply strip_idem].
Qed.

(** X16. The history [process_context] builds holds only messages of the
    roles [user] and [assistant], each with a content that is not empty
    and has no white space around it, at most two for a turn; and it is
    empty exactly when every turn of the context is blank. *)
Theorem process_context_messages :
  forall context : list ConversationTurn,
    Forall (fun m => (role m = str "user" \/ role m = str "assistant")
                     /\ content m <> []
                     /\ strip (content m) = content m)
           (process_context context)
    /\ (List.length (process_context context) <= 2 * List.length context)%nat
    /\ (process_context context = [] <-> Forall blank_turn context).
Proof.
  induction context as [|turn more [IH1 [IH2 IH3]]].
  - split; [constructor|]. split; [simpl; lia|].
    split; [constructor | reflexivity].
  - destruct (turn_messages turn) as [ms [Heq [Hall [Hlen Hnil]]]].
    rewrite Heq. split; [|split].
    + apply Forall_app. now split.
    + rewrite length_app. simpl List.length. lia.
    + split.
      * intro H. apply app_eq_nil in H. destruct H as [H1 H2].
        constructor; [now apply Hnil | now apply IH3].
      * intro H. inversion H as [|? ? Hb Hm]. subst.
        apply Hnil in Hb. apply IH3 in Hm. now rewrite Hb, Hm.
Qed.

Lemma process_context_blank (context : list ConversationTurn) :
  Forall blank_turn context -> process_context context = [].
Proof.
  induction 1 as [|turn more Hb _ IH]; [reflexivity|].
  destruct (turn_messages turn) as [ms [Heq [_ [_ Hnil]]]].
  rewrite Heq, IH. apply Hnil in Hb. now rewrite Hb.
Qed.



(** X18. [rewrite_query] calls the generation capability at most once,
    and returns either the query or the answer of that call: the calls
    made before are kept, a call is made at temperature 0 with the
    rewriting prompt, the history and the query, and without an answer
    the query comes back. *)
Theorem rewrite_query_calls_at_most_once :
  forall (chat_completion : completion_call -> option pystr) (query : pystr)
         (history_messages : list message) (lang : pystr)
         (settings : option GenerativeModelSettings)
         (calls : list completion_call),
    rewrite_query chat_completion query history_messages lang settings calls
    = (query, calls)
    \/ exists call,
        rewrite_query chat_completion query history_messages lang settings
                      calls
        = (match chat_completion call with
           | Some rewritten_query => rewritten_query
           | None => query
           end, calls ++ [call])
        /\ history_messages <> []
        /\ call_temperature call = 0%Q
        /\ call_messages call
           = build_messages (build_prompt_rewrite lang) query history_messages.
Proof.
  intros chat query history lang settings calls.
  unfold rewrite_query.
  destruct history as [|m history]; [now left|].
  destruct (get_model _ _ _) as [model| |]; [|now left..].
  right.
  exists (mk_call model
                  (build_messages (build_prompt_rewrite lang) query
                                  (m :: history)) 0).
  split; [|split; [discriminate|split; reflexivity]].
  destruct (chat _); reflexivity.
Qed.

End ContextFacts.

(* ================================================================= *)
(** * More on the index names and the searches *)

Module IndexFacts.

Import VectorDb VectorDbSpec.

Lemma replaced_char_bound (c : char) :
  existsb (N.eqb c) ES_INDEX_REPLACE_CHARS = true ->
  (c <= 95 \/ c = 124)%N.
Proof.
  intro H. apply existsb_exists in H. destruct H as [x [Hin Hx]].
  apply N.eqb_eq in Hx. subst x. unfold ES_INDEX_REPLACE_CHARS in Hin.
  simpl in Hin.
  repeat (destruct Hin as [<-|Hin]; [lia|]). contradiction.
Qed.

Lemma normalized_char (c : char) :
  let d := lower_char (translate_char c) in
  existsb (N.eqb d) ES_INDEX_REPLACE_CHARS = false
  /\ ~ (65 <= d <= 90)%N.
Proof.
  cbv zeta. unfold translate_char.
  destruct (existsb (N.eqb c) ES_INDEX_REPLACE_CHARS) eqn:Hc.
  - split; [reflexivity | vm_compute; intros [H1 H2]; now apply H2].
  - unfold lower_char.
    destruct ((65 <=? c) && (c <=? 90)
              || (192 <=? c) && (c <=? 222) && negb (c =? 215))%N eqn:Hup.
    + assert (Hr : (97 <= c + 32 <= 122 \/ 224 <= c + 32)%N).
      { apply orb_true_iff in Hup. destruct Hup as [Hup|Hup].
        - apply andb_true_iff in Hup. destruct Hup as [H1 H2].
          apply N.leb_le in H1, H2. lia.
        - apply andb_true_iff in Hup. destruct Hup as [Hup _].
          apply andb_true_iff in Hup. destruct Hup as [H1 _].
          apply N.leb_le in H1. lia. }
      split; [|lia].
      destruct (existsb (N.eqb (c + 32)) ES_INDEX_REPLACE_CHARS) eqn:He;
        [|reflexivity].
      apply replaced_char_bound in He. lia.
    + split; [exact Hc|]. intros [H1 H2].
      apply N.leb_le in H1, H2. rewrite H1, H2 in Hup. discriminate.
Qed.


Section SearchOrder.

Variables V H E : Type.
Variable embed_query : EmbeddingModelSettings -> pystr -> outcome V.
Variable es_search : search_request V -> outcome (search_response H).
Variable model_validate : H -> outcome E.
Variable self : VectorStore.

Lemma validate_all_Forall2 (l : list H) :
  forall es, validate_all H E model_validate l = Ret es ->
             Forall2 (fun h e => model_validate h = Ret e) l es.
Proof.
  induction l as [|h more IH]; intros es Hret; simpl in Hret.
  - injection Hret as <-. constructor.
  - apply bind_Ret_inv in Hret. destruct Hret as [e [He Hret]].
    apply bind_Ret_inv in Hret. destruct Hret as [es' [Hes Hret]].
    injection Hret as <-. constructor; [exact He | now apply IH].
Qed.


End SearchOrder.


End IndexFacts.

(* ================================================================= *)
(** * Uploading with retries *)

Module StoreFacts.

Import Highlight Rag RagSpec Store RagFacts.

(** ** Events *)

Lemma uploads_app (bid : pystr) (a b : list event) :
  uploads bid (a ++ b) = (uploads bid a + uploads bid b)%nat.
Proof. unfold uploads. now rewrite filter_app, length_app. Qed.

Lemma is_upload_touches (bid : pystr) (ev : event) :
  is_upload bid ev = true -> touches bid ev = true.
Proof. destruct ev; simpl; congruence. Qed.

Lemma uploads_untouched (bid : pystr) (evs : list event) :
  Forall (fun ev => touches bid ev = false) evs -> uploads bid evs = 0%nat.
Proof.
  unfold uploads. induction 1 as [|ev evs Hev _ IH]; [reflexivity|].
  simpl. destruct (is_upload bid ev) eqn:Hu; [|exact IH].
  apply is_upload_touches in Hu. congruence.
Qed.

Lemma succeeded_touches (bid : pystr) (evs : list event) :
  succeeded bid evs -> exists ev, In ev evs /\ touches bid ev = true.
Proof.
  intros [docs Hin]. eexists. split; [exact Hin|]. simpl. apply eqb_str_refl.
Qed.

Lemma succeeded_app (bid : pystr) (a b : list event) :
  succeeded bid (a ++ b) <-> succeeded bid a \/ succeeded bid b.
Proof.
  unfold succeeded. split.
  - intros [docs Hin]. apply in_app_or in Hin.
    destruct Hin; [left | right]; now exists docs.
  - intros [[docs Hin]|[docs Hin]]; exists docs; apply in_or_app; tauto.
Qed.

Lemma settled_app (bid : pystr) (a b : list event) :
  settled bid a -> settled bid b ->
  (succeeded bid a -> Forall (fun ev => touches bid ev = false) b) ->
  settled bid (a ++ b).
Proof.
  intros Ha Hb Hab pre docs post Heq.
  apply app_eq_app in Heq. destruct Heq as [l [[H1 H2]|[H1 H2]]].
  - destruct l as [|ev l].
    + simpl in H2. rewrite app_nil_r in H1. subst a.
      apply (Hb [] docs post). now rewrite <- H2.
    + simpl in H2. injection H2 as <- ->. subst a.
      apply Forall_app. split.
      * now apply (Ha pre docs l).
      * apply Hab. exists docs. apply in_or_app. right. now left.
  - apply (Hb l docs post). exact H2.
Qed.

Lemma settled_untouched (bid : pystr) (evs : list event) :
  Forall (fun ev => touches bid ev = false) evs -> settled bid evs.
Proof.
  intros Hall pre docs post Heq. subst evs.
  apply Forall_app in Hall. destruct Hall as [_ Hall].
  inversion Hall as [|? ? Hu _]. simpl in Hu.
  now rewrite eqb_str_refl in Hu.
Qed.

(** The events of one turn: they touch their batch only, hold at most
    one upload, and nothing after it. *)
Lemma turn_events_touch (b bid : pystr) (evs : list event) (ev : event) :
  turn_events b evs -> In ev evs -> touches bid ev = true -> bid = b.
Proof.
  intros [->|[->|[docs [ok [->| ->]]]]] Hin Ht; simpl in Hin;
    repeat (destruct Hin as [<-|Hin];
            [simpl in Ht; now apply eqb_str_true in Ht|]);
    contradiction.
Qed.

Lemma turn_events_uploads (b bid : pystr) (evs : list event) :
  turn_events b evs -> (uploads bid evs <= 1)%nat.
Proof.
  intros [->|[->|[docs [ok [->| ->]]]]]; unfold uploads; simpl;
    destruct (eqb_str b bid); simpl; lia.
Qed.

Lemma settled_no_success (bid : pystr) (evs : list event) :
  ~ succeeded bid evs -> settled bid evs.
Proof.
  intros Hno pre docs post Heq. contradiction Hno. exists docs.
  rewrite Heq. apply in_or_app. right. now left.
Qed.

Lemma settled_last (bid : pystr) (evs : list event) (ev : event) :
  ~ succeeded bid evs -> settled bid (evs ++ [ev]).
Proof.
  intros Hno pre docs post Heq.
  destruct post as [|p post] using rev_ind; [constructor|].
  clear IHpost. contradiction Hno. exists docs.
  replace (pre ++ Upload bid docs true :: post ++ [p])
    with ((pre ++ Upload bid docs true :: post) ++ [p]) in Heq
    by (now rewrite <- app_assoc).
  apply app_inj_tail in Heq. destruct Heq as [-> _].
  apply in_or_app. right. now left.
Qed.

Lemma turn_events_settled (b bid : pystr) (evs : list event) :
  turn_events b evs -> settled bid evs.
Proof.
  intros [->|[->|[d [ok [->| ->]]]]].
  - apply settled_no_success. intros [x [H|[]]]. discriminate.
  - apply settled_no_success. intros [x [H|[H|[]]]]; discriminate.
  - apply (settled_last bid []). intros [x []].
  - apply (settled_last bid [Count b; Delete b]).
    intros [x [H|[H|[]]]]; discriminate.
Qed.

Lemma turn_events_no_sleep (b : pystr) (evs : list event) :
  turn_events b evs -> filter is_sleep evs = [].
Proof.
  intros [->|[->|[docs [ok [->| ->]]]]]; reflexivity.
Qed.

Lemma in_order_quiet (batches : dict (list Document)) (q : list event) :
  Forall (fun ev => forall bid, touches bid ev = false) q ->
  in_order batches 0 q.
Proof.
  intro Hq. rewrite Forall_forall in Hq. split; [|split].
  - intros ev bid Hin Ht. rewrite (Hq ev Hin bid) in Ht. discriminate.
  - intro bid. rewrite uploads_untouched; [lia|].
    apply Forall_forall. intros ev Hin. now apply Hq.
  - intro bid. apply settled_untouched.
    apply Forall_forall. intros ev Hin. now apply Hq.
Qed.

Lemma in_order_app (b1 b2 : dict (list Document)) (n1 n2 : nat)
      (a b : list event) :
  in_order b1 n1 a -> in_order b2 n2 b ->
  (forall bid, In bid (keys b2) -> In bid (keys b1)) ->
  (forall bid, succeeded bid a -> ~ In bid (keys b2)) ->
  in_order b1 (n1 + n2) (a ++ b).
Proof.
  intros [Ha1 [Ha2 Ha3]] [Hb1 [Hb2 Hb3]] Hsub Hdone. split; [|split].
  - intros ev bid Hin Ht. apply in_app_or in Hin. destruct Hin as [Hin|Hin].
    + exact (Ha1 ev bid Hin Ht).
    + apply Hsub. exact (Hb1 ev bid Hin Ht).
  - intro bid. rewrite uploads_app. pose proof (Ha2 bid). pose proof (Hb2 bid).
    lia.
  - intro bid. apply settled_app; [apply Ha3 | apply Hb3|].
    intro Hs. apply Hdone in Hs. apply Forall_forall. intros ev Hin.
    destruct (touches bid ev) eqn:Ht; [|reflexivity].
    contradiction Hs. exact (Hb1 ev bid Hin Ht).
Qed.

Lemma in_order_more (batches : dict (list Document)) (n n' : nat)
      (new : list event) :
  (n <= n')%nat -> in_order batches n new -> in_order batches n' new.
Proof.
  intros Hn [H1 [H2 H3]]. split; [exact H1|]. split; [|exact H3].
  intro bid. pose proof (H2 bid). lia.
Qed.

Lemma quiet_not_succeeded (q : list event) (bid : pystr) :
  Forall (fun ev => forall bid, touches bid ev = false) q ->
  ~ succeeded bid q.
Proof.
  intros Hq Hs. apply succeeded_touches in Hs. destruct Hs as [ev [Hin Ht]].
  rewrite Forall_forall in Hq. rewrite (Hq ev Hin bid) in Ht. discriminate.
Qed.

Section EmbedAndStoreFacts.

Variable W : Type.
Variable prepare_embedding_model : W -> W * option exn.
Variable count : pystr -> W -> W * (Z + exn).
Variable delete_by_query : pystr -> W -> W * option exn.
Variable from_documents : list Document -> W -> W * option exn.
Variable refresh : W -> W * option exn.
Variable sleep : Z -> W -> W.

Local Abbreviation batches_loop :=
  (upload_batches W count delete_by_query from_documents).
Local Abbreviation rounds_loop :=
  (embed_and_store_rounds W prepare_embedding_model count delete_by_query
                          from_documents refresh sleep).

(** One turn of the loop over the batches. *)
Lemma upload_batches_turn (retries : Z) (bid : pystr) (docs : list Document)
      (more failed : dict (list Document)) (w : W) (trace : list event) :
  exists evs,
    turn_events bid evs
    /\ ((exists e w1, batches_loop retries ((bid, docs) :: more) failed w trace
                      = Err e w1 (trace ++ evs))
        \/ (exists failed1 w1,
               batches_loop retries ((bid, docs) :: more) failed w trace
               = batches_loop retries more failed1 w1 (trace ++ evs)
               /\ ((failed1 = failed
                    /\ forall d, ~ In (Upload bid d false) evs)
                   \/ (exists d, failed1 = dict_set failed bid d
                                 /\ ~ succeeded bid evs)))).
Proof.
  cbn [upload_batches]. unfold recheck, attempt.
  destruct (0 <? retries).
  - destruct (count bid w) as [w1 [n|e]].
    + destruct (n =? list_len docs).
      * exists [Count bid]. split; [now left|]. right.
        exists failed, w1. split; [reflexivity|]. left.
        split; [reflexivity|]. intros d [H|[]]. discriminate.
      * destruct (delete_by_query bid w1) as [w2 [e|]].
        -- exists [Count bid; Delete bid]. split; [right; now left|].
           left. now exists e, w2.
        -- destruct (from_documents _ w2) as [w3 [e|]] eqn:Hup.
           ++ eexists. split; [right; right; eexists; exists false; right;
                               reflexivity|].
              right. eexists. exists w3. rewrite <- app_assoc.
              split; [reflexivity|]. right. eexists. split; [reflexivity|].
              intros [d H]. simpl in H.
              repeat (destruct H as [H|H]; [discriminate|]). contradiction.
           ++ eexists. split; [right; right; eexists; exists true; right;
                               reflexivity|].
              right. exists failed, w3. rewrite <- app_assoc.
              split; [reflexivity|]. left. split; [reflexivity|].
              intros d H. simpl in H.
              repeat (destruct H as [H|H]; [discriminate|]). contradiction.
    + exists [Count bid]. split; [now left|]. left. now exists e, w1.
  - destruct (from_documents _ w) as [w3 [e|]] eqn:Hup.
    + eexists. split; [right; right; eexists; exists false; left;
                       reflexivity|].
      right. eexists. exists w3. split; [reflexivity|]. right.
      eexists. split; [reflexivity|].
      intros [d [H|[]]]. discriminate.
    + eexists. split; [right; right; eexists; exists true; left;
                       reflexivity|].
      right. exists failed, w3. split; [reflexivity|]. left.
      split; [reflexivity|]. intros d [H|[]]. discriminate.
Qed.

(** What the loop over the batches adds to the events. *)
Lemma upload_batches_round (retries : Z) (batches : dict (list Document)) :
  forall (failed : dict (list Document)) (w : W) (trace : list event),
    NoDup (keys batches) -> NoDup (keys failed) ->
    (forall b, In b (keys batches) -> ~ In b (keys failed)) ->
    exists new,
      step_trace (batches_loop retries batches failed w trace) = trace ++ new
      /\ (forall ev bid, In ev new -> touches bid ev = true ->
                         In bid (keys batches))
      /\ filter is_sleep new = []
      /\ (forall bid, (uploads bid new <= 1)%nat)
      /\ (forall bid, settled bid new)
      /\ (forall failed' w' trace',
            batches_loop retries batches failed w trace = Ok failed' w' trace' ->
            NoDup (keys failed')
            /\ (forall b, In b (keys failed') ->
                          In b (keys failed) \/ In b (keys batches))
            /\ (forall b, succeeded b new -> ~ In b (keys failed'))).
Proof.
  induction batches as [|[bid docs] more IH]; intros failed w trace Hnd Hnf Hdis.
  - exists []. simpl. rewrite app_nil_r. split; [reflexivity|].
    split; [intros ev b []|]. split; [reflexivity|].
    split; [intro; unfold uploads; simpl; lia|].
    split; [intro; apply settled_untouched; constructor|].
    intros failed' w' trace' [= <- <- <-]. split; [exact Hnf|].
    split; [now left|]. intros b [d []].
  - simpl keys in Hnd, Hdis. inversion Hnd as [|? ? Hbid Hmore]. subst.
    destruct (upload_batches_turn retries bid docs more failed w trace)
      as [evs [Hev [[e [w1 Heq]]|[failed1 [w1 [Heq Hf1]]]]]].
    + rewrite Heq. exists evs. simpl. split; [reflexivity|].
      split.
      { intros ev b Hin Ht. left. symmetry.
        exact (turn_events_touch _ _ _ _ Hev Hin Ht). }
      split; [exact (turn_events_no_sleep bid evs Hev)|].
      split; [intro b; exact (turn_events_uploads bid b evs Hev)|].
      split; [intro b; exact (turn_events_settled bid b evs Hev)|].
      intros failed' w' trace' H. discriminate.
    + rewrite Heq.
      assert (Hk1 : forall b, In b (keys failed1) -> In b (keys failed) \/ b = bid).
      { destruct Hf1 as [[-> _]|[d [-> _]]]; intros b Hb; [now left|].
        rewrite keys_dict_set in Hb. now apply add_key_in in Hb. }
      assert (Hn1 : NoDup (keys failed1)).
      { destruct Hf1 as [[-> _]|[d [-> _]]]; [exact Hnf|].
        rewrite keys_dict_set. now apply add_key_nodup. }
      destruct (IH failed1 w1 (trace ++ evs) Hmore Hn1)
        as [new [Htr [Htouch [Hsl [Hup [Hset Hok]]]]]].
      { intros b Hb Hin. apply Hk1 in Hin. destruct Hin as [Hin| ->].
        - apply (Hdis b); [now right | exact Hin].
        - contradiction. }
      exists (evs ++ new). split; [now rewrite Htr, app_assoc|].
      assert (Hother : forall b, b <> bid ->
                                 Forall (fun ev => touches b ev = false) evs).
      { intros b Hb. apply Forall_forall. intros ev Hin.
        destruct (touches b ev) eqn:Ht; [|reflexivity].
        contradiction Hb. exact (turn_events_touch _ _ _ _ Hev Hin Ht). }
      assert (Hself : Forall (fun ev => touches bid ev = false) new).
      { apply Forall_forall. intros ev Hin.
        destruct (touches bid ev) eqn:Ht; [|reflexivity].
        contradiction Hbid. exact (Htouch ev bid Hin Ht). }
      split.
      { intros ev b Hin Ht. apply in_app_or in Hin. destruct Hin as [Hin|Hin].
        - left. symmetry. exact (turn_events_touch _ _ _ _ Hev Hin Ht).
        - right. exact (Htouch ev b Hin Ht). }
      split; [rewrite filter_app, Hsl, app_nil_r;
              exact (turn_events_no_sleep bid evs Hev)|].
      split.
      { intro b. rewrite uploads_app.
        destruct (list_eq_dec N.eq_dec b bid) as [->|Hb].
        - rewrite (uploads_untouched bid new Hself).
          pose proof (turn_events_uploads bid bid evs Hev). lia.
        - rewrite (uploads_untouched b evs (Hother b Hb)).
          pose proof (Hup b). lia. }
      split.
      { intro b. apply settled_app;
          [exact (turn_events_settled bid b evs Hev) | apply Hset|].
        intro Hs. apply succeeded_touches in Hs. destruct Hs as [ev [Hin Ht]].
        apply (turn_events_touch _ _ _ _ Hev Hin) in Ht. subst b.
        exact Hself. }
      intros failed' w' trace' Hret.
      destruct (Hok failed' w' trace' Hret) as [Hnd' [Hsub Hsucc]].
      split; [exact Hnd'|]. split.
      { intros b Hb. apply Hsub in Hb. destruct Hb as [Hb|Hb].
        - apply Hk1 in Hb. destruct Hb as [Hb| ->];
            [now left | right; now left].
        - right. now right. }
      intros b Hs. apply succeeded_app in Hs. destruct Hs as [Hs|Hs];
        [|now apply Hsucc].
      pose proof Hs as Hs'. apply succeeded_touches in Hs'.
      destruct Hs' as [ev [Hin Ht]].
      apply (turn_events_touch _ _ _ _ Hev Hin) in Ht. subst b.
      destruct Hf1 as [[-> _]|[d [_ Hno]]]; [|contradiction].
      intro Hb. apply Hsub in Hb. destruct Hb as [Hb|Hb].
      * apply (Hdis bid); [now left | exact Hb].
      * contradiction.
Qed.

(** The recursion comes to its end within [MAX_RETRIES + 1 - retries]
    rounds. *)
Lemma rounds_finish (rounds : nat) :
  forall (batches : dict (list Document)) (retries : Z) (w : W)
         (trace : list event),
    (Z.to_nat (MAX_RETRIES + 1 - retries) <= rounds)%nat ->
    rounds_loop rounds batches retries w trace <> Unfinished.
Proof.
  induction rounds as [|rounds IH]; intros batches retries w trace Hr;
    cbn [embed_and_store_rounds]; (destruct batches as [|b batches];
                                   [discriminate|]);
    (destruct (Z.ltb_spec MAX_RETRIES retries); [discriminate|]).
  - lia.
  - destruct (prepare_embedding_model _) as [w1 [e|]]; [discriminate|].
    destruct (upload_batches _ _ _ _ _ _ _ _ _) as [failed w2 t2|e w2 t2];
      [|discriminate].
    destruct (refresh w2) as [w3 [e|]]; [discriminate|].
    apply IH. lia.
Qed.

(** What the rounds add to the events. *)
Lemma rounds_in_order (rounds : nat) :
  forall (batches : dict (list Document)) (retries : Z) (w : W)
         (trace : list event),
    NoDup (keys batches) ->
    rounds_loop rounds batches retries w trace = Unfinished
    \/ exists new,
        trace_of (rounds_loop rounds batches retries w trace) = trace ++ new
        /\ in_order batches rounds new
        /\ (List.length (filter is_sleep new)
            <= rounds - (if (0 <? retries)%Z then 0 else 1))%nat.
Proof.
  assert (Hnil : forall batches n m,
             in_order batches n [] /\ (List.length (filter is_sleep []) <= m)%nat).
  { intros batches n m. split; [|simpl; lia].
    apply (in_order_more batches 0); [lia|].
    apply in_order_quiet. constructor. }
  induction rounds as [|rounds IH]; intros batches retries w trace Hnd;
    cbn [embed_and_store_rounds];
    (destruct batches as [|b batches];
     [right; exists []; simpl; rewrite app_nil_r;
      split; [reflexivity | apply Hnil]|]);
    (destruct (Z.ltb_spec MAX_RETRIES retries);
     [right; exists []; simpl; rewrite app_nil_r;
      split; [reflexivity | apply Hnil]|]).
  - now left.
  - set (bs := b :: batches) in *.
    set (sl := if 0 <? retries then [Sleep RETRY_DELAY] else []).
    assert (Htrace0 : (if 0 <? retries then trace ++ [Sleep RETRY_DELAY]
                       else trace) = trace ++ sl).
    { unfold sl. destruct (0 <? retries); [reflexivity | now rewrite app_nil_r]. }
    rewrite Htrace0.
    assert (Hq : Forall (fun ev => forall bid, touches bid ev = false)
                        (sl ++ [Prepare])).
    { unfold sl. destruct (0 <? retries); repeat constructor. }
    assert (Hsl : List.length (filter is_sleep (sl ++ [Prepare]))
                  = if (0 <? retries)%Z then 1%nat else 0%nat).
    { unfold sl. destruct (0 <? retries); reflexivity. }
    assert (Hpre : in_order bs 0 (sl ++ [Prepare]))
      by (now apply in_order_quiet).
    destruct (prepare_embedding_model _) as [w1 [e|]].
    { right. exists (sl ++ [Prepare]). simpl. rewrite <- app_assoc.
      split; [reflexivity|]. split.
      - apply (in_order_more bs 0); [lia | exact Hpre].
      - rewrite Hsl. destruct (0 <? retries); lia. }
    destruct (upload_batches_round retries bs [] w1 ((trace ++ sl) ++ [Prepare])
                                   Hnd (NoDup_nil _))
      as [new [Htr [Htouch [Hns [Hup [Hset Hok]]]]]]; [intros b0 _ []|].
    assert (Hround : in_order bs 1 new) by (split; [|split]; assumption).
    assert (Hboth : in_order bs 1 ((sl ++ [Prepare]) ++ new)).
    { apply (in_order_app bs bs 0 1); [exact Hpre | exact Hround | trivial|].
      intros bid Hs. contradiction (quiet_not_succeeded _ bid Hq Hs). }
    assert (Hsl2 : List.length (filter is_sleep ((sl ++ [Prepare]) ++ new))
                   = if (0 <? retries)%Z then 1%nat else 0%nat).
    { rewrite filter_app, Hns, app_nil_r. exact Hsl. }
    destruct (upload_batches _ _ _ _ _ _ _ _ _) as [failed w2 t2|e w2 t2] eqn:Hloop.
    2:{ right. exists ((sl ++ [Prepare]) ++ new). simpl in Htr |- *.
        split; [rewrite Htr; now rewrite <- !app_assoc|]. split.
        - apply (in_order_more bs 1); [lia | exact Hboth].
        - rewrite Hsl2. destruct (0 <? retries); lia. }
    simpl in Htr. subst t2.
    destruct (Hok failed w2 _ eq_refl) as [Hnf [Hsub Hsucc]].
    assert (Hqr : Forall (fun ev => forall bid, touches bid ev = false) [Refresh])
      by (repeat constructor).
    assert (Hround2 : in_order bs 1 (((sl ++ [Prepare]) ++ new) ++ [Refresh])).
    { apply (in_order_more bs (1 + 0)); [lia|].
      apply (in_order_app bs [] 1 0);
        [exact Hboth | now apply in_order_quiet | intros bid [] |].
      intros bid _ []. }
    assert (Hsl3 : List.length (filter is_sleep
                                       (((sl ++ [Prepare]) ++ new) ++ [Refresh]))
                   = if (0 <? retries)%Z then 1%nat else 0%nat).
    { rewrite filter_app. simpl. rewrite app_nil_r. exact Hsl2. }
    assert (Hshape : (((trace ++ sl) ++ [Prepare]) ++ new) ++ [Refresh]
                     = trace ++ ((sl ++ [Prepare]) ++ new) ++ [Refresh]).
    { now rewrite <- !app_assoc. }
    rewrite Hshape.
    destruct (refresh w2) as [w3 [e|]].
    { right. eexists. simpl. split; [reflexivity|]. split.
      - apply (in_order_more bs 1); [lia | exact Hround2].
      - rewrite Hsl3. destruct (0 <? retries); lia. }
    destruct (IH failed (retries + 1) w3
                 (trace ++ ((sl ++ [Prepare]) ++ new) ++ [Refresh]) Hnf)
      as [Hun|[rest [Hrest [Hin Hsleep]]]]; [now left|].
    right. exists ((((sl ++ [Prepare]) ++ new) ++ [Refresh]) ++ rest).
    split; [rewrite Hrest; now rewrite <- !app_assoc|]. split.
    + apply (in_order_app bs failed 1 rounds); [exact Hround2 | exact Hin | |].
      * intros bid Hb. apply Hsub in Hb. destruct Hb as [[]|Hb]. exact Hb.
      * intros bid Hs. apply succeeded_app in Hs. destruct Hs as [Hs|Hs];
          [|contradiction (quiet_not_succeeded _ bid Hqr Hs)].
        apply succeeded_app in Hs. destruct Hs as [Hs|Hs];
          [contradiction (quiet_not_succeeded _ bid Hq Hs)|].
        now apply Hsucc.
    + rewrite filter_app, length_app, Hsl3.
      destruct (0 <? retries); destruct (0 <? retries + 1); lia.
Qed.

(** ** An upload that never goes through *)

Section Broken.

Hypothesis prepare_works : forall w, snd (prepare_embedding_model w) = None.
Hypothesis nothing_found : forall bid w, snd (count bid w) = inl 0.
Hypothesis delete_works : forall bid w, snd (delete_by_query bid w) = None.
Hypothesis upload_fails :
  forall docs w, exists e, snd (from_documents docs w) = Some e.
Hypothesis refresh_works : forall w, snd (refresh w) = None.

Lemma upload_batches_all_fail (retries : Z) (batches : dict (list Document)) :
  forall (failed : dict (list Document)) (w : W) (trace : list event),
    NoDup (keys batches) ->
    (forall b, In b (keys batches) -> ~ In b (keys failed)) ->
    Forall (fun p => snd p <> []) batches ->
    Forall (fun p => snd p <> []) failed ->
    exists failed' w' new,
      batches_loop retries batches failed w trace = Ok failed' w' (trace ++ new)
      /\ keys failed' = keys failed ++ keys batches
      /\ Forall (fun p => snd p <> []) failed'
      /\ forall bid, uploads bid new = batches_of bid batches.
Proof.
  induction batches as [|[b docs] more IH];
    intros failed w trace Hnd Hdis Hne Hnf.
  - exists failed, w, []. simpl. rewrite !app_nil_r. repeat split; assumption.
  - simpl keys in Hnd, Hdis. inversion Hnd as [|? ? Hb Hmore]. subst.
    inversion Hne as [|? ? Hdocs Hne']. subst. simpl in Hdocs.
    assert (Hfresh : ~ In b (keys failed)) by (apply Hdis; now left).
    assert (Htag : map (tag b retries) docs <> [])
      by (destruct docs; [contradiction | discriminate]).
    assert (Hstep : exists w1 evs,
               batches_loop retries ((b, docs) :: more) failed w trace
               = batches_loop retries more
                              (failed ++ [(b, map (tag b retries) docs)]) w1
                              (trace ++ evs)
               /\ forall bid, uploads bid evs = if eqb_str b bid then 1%nat
                                                else 0%nat).
    { cbn [upload_batches]. unfold recheck, attempt.
      destruct (0 <? retries).
      - pose proof (nothing_found b w) as Hc.
        destruct (count b w) as [w1 c]. simpl in Hc. subst c.
        destruct (Z.eqb_spec 0 (list_len docs)) as [H0|_].
        { destruct docs; [contradiction | unfold list_len in H0; simpl in H0; lia]. }
        pose proof (delete_works b w1) as Hd.
        destruct (delete_by_query b w1) as [w2 d]. simpl in Hd. subst d.
        destruct (upload_fails (map (tag b retries) docs) w2) as [e He].
        destruct (from_documents _ w2) as [w3 u]. simpl in He. subst u.
        rewrite dict_set_fresh by exact Hfresh.
        exists w3. eexists. rewrite <- app_assoc. split; [reflexivity|].
        intro bid. unfold uploads. simpl. now destruct (eqb_str b bid).
      - destruct (upload_fails (map (tag b retries) docs) w) as [e He].
        destruct (from_documents _ w) as [w3 u]. simpl in He. subst u.
        rewrite dict_set_fresh by exact Hfresh.
        exists w3. eexists. split; [reflexivity|].
        intro bid. unfold uploads. simpl. now destruct (eqb_str b bid). }
    destruct Hstep as [w1 [evs [Heq Hevs]]]. rewrite Heq.
    destruct (IH (failed ++ [(b, map (tag b retries) docs)]) w1 (trace ++ evs))
      as [failed' [w' [new [Hret [Hkeys [Hall Hup]]]]]];
      [ exact Hmore | | exact Hne' | |].
    { intros x Hx Hin. unfold keys in Hin. rewrite map_app in Hin.
      apply in_app_or in Hin. destruct Hin as [Hin|[<-|[]]].
      - apply (Hdis x); [now right | exact Hin].
      - contradiction. }
    { apply Forall_app. split; [exact Hnf|]. now repeat constructor. }
    exists failed', w', (evs ++ new). rewrite Hret, app_assoc.
    split; [reflexivity|]. split.
    { rewrite Hkeys. unfold keys. rewrite map_app, <- app_assoc. reflexivity. }
    split; [exact Hall|].
    intro bid. rewrite uploads_app, Hevs, Hup. unfold batches_of. simpl.
    now destruct (eqb_str b bid).
Qed.

Lemma rounds_all_fail (rounds : nat) :
  forall (batches : dict (list Document)) (retries : Z) (w : W)
         (trace : list event),
    retries = MAX_RETRIES + 1 - Z.of_nat rounds ->
    NoDup (keys batches) ->
    Forall (fun p => snd p <> []) batches ->
    exists w' new,
      rounds_loop rounds batches retries w trace = Done w' (trace ++ new)
      /\ forall bid, uploads bid new = (rounds * batches_of bid batches)%nat.
Proof.
  induction rounds as [|rounds IH]; intros batches retries w trace Hr Hnd Hne;
    cbn [embed_and_store_rounds];
    (destruct batches as [|b batches];
     [exists w, []; rewrite app_nil_r; split; [reflexivity|];
      intro bid; unfold batches_of, uploads; simpl; lia|]);
    destruct (Z.ltb_spec MAX_RETRIES retries) as [Hlt|Hge].
  - exists w, []. rewrite app_nil_r. split; [reflexivity|].
    intro bid. reflexivity.
  - unfold MAX_RETRIES in *. lia.
  - unfold MAX_RETRIES in *. lia.
  - pose proof (prepare_works (if 0 <? retries then sleep RETRY_DELAY w else w))
      as Hp.
    destruct (prepare_embedding_model _) as [w1 p]. simpl in Hp. subst p.
    set (trace1 := (if 0 <? retries then trace ++ [Sleep RETRY_DELAY] else trace)
                     ++ [Prepare]).
    assert (Ht1 : exists q, trace1 = trace ++ q /\ forall bid, uploads bid q = 0%nat).
    { unfold trace1. destruct (0 <? retries).
      - exists [Sleep RETRY_DELAY; Prepare]. rewrite <- app_assoc.
        split; reflexivity.
      - exists [Prepare]. split; reflexivity. }
    destruct Ht1 as [q [Hq Hq0]].
    destruct (upload_batches_all_fail retries (b :: batches) [] w1 trace1 Hnd)
      as [failed [w2 [new [Hret [Hkeys [Hall Hup]]]]]];
      [intros x _ [] | exact Hne | constructor|].
    rewrite Hret.
    pose proof (refresh_works w2) as Hrf.
    destruct (refresh w2) as [w3 rf]. simpl in Hrf. subst rf.
    simpl app in Hkeys.
    destruct (IH failed (retries + 1) w3 ((trace1 ++ new) ++ [Refresh]))
      as [w' [rest [Hrest Hrup]]]; [lia | now rewrite Hkeys | exact Hall|].
    exists w', (q ++ new ++ [Refresh] ++ rest).
    rewrite Hrest, Hq. split; [now rewrite <- !app_assoc|].
    intro bid. rewrite !uploads_app, Hq0, Hup, Hrup.
    unfold batches_of. rewrite Hkeys. unfold uploads. simpl. lia.
Qed.

End Broken.

End EmbedAndStoreFacts.

(** X21. [_embed_and_store] comes to an end, and it keeps to its
    budget: called with distinct batch identifiers and no retry behind
    it, whatever the search engine and the embedding service do, it
    tries the upload of a batch at most [MAX_RETRIES + 1 = 4] times and
    waits at most [MAX_RETRIES = 3] times. *)
Theorem embed_and_store_keeps_its_budget :
  forall (W : Type)
         (prepare_embedding_model : W -> W * option exn)
         (count : pystr -> W -> W * (Z + exn))
         (delete_by_query : pystr -> W -> W * option exn)
         (from_documents : list Document -> W -> W * option exn)
         (refresh : W -> W * option exn) (sleep : Z -> W -> W)
         (batches : dict (list Document)) (w : W),
    NoDup (keys batches) ->
    let r := _embed_and_store W prepare_embedding_model count delete_by_query
                              from_documents refresh sleep batches 0 w in
    r <> Unfinished
    /\ (forall bid, (uploads bid (trace_of r) <= 4)%nat)
    /\ (List.length (filter is_sleep (trace_of r)) <= 3)%nat.
Proof.
  intros W prepare count delete_by_query from_documents refresh sleep batches w
         Hnd. cbv zeta. unfold _embed_and_store.
  change (Z.to_nat (MAX_RETRIES + 1 - 0)) with 4%nat.
  assert (Hfin : embed_and_store_rounds W prepare count delete_by_query
                                        from_documents refresh sleep 4 batches
                                        0 w [] <> Unfinished)
    by (apply rounds_finish; reflexivity).
  split; [exact Hfin|].
  destruct (rounds_in_order W prepare count delete_by_query from_documents
                            refresh sleep 4 batches 0 w [] Hnd)
    as [Hun|[new [Hnew [[_ [Hup _]] Hsl]]]]; [contradiction|].
  rewrite Hnew. simpl app. split; [exact Hup | exact Hsl].
Qed.

Lemma embed_and_store_keeps_its_budget_witness :
  example_store 9 <> Unfinished
  /\ (forall bid, (uploads bid (trace_of (example_store 9)) <= 4)%nat)
  /\ (List.length (filter is_sleep (trace_of (example_store 9))) <= 3)%nat.
Proof.
  apply (embed_and_store_keeps_its_budget
           nat (fun w => (w, None)) (fun _ w => (w, inl 0))
           (fun _ w => (w, None)) (flaky_upload 9)
           (fun w => (w, None)) (fun _ w => w) example_batches 0%nat).
  repeat constructor. intros [].
Defined.

(** X22. [_embed_and_store] leaves an uploaded batch alone: called with
    distinct batch identifiers, once the upload of a batch has gone
    through, the call neither counts, nor deletes, nor uploads that batch
    again, whatever happens to the other batches. *)
Theorem embed_and_store_settles :
  forall (W : Type)
         (prepare_embedding_model : W -> W * option exn)
         (count : pystr -> W -> W * (Z + exn))
         (delete_by_query : pystr -> W -> W * option exn)
         (from_documents : list Document -> W -> W * option exn)
         (refresh : W -> W * option exn) (sleep : Z -> W -> W)
         (batches : dict (list Document)) (retries : Z) (w : W)
         (bid : pystr) (docs : list Document) (pre post : list event),
    NoDup (keys batches) ->
    trace_of (_embed_and_store W prepare_embedding_model count delete_by_query
                               from_documents refresh sleep batches retries w)
    = pre ++ Upload bid docs true :: post ->
    Forall (fun ev => touches bid ev = false) post.
Proof.
  intros W prepare count delete_by_query from_documents refresh sleep batches
         retries w bid docs pre post Hnd Htrace.
  unfold _embed_and_store in Htrace.
  destruct (rounds_in_order W prepare count delete_by_query from_documents
                            refresh sleep (Z.to_nat (MAX_RETRIES + 1 - retries))
                            batches retries w [] Hnd)
    as [Hun|[new [Hnew [[_ [_ Hset]] _]]]].
  - rewrite Hun in Htrace. now destruct pre.
  - rewrite Hnew in Htrace. simpl in Htrace.
    exact (Hset bid pre docs post Htrace).
Qed.

Lemma embed_and_store_settles_witness :
  trace_of (example_store 2)
  = firstn 13 (trace_of (example_store 2))
      ++ Upload (str "b1")
                (map (tag (str "b1") 2)
                     [mk_doc (str "page one") []; mk_doc (str "page two") []])
                true
      :: [Refresh]
  /\ Forall (fun ev => touches (str "b1") ev = false) [Refresh].
Proof.
  split; [vm_compute; reflexivity|].
  apply (embed_and_store_settles
           nat (fun w => (w, None)) (fun _ w => (w, inl 0))
           (fun _ w => (w, None)) (flaky_upload 2)
           (fun w => (w, None)) (fun _ w => w) example_batches 0 0%nat
           (str "b1")
           (map (tag (str "b1") 2)
                [mk_doc (str "page one") []; mk_doc (str "page two") []])
           (firstn 13 (trace_of (example_store 2))) [Refresh]).
  - repeat constructor. intros [].
  - vm_compute. reflexivity.
Defined.

(** X23. [_embed_and_store] gives up without a word: when nothing but
    the upload fails, and it fails every time, the call returns as if all
    had gone well, after it has tried each batch [MAX_RETRIES + 1 = 4]
    times (the batches have distinct identifiers and hold documents; the
    index never holds a document of theirs). *)
Theorem embed_and_store_gives_up_silently :
  forall (W : Type)
         (prepare_embedding_model : W -> W * option exn)
         (count : pystr -> W -> W * (Z + exn))
         (delete_by_query : pystr -> W -> W * option exn)
         (from_documents : list Document -> W -> W * option exn)
         (refresh : W -> W * option exn) (sleep : Z -> W -> W)
         (batches : dict (list Document)) (w : W),
    (forall w, snd (prepare_embedding_model w) = None) ->
    (forall bid w, snd (count bid w) = inl 0) ->
    (forall bid w, snd (delete_by_query bid w) = None) ->
    (forall docs w, exists e, snd (from_documents docs w) = Some e) ->
    (forall w, snd (refresh w) = None) ->
    NoDup (keys batches) ->
    Forall (fun p => snd p <> []) batches ->
    exists w' trace,
      _embed_and_store W prepare_embedding_model count delete_by_query
                       from_documents refresh sleep batches 0 w
      = Done w' trace
      /\ forall bid, In bid (keys batches) -> uploads bid trace = 4%nat.
Proof.
  intros W prepare count delete_by_query from_documents refresh sleep batches w
         Hp Hc Hd Hu Hr Hnd Hne.
  destruct (rounds_all_fail W prepare count delete_by_query from_documents
                            refresh sleep Hp Hc Hd Hu Hr 4 batches 0 w []
                            eq_refl Hnd Hne) as [w' [new [Hret Hup]]].
  exists w', new. split; [exact Hret|].
  intros bid Hin. rewrite Hup.
  assert (H1 : batches_of bid batches = 1%nat).
  { unfold batches_of. clear - Hnd Hin. unfold keys in *.
    induction (map fst batches) as [|k ks IH]; [contradiction|].
    inversion Hnd as [|? ? Hk Hks]. subst. simpl.
    destruct (eqb_str k bid) eqn:E.
    - apply eqb_str_true in E. subst k. simpl. f_equal.
      rewrite (proj2 (length_zero_iff_nil _)); [reflexivity|].
      clear - Hk. induction ks as [|x ks IH]; [reflexivity|]. simpl.
      destruct (eqb_str x bid) eqn:E.
      + apply eqb_str_true in E. subst x. contradiction Hk. now left.
      + apply IH. intro H. apply Hk. now right.
    - apply IH; [exact Hks|]. destruct Hin as [->|Hin]; [|exact Hin].
      rewrite eqb_str_refl in E. discriminate. }
  rewrite H1. reflexivity.
Qed.

Lemma embed_and_store_gives_up_silently_witness :
  exists w' trace,
    broken_store = Done w' trace
    /\ forall bid, In bid (keys example_batches) -> uploads bid trace = 4%nat.
Proof.
  apply (embed_and_store_gives_up_silently
           nat (fun w => (w, None)) (fun _ w => (w, inl 0))
           (fun _ w => (w, None)) broken_upload
           (fun w => (w, None)) (fun _ w => w) example_batches 0%nat).
  - reflexivity.
  - reflexivity.
  - reflexivity.
  - intros docs w. now exists ValueError.
  - reflexivity.
  - repeat constructor. intros [].
  - repeat constructor; discriminate.
Defined.

End StoreFacts.

(* ================================================================= *)
(** * The locator of the highlights *)

Module LocatorFacts.

Import VectorDb Header Locator PyList PyListFacts.

Lemma Qltb_false (a b : Q) : Qltb a b = false <-> (b <= a)%Q.
Proof.
  unfold Qltb. rewrite negb_false_iff. apply Qle_bool_iff.
Qed.

Lemma Qltb_true (a b : Q) : Qltb a b = true <-> (a < b)%Q.
Proof.
  unfold Qltb. rewrite negb_true_iff. split.
  - intro H. apply Qnot_le_lt. intro Hle. apply Qle_bool_iff in Hle.
    congruence.
  - intro H. destruct (Qle_bool b a) eqn:E; [|reflexivity].
    apply Qle_bool_iff in E. exfalso. exact (Qlt_not_le _ _ H E).
Qed.

Lemma filter_head_split {A} (f : A -> bool) (l : list A) (x : A) (r : list A) :
  filter f l = x :: r ->
  exists pre post, l = pre ++ x :: post /\ Forall (fun y => f y = false) pre.
Proof.
  induction l as [|y l IH]; simpl; [discriminate|].
  destruct (f y) eqn:Hy.
  - intros [= -> _]. exists [], l. split; [reflexivity | constructor].
  - intro H. destruct (IH H) as [pre [post [-> Hpre]]].
    exists (y :: pre), post. split; [reflexivity | now constructor].
Qed.

(** The head of a list sorted with [reverse=True] is the first of the
    largest elements of the list. *)
Lemma sorted_reverse_head {A} (key : A -> Q) (l : list A) (best : A)
      (rest : list A) :
  sorted_reverse key Qltb l = best :: rest ->
  exists pre post,
    l = pre ++ best :: post
    /\ Forall (fun c => (key c < key best)%Q) pre
    /\ Forall (fun c => (key c <= key best)%Q) post.
Proof.
  intro Hs.
  pose proof (sorted_reverse_descending (order := Qltb_order) key Qltb l) as Hd.
  pose proof (sorted_reverse_perm key Qltb l) as Hp.
  pose proof (sorted_reverse_stable (order := Qltb_order) key Qltb (key best) l)
    as Hst.
  rewrite Hs in Hd, Hp, Hst.
  assert (Hmax : forall c, In c l -> (key c <= key best)%Q).
  { intros c Hc. apply (Permutation_in _ (Permutation_sym Hp)) in Hc.
    destruct Hc as [<-|Hc]; [apply Qle_refl|].
    unfold descending in Hd. inversion Hd as [|? ? _ Hall]. subst.
    rewrite Forall_forall in Hall. apply Qltb_false. now apply Hall. }
  assert (Htie : tie key Qltb (key best) best = true).
  { unfold tie. rewrite (proj2 (Qltb_false _ _)) by apply Qle_refl.
    reflexivity. }
  simpl in Hst. rewrite Htie in Hst. symmetry in Hst.
  apply filter_head_split in Hst. destruct Hst as [pre [post [Hl Hpre]]].
  exists pre, post. split; [exact Hl|]. split.
  - apply Forall_forall. intros c Hc.
    rewrite Forall_forall in Hpre. specialize (Hpre c Hc).
    assert (Hle : (key c <= key best)%Q)
      by (apply Hmax; rewrite Hl; apply in_or_app; now left).
    unfold tie in Hpre. rewrite (proj2 (Qltb_false _ _) Hle) in Hpre.
    simpl in Hpre. apply negb_false_iff in Hpre. now apply Qltb_true.
  - apply Forall_forall. intros c Hc. apply Hmax. rewrite Hl.
    apply in_or_app. right. now right.
Qed.

Section FetchFacts.

Variable V : Type.
Variable embed_query : pystr -> outcome V.
Variable _score_l0 : pystr -> V -> outcome (list l0_hit).
Variable _score_l1_for_parent : pystr -> V -> outcome (list span_dict).

Lemma score_candidates_spec (v : V) (l0_hits : list l0_hit) :
  forall (candidates out : list candidate),
    score_candidates V _score_l1_for_parent v l0_hits candidates = Ret out ->
    exists new,
      out = candidates ++ new
      /\ Forall2 (candidate_of V _score_l1_for_parent v) l0_hits new.
Proof.
  induction l0_hits as [|h more IH]; intros candidates out Hret;
    simpl in Hret.
  - injection Hret as <-. exists []. split; [now rewrite app_nil_r | constructor].
  - apply bind_Ret_inv in Hret. destruct Hret as [l1_all [Hl1 Hret]].
    apply bind_Ret_inv in Hret. destruct Hret as [c [Hc Hret]].
    apply IH in Hret. destruct Hret as [new [-> Hnew]].
    exists (c :: new). split; [now rewrite <- app_assoc|].
    constructor; [now exists l1_all | exact Hnew].
Qed.

Lemma fetch_highlight_spans_inv (query : pystr) (spans : list span_dict) :
  fetch_highlight_spans V embed_query _score_l0 _score_l1_for_parent query
  = Ret spans ->
  exists v l0_hits candidates,
    embed_query query = Ret v
    /\ _score_l0 query v = Ret l0_hits
    /\ Forall2 (candidate_of V _score_l1_for_parent v) l0_hits candidates
    /\ match spans with
       | [] => l0_hits = []
       | s :: rest =>
           exists pre best post,
             candidates = pre ++ best :: post
             /\ s = l0_span best
             /\ rest = l1_top best
             /\ Forall (fun c => (combined c < combined best)%Q) pre
             /\ Forall (fun c => (combined c <= combined best)%Q) post
       end.
Proof.
  intro Hret. unfold fetch_highlight_spans in Hret.
  apply bind_Ret_inv in Hret. destruct Hret as [v [Hv Hret]].
  apply bind_Ret_inv in Hret. destruct Hret as [l0_hits [Hhits Hret]].
  apply bind_Ret_inv in Hret. destruct Hret as [candidates [Hc Hret]].
  apply score_candidates_spec in Hc. destruct Hc as [new [-> Hnew]].
  simpl in Hret. exists v, l0_hits, new.
  split; [exact Hv|]. split; [exact Hhits|]. split; [exact Hnew|].
  destruct (sorted_reverse combined Qltb new) as [|best rest] eqn:Hs.
  - injection Hret as <-.
    pose proof (sorted_reverse_perm combined Qltb new) as Hp.
    rewrite Hs in Hp. apply Permutation_nil in Hp. subst new.
    now inversion Hnew.
  - injection Hret as <-.
    apply sorted_reverse_head in Hs.
    destruct Hs as [pre [post [Hl [Hpre Hpost]]]].
    exists pre, best, post. repeat split; assumption.
Qed.


End FetchFacts.


(** ** The group of an answer *)

Lemma group_spans_spec (header_len : Z) (spans : list span_dict) :
  forall (l0_obj : option RAGHighlightSpan) (l1_list : list RAGHighlightSpan)
         (r : option RAGHighlightSpan * list RAGHighlightSpan),
    group_spans header_len spans l0_obj l1_list = Ret r ->
    exists hs,
      Forall2 (fun s h => to_highlight_span header_len s = Ret h) spans hs
      /\ fst r = match l0_obj with
                 | Some x => Some x
                 | None => hd_error (filter (has_level (str "L0")) hs)
                 end
      /\ snd r = l1_list ++ filter (has_level (str "L1")) hs.
Proof.
  induction spans as [|s more IH]; intros l0_obj l1_list r Hret.
  - injection Hret as <-. exists []. simpl. rewrite app_nil_r.
    split; [constructor|]. split; [now destruct l0_obj | reflexivity].
  - cbn [group_spans] in Hret.
    apply bind_Ret_inv in Hret. destruct Hret as [span [Hspan Hret]].
    fold (has_level (str "L0") span) in Hret.
    fold (has_level (str "L1") span) in Hret.
    destruct (has_level (str "L0") span) eqn:H0.
    + assert (H1 : has_level (str "L1") span = false).
      { unfold has_level in *. destruct (hl_chunk_level span) as [l|];
          [|reflexivity].
        apply RagFacts.eqb_str_true in H0. subst l. reflexivity. }
      destruct l0_obj as [x|]; simpl in Hret.
      * rewrite H1 in Hret. apply IH in Hret.
        destruct Hret as [hs [Hhs [Hfst Hsnd]]].
        exists (span :: hs). split; [now constructor|].
        split; [exact Hfst|]. simpl. rewrite H1. exact Hsnd.
      * apply IH in Hret. destruct Hret as [hs [Hhs [Hfst Hsnd]]].
        exists (span :: hs). split; [now constructor|].
        simpl. rewrite H0, H1. split; [exact Hfst | exact Hsnd].
    + simpl in Hret. destruct (has_level (str "L1") span) eqn:H1.
      * apply IH in Hret. destruct Hret as [hs [Hhs [Hfst Hsnd]]].
        exists (span :: hs). split; [now constructor|].
        simpl. rewrite H0, H1. split; [exact Hfst|].
        rewrite Hsnd. now rewrite <- app_assoc.
      * apply IH in Hret. destruct Hret as [hs [Hhs [Hfst Hsnd]]].
        exists (span :: hs). split; [now constructor|].
        simpl. rewrite H0, H1. split; [exact Hfst | exact Hsnd].
Qed.

(** X25. The group [_build_highlight_group_for_hit] builds from the
    spans of the locator: each span becomes a span of the answer, moved
    by the length of the header; the L0 of the group is the first of
    them with the level L0, and the L1s of the group are those with the
    level L1, in descending order of their scores; a span of any other
    level is left out. *)
Theorem highlight_group_shape :
  forall (spans : list span_dict) (source_file : pystr)
         (g : RAGHighlightGroup),
    _build_highlight_group_for_hit (Ret spans) source_file = Ret g ->
    exists hs,
      Forall2 (fun s h => to_highlight_span (len (source_header source_file)) s
                          = Ret h)
              spans hs
      /\ l0_chunk g = hd_error (filter (has_level (str "L0")) hs)
      /\ Permutation (l1_chunks g) (filter (has_level (str "L1")) hs)
      /\ descending hl_score_or_zero Qltb (l1_chunks g).
Proof.
  intros spans source_file g Hg. unfold _build_highlight_group_for_hit in Hg.
  cbn [try_fetch bind] in Hg.
  apply bind_Ret_inv in Hg. destruct Hg as [r [Hr Hg]]. injection Hg as <-.
  apply group_spans_spec in Hr. destruct Hr as [hs [Hhs [Hfst Hsnd]]].
  exists hs. split; [exact Hhs|]. simpl. split; [exact Hfst|].
  rewrite Hsnd. simpl. split.
  - apply sorted_reverse_perm.
  - exact (sorted_reverse_descending (order := Qltb_order) hl_score_or_zero
                                     Qltb _).
Qed.

Lemma highlight_group_shape_witness :
  exists g hs,
    _build_highlight_group_for_hit (Ret example_spans) (str "a.pdf") = Ret g
    /\ l0_chunk g = Some example_highlight
    /\ Forall2 (fun s h => to_highlight_span (len (source_header (str "a.pdf"))) s
                           = Ret h)
               example_spans hs
    /\ l0_chunk g = hd_error (filter (has_level (str "L0")) hs)
    /\ Permutation (l1_chunks g) (filter (has_level (str "L1")) hs)
    /\ descending hl_score_or_zero Qltb (l1_chunks g).
Proof.
  eexists.
  destruct (highlight_group_shape example_spans (str "a.pdf") _ eq_refl)
    as [hs H].
  exists hs. split; [reflexivity|]. split; [reflexivity | exact H].
Defined.

Lemma to_highlight_span_cases (header_len : Z) (s : span_dict) :
  (lacks_required s /\ to_highlight_span header_len s = Raise ValidationError)
  \/ (~ lacks_required s
      /\ exists span, to_highlight_span header_len s = Ret span).
Proof.
  unfold to_highlight_span, lacks_required.
  destruct (sd_kb_id s); [|left; split; [now left | reflexivity]].
  destruct (sd_source_file s); [|left; split; [right; now left | reflexivity]].
  destruct (sd_page s); [|left; split; [right; right; now left | reflexivity]].
  destruct (sd_text s); [|left; split; [right; right; now right | reflexivity]].
  right. split; [|eexists; reflexivity].
  intros [H|[H|[H|H]]]; discriminate.
Qed.

Lemma group_spans_total (header_len : Z) (spans : list span_dict) :
  forall (l0_obj : option RAGHighlightSpan) (l1_list : list RAGHighlightSpan),
    (Exists lacks_required spans
     /\ group_spans header_len spans l0_obj l1_list = Raise ValidationError)
    \/ (Forall (fun s => ~ lacks_required s) spans
        /\ exists r, group_spans header_len spans l0_obj l1_list = Ret r).
Proof.
  induction spans as [|s more IH]; intros l0_obj l1_list.
  - right. split; [constructor | eexists; reflexivity].
  - cbn [group_spans].
    destruct (to_highlight_span_cases header_len s)
      as [[Hs ->]|[Hs [span ->]]]; cbn [bind].
    + left. split; [now left | reflexivity].
    + assert (Hany : forall a b,
                 (Exists lacks_required (s :: more)
                  /\ group_spans header_len more a b = Raise ValidationError)
                 \/ (Forall (fun s => ~ lacks_required s) (s :: more)
                     /\ exists r, group_spans header_len more a b = Ret r)).
      { intros a b. destruct (IH a b) as [[He Hr]|[Hf Hr]].
        - left. split; [now right | exact Hr].
        - right. split; [now constructor | exact Hr]. }
      destruct (_ && _); [apply Hany|].
      destruct (match hl_chunk_level span with Some _ => _ | None => _ end);
        apply Hany.
Qed.

(** X26. [_build_highlight_group_for_hit] swallows the errors of the
    locator, not those of its own spans: when the locator raises, the
    group is empty; when it returns, the call either returns a group or
    raises the validation error, and it raises exactly when one of the
    spans lacks one of the fields [kb_id], [source_file], [page] and
    [text]. *)
Theorem highlight_group_validation :
  forall (source_file : pystr),
    (forall e, _build_highlight_group_for_hit (Raise e) source_file
               = Ret (mk_group None []))
    /\ forall spans,
        (Exists lacks_required spans
         /\ _build_highlight_group_for_hit (Ret spans) source_file
            = Raise ValidationError)
        \/ (Forall (fun s => ~ lacks_required s) spans
            /\ exists g, _build_highlight_group_for_hit (Ret spans) source_file
                         = Ret g).
Proof.
  intro source_file. split; [reflexivity|]. intro spans.
  unfold _build_highlight_group_for_hit. cbn [try_fetch bind].
  destruct (group_spans_total (len (source_header source_file)) spans None [])
    as [[He ->]|[Hf [r ->]]].
  - left. split; [exact He | reflexivity].
  - right. split; [exact Hf|]. eexists. reflexivity.
Qed.

Section Composition.

Variable V : Type.
Variable embed_query : pystr -> outcome V.
Variable _score_l0 : pystr -> V -> outcome (list l0_hit).
Variable _score_l1_for_parent : pystr -> V -> outcome (list span_dict).


End Composition.


End LocatorFacts.

(* ================================================================= *)
(** * Rank fusion with a single list *)

Module FusionMoreFacts.

Import Rag RagSpec RagFacts PyList PyListFacts.

Lemma NoDup_map_eq {A B} (f : A -> B) (l : list A) (a b : A) :
  NoDup (map f l) -> In a l -> In b l -> f a = f b -> a = b.
Proof.
  induction l as [|x l IH]; simpl; intros Hn Ha Hb Hf; [contradiction|].
  inversion Hn as [|? ? Hx Hl]. subst.
  destruct Ha as [->|Ha]; destruct Hb as [->|Hb].
  - reflexivity.
  - exfalso. apply Hx. rewrite Hf. now apply in_map.
  - exfalso. apply Hx. rewrite <- Hf. now apply in_map.
  - now apply IH.
Qed.

Lemma StronglySorted_nth {A} (R : A -> A -> Prop) (l : list A) :
  (forall p q x y, (p < q)%nat -> nth_error l p = Some x ->
                   nth_error l q = Some y -> R x y) ->
  StronglySorted R l.
Proof.
  induction l as [|a l IH]; intro H; constructor.
  - apply IH. intros p q x y Hpq Hp Hq. exact (H (S p) (S q) x y ltac:(lia) Hp Hq).
  - apply Forall_forall. intros y Hy. apply In_nth_error in Hy.
    destruct Hy as [q Hq]. exact (H 0%nat (S q) a y ltac:(lia) eq_refl Hq).
Qed.

(** Two lists with the same elements, one in descending order and the
    other in strictly descending order, are the same list. *)
Lemma descending_unique {A} (g : A -> Q) (l2 : list A) :
  forall l1 : list A,
    Permutation l1 l2 ->
    StronglySorted (fun a b => (g b <= g a)%Q) l1 ->
    StronglySorted (fun a b => (g b < g a)%Q) l2 ->
    l1 = l2.
Proof.
  induction l2 as [|x l2 IH]; intros l1 Hp H1 H2.
  - now apply Permutation_sym, Permutation_nil in Hp.
  - destruct l1 as [|a l1];
      [apply Permutation_nil in Hp; discriminate|].
    inversion H1 as [|? ? H1' Ha]. inversion H2 as [|? ? H2' Hx]. subst.
    rewrite Forall_forall in Ha, Hx.
    assert (Hax : a = x).
    { assert (Hin : In a (x :: l2))
        by (apply (Permutation_in _ Hp); now left).
      destruct Hin as [Hin|Hin]; [now symmetry|].
      assert (Hxin : In x (a :: l1))
        by (apply (Permutation_in _ (Permutation_sym Hp)); now left).
      destruct Hxin as [Hxin|Hxin]; [exact Hxin|].
      exfalso. apply (Qlt_irrefl (g a)).
      eapply Qlt_le_trans; [apply Hx, Hin | apply Ha, Hxin]. }
    subst a. f_equal. apply IH; [|exact H1' | exact H2'].
    exact (Permutation_cons_inv Hp).
Qed.

Lemma fused_score_dense (c : Z) (cosine : list (KBEntry Q)) (p : nat)
      (e : KBEntry Q) :
  NoDup (map id cosine) -> nth_error cosine p = Some e ->
  fused_score c cosine [] (id e) = (0 + / inject_Z (Z.of_nat p + 1 + c))%Q.
Proof.
  intros Hn Hp. unfold fused_score.
  rewrite (rank_in_position cosine p e Hn Hp). reflexivity.
Qed.

Lemma dense_scores_fall (c : Z) (cosine : list (KBEntry Q)) :
  0 <= c -> NoDup (map id cosine) ->
  StronglySorted (fun a b => (fused_score c cosine [] b
                              < fused_score c cosine [] a)%Q)
                 (map id cosine).
Proof.
  intros Hc Hn. apply StronglySorted_nth.
  intros p q x y Hpq Hp Hq.
  rewrite nth_error_map in Hp, Hq.
  destruct (nth_error cosine p) as [ep|] eqn:Hep; [|discriminate].
  destruct (nth_error cosine q) as [eq|] eqn:Heq; [|discriminate].
  injection Hp as <-. injection Hq as <-.
  rewrite (fused_score_dense c cosine p ep Hn Hep).
  rewrite (fused_score_dense c cosine q eq Hn Heq).
  rewrite !Qplus_0_l.
  apply -> Qinv_lt_contravar.
  - rewrite <- Zlt_Qlt. lia.
  - change 0%Q with (inject_Z 0). rewrite <- Zlt_Qlt. lia.
  - change 0%Q with (inject_Z 0). rewrite <- Zlt_Qlt. lia.
Qed.

Lemma map_id_determines (G : KBEntry Q -> KBEntry Q)
      (out cosine : list (KBEntry Q)) :
  map id out = map id cosine ->
  (forall e, In e out -> exists h, In h cosine /\ id h = id e /\ e = G h) ->
  NoDup (map id cosine) ->
  out = map G cosine.
Proof.
  revert cosine. induction out as [|e out IH]; intros [|h cosine] Hid Hall Hn;
    try discriminate; [reflexivity|].
  simpl in Hid. injection Hid as Hhe Hid. simpl. f_equal.
  - destruct (Hall e (or_introl eq_refl)) as [h' [Hin [Hidh ->]]].
    f_equal. apply (NoDup_map_eq id (h :: cosine)); try assumption;
      [now left | congruence].
  - inversion Hn as [|? ? Hh Hn']. subst.
    apply IH; [exact Hid | | exact Hn'].
    intros e' He'. destruct (Hall e' (or_intror He')) as [h' [Hin [Hidh ->]]].
    exists h'. split; [|now split].
    destruct Hin as [<-|Hin]; [|exact Hin].
    exfalso. apply Hh. rewrite <- Hid, Hidh. now apply in_map.
Qed.



(** ** Dominance *)

Lemma reciprocal_bounds (c : Z) (ra rb : option Z) (x y : Q) :
  0 <= c ->
  (forall r, ra = Some r -> 0 < r) ->
  (forall r, rb = Some r ->
             exists r', ra = Some r' /\ r' <= r) ->
  (y <= x)%Q ->
  (reciprocal c rb y <= reciprocal c ra x)%Q.
Proof.
  intros Hc Hpos Hdom Hyx. unfold reciprocal. simpl.
  assert (Hinv : forall r, 0 < r -> (0 <= / inject_Z (r + c))%Q).
  { intros r Hr. apply Qinv_le_0_compat.
    change 0%Q with (inject_Z 0). rewrite <- Zle_Qle. lia. }
  destruct rb as [r|].
  - destruct (Hdom r eq_refl) as [r' [-> Hle]].
    specialize (Hpos r' eq_refl).
    apply Qplus_le_compat; [exact Hyx|].
    destruct (Z.eq_dec r' r) as [->|Hne]; [apply Qle_refl|].
    apply Qlt_le_weak. apply -> Qinv_lt_contravar.
    + rewrite <- Zlt_Qlt. lia.
    + change 0%Q with (inject_Z 0). rewrite <- Zlt_Qlt. lia.
    + change 0%Q with (inject_Z 0). rewrite <- Zlt_Qlt. lia.
  - destruct ra as [r'|]; [|exact Hyx].
    rewrite <- (Qplus_0_r y).
    apply Qplus_le_compat; [exact Hyx | apply Hinv, (Hpos r' eq_refl)].
Qed.

Lemma fused_score_dominance (c : Z) (cosine bm25 : list (KBEntry Q))
      (a b : pystr) :
  0 <= c ->
  FusionOrder.ranked_no_lower cosine a b ->
  FusionOrder.ranked_no_lower bm25 a b ->
  (fused_score c cosine bm25 b <= fused_score c cosine bm25 a)%Q.
Proof.
  intros Hc Hcos Hbm. unfold fused_score.
  assert (Hpos : forall (l : list (KBEntry Q)) i r,
             rank_in l i = Some r -> 0 < r).
  { intros l i r Hr. unfold rank_in in Hr. now apply rank_from_lower in Hr. }
  apply reciprocal_bounds; [exact Hc | apply Hpos | exact Hbm|].
  apply reciprocal_bounds; [exact Hc | apply Hpos | exact Hcos|].
  apply Qle_refl.
Qed.

Lemma StronglySorted_in_front {A} (R : A -> A -> Prop) (p m q : list A)
      (x y : A) :
  StronglySorted R (p ++ x :: m ++ y :: q) -> R x y.
Proof.
  induction p as [|z p IH]; simpl; intro Hs;
    inversion Hs as [|? ? Hrest Hall]; subst.
  - rewrite Forall_forall in Hall. apply Hall.
    apply in_or_app. right. now left.
  - now apply IH.
Qed.



End FusionMoreFacts.
